(** * CSS to SCSS converter: a shallow embedding of
    [src/src/variable-enhanced-converter.ts] and the properties of its
    rule extractor, BEM matcher, variable extractor, duplicate detector,
    tree builder and formatter, with the loop of the [batch] command of
    the command line that calls it.

    Conventions of the embedding.
    - JavaScript strings are [string]s (sequences of ASCII code units).
    - A [Map<string, V>] is an association list in insertion order
      ([JsMap]): the code iterates maps and their order reaches the output.
    - [Declaration] objects live in a store ([Heap]) and rules hold
      references to them: the code shares one object between several
      rules and later rewrites its [value] field in place.
    - The external CSS parser and [localeCompare] are parameters.
    - Regular expressions are transcribed as terms of [Regex.regex] and run
      by a backtracking matcher that follows the ECMAScript priorities. *)

From Stdlib Require Import List String Ascii ZArith Lia Bool Arith PeanoNat.
From Stdlib Require Import DecimalString DecimalNat Permutation.
Import ListNotations.
Open Scope list_scope.
Open Scope string_scope.

Set Implicit Arguments.

(* ------------------------------------------------------------------ *)
(** ** JavaScript string primitives *)

Module JsString.

Definition chr (n : nat) : ascii := ascii_of_nat n.

Definition code (c : ascii) : nat := nat_of_ascii c.

Definition in_range (lo hi : nat) (c : ascii) : bool :=
  Nat.leb lo (code c) && Nat.leb (code c) hi.

(** [\s] on ASCII input: TAB, LF, VT, FF, CR and SPACE. *)
Definition is_space (c : ascii) : bool :=
  in_range 9 13 c || Nat.eqb (code c) 32.

(** [\d] *)
Definition is_digit (c : ascii) : bool := in_range 48 57 c.

Definition is_upper (c : ascii) : bool := in_range 65 90 c.
Definition is_lower (c : ascii) : bool := in_range 97 122 c.

(** [[a-zA-Z0-9]] *)
Definition is_alnum (c : ascii) : bool :=
  is_lower c || is_upper c || is_digit c.

(** [[0-9a-fA-F]] *)
Definition is_hex (c : ascii) : bool :=
  is_digit c || in_range 97 102 c || in_range 65 70 c.

Definition is_char (x : ascii) (c : ascii) : bool := Ascii.eqb x c.

Definition lower_char (c : ascii) : ascii :=
  if is_upper c then chr (code c + 32) else c.

Definition upper_char (c : ascii) : ascii :=
  if is_lower c then chr (code c - 32) else c.

Fixpoint toLowerCase (s : string) : string :=
  match s with
  | EmptyString => EmptyString
  | String c s' => String (lower_char c) (toLowerCase s')
  end.

Definition truthy (s : string) : bool :=
  match s with EmptyString => false | _ => true end.

Definition startsWith (s p : string) : bool := String.prefix p s.

Fixpoint includes (s sub : string) : bool :=
  String.prefix sub s ||
  match s with
  | EmptyString => false
  | String _ s' => includes s' sub
  end.

Fixpoint drop (n : nat) (s : string) : string :=
  match n, s with
  | S n', String _ s' => drop n' s'
  | _, _ => s
  end.

Fixpoint take (n : nat) (s : string) : string :=
  match n, s with
  | S n', String c s' => String c (take n' s')
  | _, _ => EmptyString
  end.

Fixpoint trimStart (s : string) : string :=
  match s with
  | String c s' => if is_space c then trimStart s' else s
  | EmptyString => EmptyString
  end.

(** [trimEnd] keeps a character when it is not a space or when something
    that is kept follows it. *)
Fixpoint trimEnd (s : string) : string :=
  match s with
  | EmptyString => EmptyString
  | String c s' =>
      match trimEnd s' with
      | EmptyString => if is_space c then EmptyString else String c EmptyString
      | t => String c t
      end
  end.

Definition trim (s : string) : string := trimEnd (trimStart s).

(** [s.split(sep)] for a one-character separator string. *)
Fixpoint split_on (sep : ascii) (s : string) : list string :=
  match s with
  | EmptyString => [EmptyString]
  | String c s' =>
      if Ascii.eqb c sep then EmptyString :: split_on sep s'
      else match split_on sep s' with
           | piece :: rest => String c piece :: rest
           | [] => [String c EmptyString]
           end
  end.

Definition join (sep : string) (l : list string) : string :=
  String.concat sep l.

Fixpoint repeat_str (unit : string) (n : nat) : string :=
  match n with
  | 0 => EmptyString
  | S n' => unit ++ repeat_str unit n'
  end.

(** Decimal rendering of a non-negative integer, as template literals do. *)
Definition of_nat (n : nat) : string :=
  NilEmpty.string_of_uint (Nat.to_uint n).

Definition of_Z (z : Z) : string :=
  match z with
  | Z0 => "0"
  | Zpos p => of_nat (Pos.to_nat p)
  | Zneg p => "-" ++ of_nat (Pos.to_nat p)
  end.

(** Comparison of code-unit sequences: the order of [Array.prototype.sort]
    without a comparator. *)
Fixpoint ltb (a b : string) : bool :=
  match a, b with
  | EmptyString, EmptyString => false
  | EmptyString, String _ _ => true
  | String _ _, EmptyString => false
  | String x a', String y b' =>
      if Nat.ltb (code x) (code y) then true
      else if Nat.ltb (code y) (code x) then false
      else ltb a' b'
  end.

End JsString.

(* ------------------------------------------------------------------ *)
(** ** Regular expressions

    The subset of ECMAScript regular expressions the converter uses:
    character classes, concatenation, alternation, greedy quantifiers,
    capturing groups and the two anchors (no flag but [g], and [s] on a
    pattern that then reads [.] as any character).  The matcher is the
    usual backtracking one: alternatives are tried left to right, a
    quantifier first tries one more iteration, and an iteration that
    consumes nothing is rejected. *)

Module Regex.
Import JsString.

Inductive regex : Type :=
| Eps
| Chr (p : ascii -> bool)
| Seq (r1 r2 : regex)
| Alt (r1 r2 : regex)
| Star (r : regex)
| Group (idx : nat) (r : regex)
| Bol
| Eol.

Definition Plus (r : regex) : regex := Seq r (Star r).
Definition Opt (r : regex) : regex := Alt r Eps.

Fixpoint Lit (s : string) : regex :=
  match s with
  | EmptyString => Eps
  | String c s' => Seq (Chr (is_char c)) (Lit s')
  end.

Fixpoint Times (n : nat) (r : regex) : regex :=
  match n with
  | 0 => Eps
  | S n' => Seq r (Times n' r)
  end.

Definition Not (p : ascii -> bool) : ascii -> bool := fun c => negb (p c).

(** Captures: group index to captured text; an absent index is
    [undefined]. *)
Definition captures := list (nat * string).

Fixpoint cap_get (g : nat) (c : captures) : option string :=
  match c with
  | [] => None
  | (g', s) :: c' => if Nat.eqb g g' then Some s else cap_get g c'
  end.

Section Matcher.
Variable R : Type.

Definition cont : Type := nat -> string -> captures -> option R.

(** The loop of a greedy quantifier over [step], the matcher of its body:
    one more iteration first, then the continuation [k].  [n] bounds the
    iterations; an iteration that ends where it began is rejected. *)
Fixpoint star_loop (step : nat -> string -> captures -> cont -> option R)
         (k : cont) (n : nat) (i : nat) (s : string) (caps : captures)
         {struct n} : option R :=
  match n with
  | 0 => k i s caps
  | S n' =>
      match step i s caps
              (fun i' s' c' =>
                 if Nat.eqb i' i then None
                 else star_loop step k n' i' s' c') with
      | Some x => Some x
      | None => k i s caps
      end
  end.

(** [rmatch r i s caps k]: match [r] at index [i], where [s] is the input
    from [i] on, and hand the index, the rest and the captures to the
    continuation [k]; [None] is failure, which makes the caller try its
    next alternative.  Every iteration of a quantifier consumes a
    character, so the bound [S (length s)] is never the reason its loop
    stops. *)
Fixpoint rmatch (r : regex) (i : nat) (s : string) (caps : captures)
         (k : cont) {struct r} : option R :=
  match r with
  | Eps => k i s caps
  | Chr p =>
      match s with
      | String c s' => if p c then k (S i) s' caps else None
      | EmptyString => None
      end
  | Seq a b => rmatch a i s caps (fun i' s' c' => rmatch b i' s' c' k)
  | Alt a b =>
      match rmatch a i s caps k with
      | Some x => Some x
      | None => rmatch b i s caps k
      end
  | Star a => star_loop (rmatch a) k (S (String.length s)) i s caps
  | Group g a =>
      rmatch a i s caps
        (fun i' s' c' => k i' s' ((g, take (i' - i) s) :: c'))
  | Bol => if Nat.eqb i 0 then k i s caps else None
  | Eol => match s with EmptyString => k i s caps | _ => None end
  end.
End Matcher.

(** A match that starts exactly at index [i]: its end index and captures. *)
Definition match_at (r : regex) (i : nat) (s : string)
  : option (nat * captures) :=
  rmatch r i s [] (fun e _ c => Some (e, c)).

Arguments star_loop {R} step k n i s caps.
Arguments rmatch {R} r i s caps k.

(** The leftmost match at or after index [i]: start, end, captures. *)
Fixpoint search (r : regex) (i : nat) (s : string)
  : option (nat * nat * captures) :=
  match match_at r i s with
  | Some (e, c) => Some (i, e, c)
  | None =>
      match s with
      | EmptyString => None
      | String _ s' => search r (S i) s'
      end
  end.

(** [regex.test(s)] *)
Definition test (r : regex) (s : string) : bool :=
  match search r 0 s with Some _ => true | None => false end.

(** [s.match(regex)] without the [g] flag: the matched text and the
    captures. *)
Definition exec (r : regex) (s : string) : option (string * captures) :=
  match search r 0 s with
  | Some (b, e, c) => Some (take (e - b) (drop b s), c)
  | None => None
  end.

(** The scan shared by [replace], [match] and [split] with a [g] flag or
    a regex separator.  [run r i s skip] walks the input from index [i];
    [skip] counts the characters still inside the previous match.  It
    yields the text between matches and the matched texts, in order:
    [(t0, [(m1, t1); (m2, t2); ...])]. *)
Fixpoint run (r : regex) (i : nat) (s : string) (skip : nat)
  : string * list (string * string) :=
  match skip with
  | S k =>
      match s with
      | String _ s' => run r (S i) s' k
      | EmptyString => (EmptyString, [])
      end
  | 0 =>
      match s with
      | EmptyString =>
          match match_at r i s with
          | Some _ => (EmptyString, [(EmptyString, EmptyString)])
          | None => (EmptyString, [])
          end
      | String c s' =>
          match match_at r i s with
          | Some (e, _) =>
              if Nat.eqb e i then
                let (t, ms) := run r (S i) s' 0 in
                (EmptyString, (EmptyString, String c t) :: ms)
              else
                let (t, ms) := run r (S i) s' (e - i - 1) in
                (EmptyString, (take (e - i) s, t) :: ms)
          | None =>
              let (t, ms) := run r (S i) s' 0 in (String c t, ms)
          end
      end
  end.

(** [s.replace(regex_g, by)] with a replacement that has no [$] pattern. *)
Definition replace_g (r : regex) (by_ : string) (s : string) : string :=
  let (t, ms) := run r 0 s 0 in
  t ++ String.concat EmptyString (map (fun m => by_ ++ snd m) ms).

(** [s.match(regex_g)]: the matched texts, [None] for [null]. *)
Definition match_g (r : regex) (s : string) : option (list string) :=
  match snd (run r 0 s 0) with
  | [] => None
  | ms => Some (map fst ms)
  end.

(** [s.split(regex)] for a separator that never matches the empty string
    and has no capturing group. *)
Definition split (r : regex) (s : string) : list string :=
  let (t, ms) := run r 0 s 0 in t :: map snd ms.

End Regex.

(* ------------------------------------------------------------------ *)
(** ** Data model *)

Module Converter.
Import JsString Regex.

Inductive IndentType : Type := spaces | tabs.

(** [VariableEnhancedConversionOptions]: every field is optional.  Numbers
    are integers here. *)
Record VariableEnhancedConversionOptions : Type := {
  opt_indentSize : option Z;
  opt_indentType : option IndentType;
  opt_preserveComments : option bool;
  opt_sortProperties : option bool;
  opt_enableBEM : option bool;
  opt_enableSmartNesting : option bool;
  opt_maxNestingDepth : option Z;
  opt_enableDuplicateDetection : option bool;
  opt_enableAdvancedBEM : option bool;
  opt_enableMediaQueryGrouping : option bool;
  opt_enableVariableExtraction : option bool;
  opt_variablePrefix : option string;
  opt_minOccurrences : option Z;
  opt_extractColors : option bool;
  opt_extractSizes : option bool;
  opt_extractFonts : option bool;
  opt_extractOthers : option bool
}.

(** [Required<VariableEnhancedConversionOptions>], the [options] field of
    the converter. *)
Record Options : Type := {
  indentSize : Z;
  indentType : IndentType;
  preserveComments : bool;
  sortProperties : bool;
  enableBEM : bool;
  enableSmartNesting : bool;
  maxNestingDepth : Z;
  enableDuplicateDetection : bool;
  enableAdvancedBEM : bool;
  enableMediaQueryGrouping : bool;
  enableVariableExtraction : bool;
  variablePrefix : string;
  minOccurrences : Z;
  extractColors : bool;
  extractSizes : bool;
  extractFonts : bool;
  extractOthers : bool
}.

(** [x || d] on an optional number: [undefined] and [0] give [d]. *)
Definition num_or (x : option Z) (d : Z) : Z :=
  match x with
  | Some z => if Z.eqb z 0 then d else z
  | None => d
  end.

(** [x || d] on an optional string. *)
Definition str_or (x : option string) (d : string) : string :=
  match x with
  | Some s => if truthy s then s else d
  | None => d
  end.

(** [x !== false] *)
Definition not_false (x : option bool) : bool :=
  match x with Some false => false | _ => true end.

(** [x || false] *)
Definition or_false (x : option bool) : bool :=
  match x with Some true => true | _ => false end.

Definition type_or (x : option IndentType) (d : IndentType) : IndentType :=
  match x with Some t => t | None => d end.

Definition constructor (options : VariableEnhancedConversionOptions)
  : Options :=
  {| indentSize := num_or (opt_indentSize options) 2;
     indentType := type_or (opt_indentType options) spaces;
     preserveComments := not_false (opt_preserveComments options);
     sortProperties := or_false (opt_sortProperties options);
     enableBEM := not_false (opt_enableBEM options);
     enableSmartNesting := not_false (opt_enableSmartNesting options);
     maxNestingDepth := num_or (opt_maxNestingDepth options) 5;
     enableDuplicateDetection :=
       not_false (opt_enableDuplicateDetection options);
     enableAdvancedBEM := not_false (opt_enableAdvancedBEM options);
     enableMediaQueryGrouping :=
       not_false (opt_enableMediaQueryGrouping options);
     enableVariableExtraction :=
       not_false (opt_enableVariableExtraction options);
     variablePrefix := str_or (opt_variablePrefix options) "$";
     minOccurrences := num_or (opt_minOccurrences options) 2;
     extractColors := not_false (opt_extractColors options);
     extractSizes := not_false (opt_extractSizes options);
     extractFonts := not_false (opt_extractFonts options);
     extractOthers := not_false (opt_extractOthers options) |}.

(** The options object [{}]. *)
Definition no_options : VariableEnhancedConversionOptions :=
  {| opt_indentSize := None; opt_indentType := None;
     opt_preserveComments := None; opt_sortProperties := None;
     opt_enableBEM := None; opt_enableSmartNesting := None;
     opt_maxNestingDepth := None; opt_enableDuplicateDetection := None;
     opt_enableAdvancedBEM := None; opt_enableMediaQueryGrouping := None;
     opt_enableVariableExtraction := None; opt_variablePrefix := None;
     opt_minOccurrences := None; opt_extractColors := None;
     opt_extractSizes := None; opt_extractFonts := None;
     opt_extractOthers := None |}.

Inductive Category : Type := color | size | font | other.

Definition category_name (c : Category) : string :=
  match c with
  | color => "color"
  | size => "size"
  | font => "font"
  | other => "other"
  end.

Definition Category_eqb (a b : Category) : bool :=
  match a, b with
  | color, color | size, size | font, font | other, other => true
  | _, _ => false
  end.

Inductive BEMType : Type := block | element | modifier | element_modifier.

Record AdvancedBEMInfo : Type := {
  bem_block : string;
  bem_elements : list string;
  bem_modifier : option string;
  bem_type : BEMType;
  bem_level : nat
}.

Inductive DeclType : Type := declaration | comment.

(** [Declaration]: [property] and [important] are absent on comments,
    [originalValue] until a variable replaces the value. *)
Record Declaration : Type := {
  type : DeclType;
  property : option string;
  value : string;
  important : option bool;
  originalValue : option string
}.

(** References to [Declaration] objects and the store that holds them. *)
Definition Ref := nat.
Definition Heap := list Declaration.

Definition no_declaration : Declaration :=
  {| type := comment; property := None; value := EmptyString;
     important := None; originalValue := None |}.

Definition deref (h : Heap) (r : Ref) : Declaration :=
  nth r h no_declaration.

(** [new Declaration]: the object is put at the end of the store. *)
Definition alloc (h : Heap) (d : Declaration) : Heap * Ref :=
  ((h ++ [d])%list, List.length h).

Fixpoint store (h : Heap) (r : Ref) (d : Declaration) : Heap :=
  match h, r with
  | [], _ => []
  | _ :: h', 0 => d :: h'
  | x :: h', S r' => x :: store h' r' d
  end.

Record ParsedRule : Type := {
  selector : string;
  declarations : list Ref;
  specificity : list nat;
  bemInfo : option AdvancedBEMInfo;
  mediaQuery : option string;
  hash : option string
}.

Record VariableCandidate : Type := {
  c_value : string;
  c_property : string;
  c_occurrences : nat;
  c_contexts : list string;
  c_category : Category;
  c_suggestedName : string
}.

Record ExtractedVariable : Type := {
  v_name : string;
  v_value : string;
  v_category : Category;
  v_occurrences : nat
}.

Record MediaQueryGroup : Type := {
  query : string;
  rules : list ParsedRule
}.

(** [NestedRule]: [children] is a [Map] from selector fragment to node. *)
#[local] Unset Elimination Schemes.
Inductive NestedRule : Type :=
  mkNestedRule (n_selector : string) (n_declarations : list Ref)
               (n_children : list (string * NestedRule))
               (n_bemInfo : option AdvancedBEMInfo).
#[local] Set Elimination Schemes.

Definition n_selector (n : NestedRule) : string :=
  match n with mkNestedRule s _ _ _ => s end.
Definition n_declarations (n : NestedRule) : list Ref :=
  match n with mkNestedRule _ d _ _ => d end.
Definition n_children (n : NestedRule) : list (string * NestedRule) :=
  match n with mkNestedRule _ _ c _ => c end.
Definition n_bemInfo (n : NestedRule) : option AdvancedBEMInfo :=
  match n with mkNestedRule _ _ _ b => b end.

(** *** [Map<string, V>] in insertion order *)

Section JsMap.
Variable V : Type.

Definition JsMap := list (string * V).

Fixpoint map_get (k : string) (m : JsMap) : option V :=
  match m with
  | [] => None
  | (k', v) :: m' => if String.eqb k k' then Some v else map_get k m'
  end.

Definition map_has (k : string) (m : JsMap) : bool :=
  match map_get k m with Some _ => true | None => false end.

(** [m.set(k, v)]: an existing key keeps its place. *)
Fixpoint map_set (k : string) (v : V) (m : JsMap) : JsMap :=
  match m with
  | [] => [(k, v)]
  | (k', v') :: m' =>
      if String.eqb k k' then (k', v) :: m'
      else (k', v') :: map_set k v m'
  end.

Definition map_keys (m : JsMap) : list string := map fst m.
Definition map_values (m : JsMap) : list V := map snd m.
End JsMap.

Arguments map_get {V} k m.
Arguments map_has {V} k m.
Arguments map_set {V} k v m.
Arguments map_keys {V} m.
Arguments map_values {V} m.

(* ------------------------------------------------------------------ *)
(** ** Variable extractor: categories and names *)

Definition str_in (s : string) (l : list string) : bool :=
  existsb (String.eqb s) l.

Definition isColorProperty (property : string) : bool :=
  str_in property
    ["color"; "background-color"; "border-color"; "outline-color";
     "text-decoration-color"; "caret-color"; "column-rule-color";
     "border-top-color"; "border-right-color"; "border-bottom-color";
     "border-left-color"].

(** [/^#([0-9a-fA-F]{3}|[0-9a-fA-F]{6}|[0-9a-fA-F]{8})$/] *)
Definition hex_color_re : regex :=
  Seq Bol (Seq (Lit "#")
    (Seq (Group 1 (Alt (Times 3 (Chr is_hex))
                  (Alt (Times 6 (Chr is_hex)) (Times 8 (Chr is_hex)))))
         Eol)).

(** [/^rgba?\(/] *)
Definition rgb_re : regex :=
  Seq Bol (Seq (Lit "rgb") (Seq (Opt (Lit "a")) (Lit "("))).

(** [/^hsla?\(/] *)
Definition hsl_re : regex :=
  Seq Bol (Seq (Lit "hsl") (Seq (Opt (Lit "a")) (Lit "("))).

Definition isColorValue (value : string) : bool :=
  if test hex_color_re value then true
  else if test rgb_re value then true
  else if test hsl_re value then true
  else str_in (toLowerCase value)
         ["red"; "blue"; "green"; "yellow"; "orange"; "purple"; "pink";
          "brown"; "black"; "white"; "gray"; "grey"; "transparent";
          "currentColor"].

Definition isSizeProperty (property : string) : bool :=
  str_in property
    ["width"; "height"; "min-width"; "min-height"; "max-width";
     "max-height"; "padding"; "padding-top"; "padding-right";
     "padding-bottom"; "padding-left"; "margin"; "margin-top";
     "margin-right"; "margin-bottom"; "margin-left"; "border-width";
     "border-radius"; "font-size"; "line-height"; "letter-spacing";
     "top"; "right"; "bottom"; "left"; "gap"; "column-gap"; "row-gap"].

Definition alt_of (l : list string) : regex :=
  fold_right (fun s r => Alt (Lit s) r) (Chr (fun _ => false)) l.

(** [/^\d+(\.\d+)?(px|em|rem|%|vh|vw|vmin|vmax|pt|pc|in|cm|mm|ex|ch)$/] *)
Definition size_value_re : regex :=
  Seq Bol (Seq (Plus (Chr is_digit))
    (Seq (Opt (Group 1 (Seq (Lit ".") (Plus (Chr is_digit)))))
    (Seq (Group 2 (alt_of ["px"; "em"; "rem"; "%"; "vh"; "vw"; "vmin";
                           "vmax"; "pt"; "pc"; "in"; "cm"; "mm"; "ex";
                           "ch"]))
         Eol))).

Definition isSizeValue (value : string) : bool := test size_value_re value.

Definition isFontProperty (property : string) : bool :=
  str_in property
    ["font-family"; "font-weight"; "font-style"; "font-variant";
     "font-stretch"; "font-size"; "line-height"].

Definition categorizeValue (property value : string) : Category :=
  if isColorProperty property || isColorValue value then color
  else if isSizeProperty property || isSizeValue value then size
  else if isFontProperty property then font
  else other.

Definition getSemanticColorName (hexColor : string) : option string :=
  let colorMap : list (string * string) :=
    [("#000000", "black"); ("#ffffff", "white"); ("#ff0000", "red");
     ("#00ff00", "green"); ("#0000ff", "blue"); ("#ffff00", "yellow");
     ("#ff00ff", "magenta"); ("#00ffff", "cyan"); ("#808080", "gray");
     ("#c0c0c0", "silver"); ("#800000", "maroon");
     ("#008000", "dark-green"); ("#000080", "navy"); ("#808000", "olive");
     ("#800080", "purple"); ("#008080", "teal");
     ("#007bff", "primary-blue"); ("#28a745", "success-green");
     ("#dc3545", "danger-red"); ("#ffc107", "warning-yellow");
     ("#17a2b8", "info-cyan"); ("#6c757d", "secondary-gray");
     ("#f8f9fa", "light-gray"); ("#343a40", "dark-gray")] in
  map_get (toLowerCase hexColor) colorMap.

(** The chain of [replace] calls that cleans a value for naming. *)
Definition cleanValue (value : string) : string :=
  toLowerCase
    (replace_g (Alt (Seq Bol (Lit "-")) (Seq (Lit "-") Eol)) EmptyString
       (replace_g (Plus (Lit "-")) "-"
          (replace_g (Chr (Not is_alnum)) "-" value))).

Section Naming.
Variable options : Options.

Definition shouldExtractCategory (category : Category) : bool :=
  match category with
  | color => extractColors options
  | size => extractSizes options
  | font => extractFonts options
  | other => extractOthers options
  end.

Definition generateVariableName (property value : string)
           (category : Category) : string :=
  let prefix := variablePrefix options in
  let cleanValue := cleanValue value in
  match category with
  | color =>
      if startsWith value "#" then
        let colorName := getSemanticColorName value in
        prefix ++ "color-" ++
          match colorName with
          | Some n => if truthy n then n else cleanValue
          | None => cleanValue
          end
      else if String.eqb value "inherit" then prefix ++ "color-inherit"
      else if String.eqb value "transparent" then
        prefix ++ "color-transparent"
      else prefix ++ "color-" ++ cleanValue
  | size =>
      if String.eqb value "inherit" then prefix ++ "size-inherit"
      else if String.eqb value "auto" then prefix ++ "size-auto"
      else if String.eqb value "0" then prefix ++ "size-0"
      else if String.eqb value "100%" then prefix ++ "size-full"
      else if includes property "font-size" then
        prefix ++ "text-" ++ cleanValue
      else if includes property "padding" then
        prefix ++ "p-" ++ cleanValue
      else if includes property "margin" then
        prefix ++ "m-" ++ cleanValue
      else if includes property "border-radius" then
        prefix ++ "rounded-" ++ cleanValue
      else if includes property "width" || includes property "height" then
        prefix ++ "size-" ++ cleanValue
      else prefix ++ "spacing-" ++ cleanValue
  | font =>
      if String.eqb property "font-family" then
        prefix ++ "font-" ++ cleanValue
      else if String.eqb property "font-weight" then
        prefix ++ "font-" ++ cleanValue
      else if String.eqb property "font-size" then
        prefix ++ "text-" ++ cleanValue
      else prefix ++ "font-" ++ cleanValue
  | other =>
      let prop := replace_g (Lit "-") "-" property in
      if String.eqb value "none" then prefix ++ prop ++ "-none"
      else if String.eqb value "inherit" then prefix ++ prop ++ "-inherit"
      else if String.eqb value "auto" then prefix ++ prop ++ "-auto"
      else prefix ++ prop ++ "-" ++ cleanValue
  end.
End Naming.

Example cleanValue_hex : cleanValue "#FFF" = "fff".
Proof. reflexivity. Qed.

Example cleanValue_pair : cleanValue "10px 20px" = "10px-20px".
Proof. reflexivity. Qed.

Example categorize_width : categorizeValue "width" "10px" = size.
Proof. reflexivity. Qed.

Example categorize_display : categorizeValue "display" "1.5rem" = size.
Proof. reflexivity. Qed.

Example name_primary :
  generateVariableName (constructor no_options) "background-color" "#007bff"
    color = "$color-primary-blue".
Proof. reflexivity. Qed.

(* ------------------------------------------------------------------ *)
(** ** Rule extractor *)

(** The [important] field of a parsed declaration: [false], [true], or
    the identifier of a hack such as [!ie]. *)
Inductive Important : Type :=
| ImpFalse
| ImpTrue
| ImpIdent (ident : string).

(** The stylesheet tree the parser returns.  A prelude and a declaration
    value are kept as the text [csstree.generate] gives for them (no rule,
    at-rule or comment node occurs below them), and a block carries both
    that text and its children. *)
#[local] Unset Elimination Schemes.
Inductive CssNode : Type :=
| StyleSheet (children : list CssNode)
| Atrule (name : string) (prelude : option string)
         (block : option (string * list CssNode))
| Rule (prelude : string) (block : option (list CssNode))
| DeclarationNode (imp : Important) (property : string) (value : string)
| Comment (value : string)
| Raw (value : string).
#[local] Set Elimination Schemes.

(** Truthiness of [declaration.important]. *)
Definition imp_truthy (i : Important) : bool :=
  match i with
  | ImpFalse => false
  | ImpTrue => true
  | ImpIdent s => truthy s
  end.

(** [declaration.important === true] *)
Definition imp_is_true (i : Important) : bool :=
  match i with ImpTrue => true | _ => false end.

(** Stable insertion sort under a JavaScript comparator. *)
Section Sort.
Variable A : Type.
Variable cmp : A -> A -> Z.

Fixpoint insert (x : A) (l : list A) : list A :=
  match l with
  | [] => [x]
  | y :: l' => if Z.leb (cmp x y) 0 then x :: y :: l' else y :: insert x l'
  end.

Fixpoint sort (l : list A) : list A :=
  match l with
  | [] => []
  | x :: l' => insert x (sort l')
  end.
End Sort.

(** The comparator of [sort()] with no argument. *)
Definition default_cmp (a b : string) : Z :=
  if JsString.ltb a b then (-1)%Z
  else if JsString.ltb b a then 1%Z else 0%Z.

(** [`${d.property}`] *)
Definition property_text (d : Declaration) : string :=
  match property d with Some p => p | None => "undefined" end.

Definition flag (b : option bool) : bool :=
  match b with Some true => true | _ => false end.

Definition is_declaration (d : Declaration) : bool :=
  match type d with declaration => true | comment => false end.

Definition declaration_text (d : Declaration) : string :=
  property_text d ++ ":" ++ value d ++
  (if flag (important d) then "!important" else EmptyString).

Definition generateDeclarationHash (h : Heap) (declarations : list Ref)
  : string :=
  join ";"
    (sort default_cmp
       (map declaration_text
          (filter is_declaration (map (deref h) declarations)))).

Definition generateRuleHash (h : Heap) (selector : string)
           (declarations : list Ref) : string :=
  selector ++ "|" ++ generateDeclarationHash h declarations.

(** [[a-zA-Z0-9-]] *)
Definition is_token (c : ascii) : bool := is_alnum c || is_char "-" c.

(** [/:[^,\s]+/g] *)
Definition pseudo_g_re : regex :=
  Seq (Lit ":") (Plus (Chr (fun c => negb (is_char "," c || is_space c)))).

(** [/\[[^\]]+\]/g] *)
Definition attribute_g_re : regex :=
  Seq (Lit "[") (Seq (Plus (Chr (Not (is_char "]")))) (Lit "]")).

(** [/^\.([a-zA-Z0-9-]+)(?:__((?:[a-zA-Z0-9-]+(?:__)?)+))?(?:--([a-zA-Z0-9-]+))?$/] *)
Definition advancedBemRegex : regex :=
  Seq Bol (Seq (Lit ".")
    (Seq (Group 1 (Plus (Chr is_token)))
    (Seq (Opt (Seq (Lit "__")
                   (Group 2 (Plus (Seq (Plus (Chr is_token))
                                       (Opt (Lit "__")))))))
    (Seq (Opt (Seq (Lit "--") (Group 3 (Plus (Chr is_token)))))
         Eol)))).

(** [s.split(sep)] for a separator of one character or more; [skip]
    counts the characters of a separator still to pass. *)
Fixpoint split_by (sep : string) (s : string) (skip : nat) : list string :=
  match skip with
  | S k =>
      match s with
      | String _ s' => split_by sep s' k
      | EmptyString => [EmptyString]
      end
  | 0 =>
      match s with
      | EmptyString => [EmptyString]
      | String c s' =>
          if String.prefix sep s then
            EmptyString :: split_by sep s' (String.length sep - 1)
          else match split_by sep s' 0 with
               | piece :: rest => String c piece :: rest
               | [] => [String c EmptyString]
               end
      end
  end.

Example split_by_elements :
  split_by "__" "header__title__" 0 = ["header"; "title"; EmptyString].
Proof. reflexivity. Qed.

Definition parseAdvancedBEM (selector : string) : option AdvancedBEMInfo :=
  let cleanSelector :=
    replace_g attribute_g_re EmptyString
      (replace_g pseudo_g_re EmptyString selector) in
  match exec advancedBemRegex cleanSelector with
  | None => None
  | Some (_, caps) =>
      match cap_get 1 caps with
      | None => None
      | Some block_ =>
          let elementPart := cap_get 2 caps in
          let modifier_ := cap_get 3 caps in
          let elements :=
            match elementPart with
            | Some e =>
                if truthy e then filter truthy (split_by "__" e 0) else []
            | None => []
            end in
          let level := List.length elements in
          let has_modifier :=
            match modifier_ with Some m => truthy m | None => false end in
          if Nat.ltb 0 (List.length elements) && has_modifier then
            Some {| bem_block := block_; bem_elements := elements;
                    bem_modifier := modifier_; bem_type := element_modifier;
                    bem_level := level + 1 |}
          else if Nat.ltb 0 (List.length elements) then
            Some {| bem_block := block_; bem_elements := elements;
                    bem_modifier := None; bem_type := element;
                    bem_level := level |}
          else if has_modifier then
            Some {| bem_block := block_; bem_elements := [];
                    bem_modifier := modifier_; bem_type := modifier;
                    bem_level := 1 |}
          else
            Some {| bem_block := block_; bem_elements := [];
                    bem_modifier := None; bem_type := block;
                    bem_level := 0 |}
      end
  end.

Definition count_matches (r : regex) (s : string) : nat :=
  match match_g r s with Some l => List.length l | None => 0 end.

(** [/[\s>+~]/] *)
Definition combinator_re : regex :=
  Chr (fun c => is_space c || is_char ">" c || is_char "+" c
                || is_char "~" c).

(** [/[#.:]/] *)
Definition marker_re : regex :=
  Chr (fun c => is_char "#" c || is_char "." c || is_char ":" c).

Definition calculateSpecificity (selector : string) : list nat :=
  let ids := count_matches (Lit "#") selector in
  let classes := count_matches (Lit ".") selector in
  let elements :=
    List.length
      (filter (fun s => truthy s && negb (test marker_re s)
                        && negb (String.eqb s EmptyString))
         (split combinator_re selector)) in
  [ids; classes; elements].

Example bem_element :
  parseAdvancedBEM ".card__header__title:hover" =
  Some {| bem_block := "card"; bem_elements := ["header"; "title"];
          bem_modifier := None; bem_type := element; bem_level := 2 |}.
Proof. reflexivity. Qed.

Example bem_none : parseAdvancedBEM ".nav ul" = None.
Proof. reflexivity. Qed.

Example specificity_sample :
  calculateSpecificity "#a .b > li" = [1; 1; 1].
Proof. reflexivity. Qed.

(** [/^(0%|100%|\d+%|from|to)$/] *)
Definition keyframe_step_re : regex :=
  Seq Bol (Seq (Group 1
    (Alt (Lit "0%") (Alt (Lit "100%")
      (Alt (Seq (Plus (Chr is_digit)) (Lit "%"))
        (Alt (Lit "from") (Lit "to")))))) Eol).

(** [arr.findIndex(p)], [None] for [-1]. *)
Fixpoint findIndex (A : Type) (p : A -> bool) (l : list A) : option nat :=
  match l with
  | [] => None
  | x :: l' =>
      if p x then Some 0
      else match findIndex p l' with Some i => Some (S i) | None => None end
  end.

(** [arr.splice(i, 1)] *)
Fixpoint splice1 (A : Type) (i : nat) (l : list A) : list A :=
  match l, i with
  | [], _ => []
  | _ :: l', 0 => l'
  | x :: l', S i' => x :: splice1 i' l'
  end.

Definition opt_eqb (a : option string) (b : string) : bool :=
  match a with Some x => String.eqb x b | None => false end.

Definition flag_eqb (a : option bool) (b : bool) : bool :=
  match a with Some x => Bool.eqb x b | None => false end.

(** The state of one [extractRules] call: the rules pushed so far, the
    [currentMediaQuery] variable and the store of declaration objects. *)
Record WalkState : Type := {
  w_rules : list ParsedRule;
  w_media : string;
  w_heap : Heap
}.

(** [currentMediaQuery || undefined] *)
Definition media_of (currentMediaQuery : string) : option string :=
  if truthy currentMediaQuery then Some currentMediaQuery else None.

Definition push_rule (st : WalkState) (h : Heap) (r : ParsedRule)
  : WalkState :=
  {| w_rules := (w_rules st ++ [r])%list; w_media := w_media st;
     w_heap := h |}.

Definition new_declaration (imp : Important) (property_ value_ : string)
  : Declaration :=
  {| type := declaration; property := Some property_; value := value_;
     important := Some (imp_is_true imp); originalValue := None |}.

(** The declarations of an at-rule block other than keyframes: one object
    for each [Declaration] child, in order. *)
Fixpoint atrule_declarations (children : list CssNode) (h : Heap)
  : Heap * list Ref :=
  match children with
  | [] => (h, [])
  | DeclarationNode imp p v :: rest =>
      let (h1, r) := alloc h (new_declaration imp p v) in
      let (h2, rs) := atrule_declarations rest h1 in
      (h2, r :: rs)
  | _ :: rest => atrule_declarations rest h
  end.

(** The loop over the children of a rule block: [seenProperties], the
    [declarations] array and the store are threaded through. *)
Fixpoint rule_declarations (children : list CssNode)
         (seenProperties : list string) (declarations : list Ref)
         (h : Heap) : Heap * list Ref :=
  match children with
  | [] => (h, declarations)
  | DeclarationNode imp p v :: rest =>
      let propertyKey :=
        p ++ ":" ++ (if imp_truthy imp then "!important" else EmptyString) in
      let declarations1 :=
        if str_in propertyKey seenProperties then
          match findIndex
                  (fun r => let d := deref h r in
                            is_declaration d && opt_eqb (property d) p
                            && flag_eqb (important d) (imp_is_true imp))
                  declarations with
          | Some existingIndex => splice1 existingIndex declarations
          | None => declarations
          end
        else declarations in
      let (h1, r) := alloc h (new_declaration imp p v) in
      rule_declarations rest (propertyKey :: seenProperties)
        (declarations1 ++ [r])%list h1
  | _ :: rest => rule_declarations rest seenProperties declarations h
  end.

Section Extract.
Variable options : Options.
(** The reading of [Date.now()]; it only reaches the [hash] field, which
    nothing reads. *)
Variable now : Z.

Definition is_keyframes (name : string) : bool :=
  String.eqb name "keyframes" || String.eqb name "-webkit-keyframes".

(** One [ParsedRule] for a selector of a style rule. *)
Definition rule_for (h : Heap) (declarations : list Ref)
           (currentMediaQuery : string) (selector_ : string)
  : ParsedRule :=
  let trimmedSelector := trim selector_ in
  {| selector := trimmedSelector;
     declarations := declarations;
     specificity := calculateSpecificity trimmedSelector;
     bemInfo := if enableBEM options
                then parseAdvancedBEM trimmedSelector else None;
     mediaQuery := media_of currentMediaQuery;
     hash := Some (generateRuleHash h trimmedSelector declarations) |}.

(** The callback given to [csstree.walk], applied to one node. *)
Definition visit (node : CssNode) (st : WalkState) : WalkState :=
  match node with
  | Atrule name prelude block_ =>
      match String.eqb name "media", prelude with
      | true, Some p =>
          {| w_rules := w_rules st; w_media := p; w_heap := w_heap st |}
      | _, _ =>
          match is_keyframes name, prelude, block_ with
          | true, Some keyframeName, Some (blockText, _) =>
              let (h1, r) :=
                alloc (w_heap st)
                  {| type := declaration;
                     property := Some "@keyframes-block";
                     value := blockText; important := Some false;
                     originalValue := None |} in
              push_rule st h1
                {| selector := "@" ++ name ++ " " ++ keyframeName;
                   declarations := [r];
                   specificity := [0; 0; 0];
                   bemInfo := None;
                   mediaQuery := media_of (w_media st);
                   hash := Some ("keyframes-" ++ name ++ "-"
                                 ++ keyframeName) |}
          | _, _, Some (_, children) =>
              let atRuleName :=
                "@" ++ name ++
                match prelude with
                | Some p => " " ++ p
                | None => EmptyString
                end in
              let (h1, decls) := atrule_declarations children (w_heap st) in
              push_rule st h1
                {| selector := atRuleName;
                   declarations := decls;
                   specificity := [0; 0; 0];
                   bemInfo := None;
                   mediaQuery := media_of (w_media st);
                   hash := Some ("atrule-" ++ name ++ "-" ++ of_Z now) |}
          | _, _, None => st
          end
      end
  | Rule selectorText block_ =>
      let (h1, declarations) :=
        match block_ with
        | Some children => rule_declarations children [] [] (w_heap st)
        | None => (w_heap st, [])
        end in
      {| w_rules :=
           (w_rules st ++
            map (rule_for h1 declarations (w_media st))
                (split_on "," selectorText))%list;
         w_media := w_media st;
         w_heap := h1 |}
  | Comment text =>
      if preserveComments options then
        let (h1, r) :=
          alloc (w_heap st)
            {| type := comment; property := None; value := text;
               important := None; originalValue := None |} in
        push_rule st h1
          {| selector := "/* COMMENT */";
             declarations := [r];
             specificity := [0; 0; 0];
             bemInfo := None;
             mediaQuery := media_of (w_media st);
             hash := Some ("comment-" ++ of_Z now) |}
      else st
  | _ => st
  end.

(** [csstree.walk]: the callback on a node, then on its children in
    document order. *)
Fixpoint walk (node : CssNode) (st : WalkState) {struct node}
  : WalkState :=
  let walk_all :=
    fix walk_all (l : list CssNode) (st : WalkState) : WalkState :=
      match l with
      | [] => st
      | c :: l' => walk_all l' (walk c st)
      end in
  let st1 := visit node st in
  match node with
  | StyleSheet children => walk_all children st1
  | Atrule _ _ (Some (_, children)) => walk_all children st1
  | Rule _ (Some children) => walk_all children st1
  | _ => st1
  end.

(** The filter of orphaned keyframe steps. *)
Definition keep_rule (rule : ParsedRule) : bool :=
  if startsWith (selector rule) "@keyframes"
     || startsWith (selector rule) "@-webkit-keyframes" then true
  else if test keyframe_step_re (selector rule) then false
  else true.

Definition extractRules (ast : CssNode) : list ParsedRule * Heap :=
  let st := walk ast {| w_rules := []; w_media := EmptyString;
                        w_heap := [] |} in
  (filter keep_rule (w_rules st), w_heap st).
End Extract.

(* ------------------------------------------------------------------ *)
(** ** Variable extractor *)

(** [if (!m.has(k)) m.set(k, []); m.get(k).push(x)] *)
Definition map_push (V : Type) (k : string) (x : V) (m : JsMap (list V))
  : JsMap (list V) :=
  match map_get k m with
  | Some l => map_set k (l ++ [x])%list m
  | None => map_set k [x] m
  end.

(** The entries of the local [valueOccurrences] map. *)
Record Occurrence : Type := {
  count : nat;
  contexts : list string;
  properties : list string
}.

(** The two fields of a converter instance that outlive a call. *)
Record Instance : Type := {
  variableCandidates : JsMap VariableCandidate;
  extractedVariables : JsMap ExtractedVariable
}.

(** The fields as the class initialises them. *)
Definition new_instance : Instance :=
  {| variableCandidates := []; extractedVariables := [] |}.

Definition set_add (s : string) (l : list string) : list string :=
  if str_in s l then l else (l ++ [s])%list.

Definition nl : string := String (chr 10) EmptyString.

Section Variables_.
Variable options : Options.

(** The body of the inner [forEach] of [analyzeVariableCandidates] for
    one declaration of the rule with selector [sel]. *)
Definition analyze_declaration (sel : string)
           (acc : JsMap Occurrence * JsMap VariableCandidate)
           (decl : Declaration)
  : JsMap Occurrence * JsMap VariableCandidate :=
  let (valueOccurrences, candidates) := acc in
  match type decl, property decl with
  | declaration, Some prop =>
      if truthy prop && truthy (value decl) then
        let category := categorizeValue prop (value decl) in
        if negb (shouldExtractCategory options category) then acc
        else
          let key := prop ++ ":" ++ value decl in
          let valueOccurrences1 :=
            if map_has key valueOccurrences then valueOccurrences
            else map_set key {| count := 0; contexts := [];
                                properties := [] |} valueOccurrences in
          match map_get key valueOccurrences1 with
          | None => acc
          | Some occurrence0 =>
              let occurrence :=
                {| count := S (count occurrence0);
                   contexts := (contexts occurrence0 ++ [sel])%list;
                   properties := set_add prop (properties occurrence0) |} in
              let valueOccurrences2 :=
                map_set key occurrence valueOccurrences1 in
              let candidates1 :=
                if map_has key candidates then candidates
                else map_set key
                       {| c_value := value decl; c_property := prop;
                          c_occurrences := 0; c_contexts := [];
                          c_category := category;
                          c_suggestedName :=
                            generateVariableName options prop
                              (value decl) category |} candidates in
              match map_get key candidates1 with
              | None => acc
              | Some candidate =>
                  (valueOccurrences2,
                   map_set key
                     {| c_value := c_value candidate;
                        c_property := c_property candidate;
                        c_occurrences := count occurrence;
                        c_contexts := contexts occurrence;
                        c_category := c_category candidate;
                        c_suggestedName := c_suggestedName candidate |}
                     candidates1)
              end
          end
      else acc
  | _, _ => acc
  end.

Definition analyze_rule (h : Heap)
           (acc : JsMap Occurrence * JsMap VariableCandidate)
           (rule : ParsedRule)
  : JsMap Occurrence * JsMap VariableCandidate :=
  fold_left (analyze_declaration (selector rule))
            (map (deref h) (declarations rule)) acc.

Definition analyzeVariableCandidates (h : Heap) (rules_ : list ParsedRule)
           (this : Instance) : Instance :=
  let (_, candidates) :=
    fold_left (analyze_rule h) rules_ ([], variableCandidates this) in
  {| variableCandidates := candidates;
     extractedVariables := extractedVariables this |}.

(** The first loop of [extractVariables]: the candidates that reach the
    threshold, grouped by [`${category}:${value}`]. *)
Definition valueKey (candidate : VariableCandidate) : string :=
  category_name (c_category candidate) ++ ":" ++ c_value candidate.

Definition group_candidate (valueGroups : JsMap (list VariableCandidate))
           (entry : string * VariableCandidate)
  : JsMap (list VariableCandidate) :=
  let candidate := snd entry in
  if Z.leb (minOccurrences options) (Z.of_nat (c_occurrences candidate))
  then map_push (valueKey candidate) candidate valueGroups
  else valueGroups.

Definition valueGroups_of (candidates : JsMap VariableCandidate)
  : JsMap (list VariableCandidate) :=
  fold_left group_candidate candidates [].

(** The [while] loop that makes a name unique among [names].  [fuel]
    bounds the iterations; [uniqueName_fresh] shows that the loop leaves
    by its own test within the bound that [uniqueName] gives. *)
Fixpoint unique_loop (fuel : nat) (names : list string)
         (suggestedName variableName : string) (counter : nat) : string :=
  if str_in variableName names then
    match fuel with
    | 0 => variableName
    | S fuel' =>
        unique_loop fuel' names suggestedName
          (suggestedName ++ "-" ++ of_nat counter) (S counter)
    end
  else variableName.

Definition uniqueName (names : list string) (suggestedName : string)
  : string :=
  unique_loop (List.length names) names suggestedName suggestedName 1.

Definition by_occurrences (a b : VariableCandidate) : Z :=
  (Z.of_nat (c_occurrences b) - Z.of_nat (c_occurrences a))%Z.

Definition totalOccurrences (candidates : list VariableCandidate) : nat :=
  fold_left (fun sum c => sum + c_occurrences c) candidates 0.

(** The body of the second loop of [extractVariables] for one group. *)
Definition extract_group (extracted : JsMap ExtractedVariable)
           (entry : string * list VariableCandidate)
  : JsMap ExtractedVariable :=
  let candidates := sort by_occurrences (snd entry) in
  match candidates with
  | [] => extracted
  | bestCandidate :: _ =>
      let variableName :=
        uniqueName (map v_name (map_values extracted))
                   (c_suggestedName bestCandidate) in
      let bestKey :=
        c_property bestCandidate ++ ":" ++ c_value bestCandidate in
      map_set bestKey
        {| v_name := variableName;
           v_value := c_value bestCandidate;
           v_category := c_category bestCandidate;
           v_occurrences := totalOccurrences candidates |}
        extracted
  end.

Definition extractVariables (this : Instance) : Instance :=
  {| variableCandidates := variableCandidates this;
     extractedVariables :=
       fold_left extract_group
                 (valueGroups_of (variableCandidates this))
                 (extractedVariables this) |}.
End Variables_.

Section Rewrite.
Variable options : Options.
Variable localeCompare : string -> string -> Z.

(** The [valueToVariable] map of [replaceValuesWithVariables]. *)
Definition valueToVariable_of (extracted : JsMap ExtractedVariable)
  : JsMap string :=
  fold_left (fun m variable => map_set (v_value variable) (v_name variable) m)
            (map_values extracted) [].

(** The body of the inner [forEach] for the declaration object at [r]. *)
Definition replace_declaration (valueToVariable : JsMap string)
           (h : Heap) (r : Ref) : Heap :=
  let decl := deref h r in
  match type decl, property decl with
  | declaration, Some prop =>
      if truthy prop && truthy (value decl) then
        if String.eqb prop "@keyframes-block" then h
        else
          match map_get (value decl) valueToVariable with
          | Some variableName =>
              if truthy variableName then
                let category := categorizeValue prop (value decl) in
                if shouldExtractCategory options category then
                  store h r
                    {| type := type decl; property := property decl;
                       value := variableName;
                       important := important decl;
                       originalValue := Some (value decl) |}
                else h
              else h
          | None => h
          end
      else h
  | _, _ => h
  end.

Definition replaceValuesWithVariables (this : Instance)
           (rules_ : list ParsedRule) (h : Heap) : Heap :=
  let valueToVariable := valueToVariable_of (extractedVariables this) in
  fold_left
    (fun h rule =>
       fold_left (replace_declaration valueToVariable)
                 (declarations rule) h)
    rules_ h.

(** [name.charAt(0).toUpperCase() + name.slice(1)] *)
Definition capitalize (s : string) : string :=
  match s with
  | EmptyString => EmptyString
  | String c s' => String (upper_char c) s'
  end.

(** The [categories] map of [formatVariables]. *)
Definition categories_of (extracted : JsMap ExtractedVariable)
  : JsMap (list ExtractedVariable) :=
  fold_left
    (fun m variable =>
       map_push (category_name (v_category variable)) variable m)
    (map_values extracted) [].

Definition by_name (a b : ExtractedVariable) : Z :=
  localeCompare (v_name a) (v_name b).

Definition variable_line (variable : ExtractedVariable) : string :=
  v_name variable ++ ": " ++ v_value variable ++ ";" ++ nl.

(** The declaration lines that [formatVariables] emits for one category
    name: none when the category has no variable. *)
Definition category_lines (categories : JsMap (list ExtractedVariable))
           (categoryName : string) : list string :=
  match map_get categoryName categories with
  | Some (v :: vs) => map variable_line (sort by_name (v :: vs))
  | _ => []
  end.

Definition sortedCategories : list string :=
  ["color"; "size"; "font"; "other"].

(** Every [name: value;] line of the variable header, in output order. *)
Definition variable_declarations (this : Instance) : list string :=
  flat_map (category_lines (categories_of (extractedVariables this)))
           sortedCategories.

Definition formatVariables (this : Instance) : string :=
  let categories := categories_of (extractedVariables this) in
  fold_left
    (fun result categoryName =>
       match category_lines categories categoryName with
       | [] => result
       | lines =>
           result ++ nl ++ "// " ++ capitalize categoryName
                  ++ " variables" ++ nl
                  ++ String.concat EmptyString lines
       end)
    sortedCategories ("// Variables" ++ nl).
End Rewrite.

(* ------------------------------------------------------------------ *)
(** ** Duplicate detector and media-query grouping *)

Definition declarationsEqual (h : Heap) (decls1 decls2 : list Ref) : bool :=
  if negb (Nat.eqb (List.length decls1) (List.length decls2)) then false
  else String.eqb (generateDeclarationHash h decls1)
                  (generateDeclarationHash h decls2).

(** [rule.mediaQuery || d] *)
Definition media_or (m : option string) (d : string) : string :=
  match m with
  | Some q => if truthy q then q else d
  | None => d
  end.

Definition with_media (mediaKey : string) (rule : ParsedRule) : ParsedRule :=
  {| selector := selector rule;
     declarations := declarations rule;
     specificity := specificity rule;
     bemInfo := bemInfo rule;
     mediaQuery := if String.eqb mediaKey "default" then None
                   else Some mediaKey;
     hash := hash rule |}.

Section Duplicates.
Variable h : Heap.

(** The first loop of [detectAndMergeDuplicates]: rules by media key,
    then by declaration hash. *)
Definition add_to_groups
           (mediaQueryGroups : JsMap (JsMap (list ParsedRule)))
           (rule : ParsedRule) : JsMap (JsMap (list ParsedRule)) :=
  let mediaKey := media_or (mediaQuery rule) "default" in
  let mediaGroup :=
    match map_get mediaKey mediaQueryGroups with
    | Some g => g
    | None => []
    end in
  let declHash := generateDeclarationHash h (declarations rule) in
  map_set mediaKey (map_push declHash rule mediaGroup) mediaQueryGroups.

Definition mediaQueryGroups_of (rules_ : list ParsedRule)
  : JsMap (JsMap (list ParsedRule)) :=
  fold_left add_to_groups rules_ [].

(** What the second loop pushes for one bucket. *)
Definition merge_bucket (mediaKey declHash : string)
           (duplicateRules : list ParsedRule) : list ParsedRule :=
  match duplicateRules with
  | firstRule :: _ :: _ =>
      if negb (String.eqb (selector firstRule) "/* COMMENT */") then
        let allIdentical :=
          forallb (fun rule =>
                     declarationsEqual h (declarations rule)
                                       (declarations firstRule))
                  duplicateRules in
        if allIdentical then
          [ {| selector := join ", " (map selector duplicateRules);
               declarations := declarations firstRule;
               specificity := specificity firstRule;
               bemInfo := bemInfo firstRule;
               mediaQuery := if String.eqb mediaKey "default" then None
                             else Some mediaKey;
               hash := Some ("merged-" ++ declHash) |} ]
        else map (with_media mediaKey) duplicateRules
      else map (with_media mediaKey) duplicateRules
  | _ => map (with_media mediaKey) duplicateRules
  end.

Definition merge_media_group (entry : string * JsMap (list ParsedRule))
  : list ParsedRule :=
  flat_map (fun bucket => merge_bucket (fst entry) (fst bucket) (snd bucket))
           (snd entry).

Definition detectAndMergeDuplicates (rules_ : list ParsedRule)
  : list ParsedRule :=
  flat_map merge_media_group (mediaQueryGroups_of rules_).
End Duplicates.

Definition groupByMediaQuery (rules_ : list ParsedRule)
  : list MediaQueryGroup :=
  map (fun entry => {| query := fst entry; rules := snd entry |})
      (fold_left (fun groups rule =>
                    map_push (media_or (mediaQuery rule) EmptyString)
                             rule groups)
                 rules_ []).

(* ------------------------------------------------------------------ *)
(** ** Nesting tree builder *)

Definition new_node (sel : string) (bem : option AdvancedBEMInfo)
  : NestedRule :=
  mkNestedRule sel [] [] bem.

(** [node.declarations.push(...decls)] *)
Definition push_declarations (decls : list Ref) (node : NestedRule)
  : NestedRule :=
  mkNestedRule (n_selector node) (n_declarations node ++ decls)%list
               (n_children node) (n_bemInfo node).

(** [node.children.set(k, c)] *)
Definition set_child (k : string) (c : NestedRule) (node : NestedRule)
  : NestedRule :=
  mkNestedRule (n_selector node) (n_declarations node)
               (map_set k c (n_children node)) (n_bemInfo node).

(** [if (!node.children.has(k)) node.children.set(k, fresh)] followed by
    the update [f] of [node.children.get(k)]. *)
Definition with_child (k : string) (fresh : NestedRule)
           (f : NestedRule -> NestedRule) (node : NestedRule) : NestedRule :=
  match map_get k (n_children node) with
  | Some c => set_child k (f c) node
  | None => set_child k (f fresh) node
  end.

(** [/(:+[^,\\s]+)/]: the class excludes the comma, the backslash and the
    letter s. *)
Definition pseudo_escaped_re : regex :=
  Group 1 (Seq (Plus (Lit ":"))
               (Plus (Chr (fun c => negb (is_char "," c || is_char "\" c
                                          || is_char "s" c))))).

(** [/(:+[^,\s]+)/] *)
Definition pseudo_re : regex :=
  Group 1 (Seq (Plus (Lit ":"))
               (Plus (Chr (fun c => negb (is_char "," c || is_space c))))).

(** The tail shared by the four BEM insertions: the declarations go to a
    [&:pseudo] child when [re] matches the selector, else to the node. *)
Definition attach (re : regex) (rule : ParsedRule) (node : NestedRule)
  : NestedRule :=
  match exec re (selector rule) with
  | Some (matched, _) =>
      let pseudoSelector := "&" ++ matched in
      with_child pseudoSelector (new_node pseudoSelector None)
                 (push_declarations (declarations rule)) node
  | None => push_declarations (declarations rule) node
  end.

Definition addBEMBlockRule (rule : ParsedRule) (blockNode : NestedRule)
  : NestedRule :=
  attach pseudo_escaped_re rule blockNode.

(** The descent along [rule.bemInfo.elements], creating the missing
    [&__element] nodes; [f] updates the node reached. *)
Fixpoint descend_elements (bem : AdvancedBEMInfo) (elements : list string)
         (index : nat) (f : NestedRule -> NestedRule) (node : NestedRule)
  : NestedRule :=
  match elements with
  | [] => f node
  | element_ :: rest =>
      let elementSelector := "&__" ++ element_ in
      with_child elementSelector
        (new_node elementSelector
           (Some {| bem_block := bem_block bem;
                    bem_elements := firstn (index + 1) (bem_elements bem);
                    bem_modifier := None;
                    bem_type := element;
                    bem_level := index + 1 |}))
        (descend_elements bem rest (S index) f) node
  end.

Definition addAdvancedBEMElement (rule : ParsedRule) (blockNode : NestedRule)
  : NestedRule :=
  match bemInfo rule with
  | Some bem =>
      match bem_elements bem with
      | [] => blockNode
      | elements =>
          descend_elements bem elements 0 (attach pseudo_re rule) blockNode
      end
  | None => blockNode
  end.

Definition modifier_node (bem : AdvancedBEMInfo) (m : string)
           (rule : ParsedRule) (node : NestedRule) : NestedRule :=
  let modifierSelector := "&--" ++ m in
  with_child modifierSelector (new_node modifierSelector (Some bem))
             (attach pseudo_escaped_re rule) node.

Definition addBEMModifier (rule : ParsedRule) (blockNode : NestedRule)
  : NestedRule :=
  match bemInfo rule with
  | Some bem =>
      match bem_modifier bem with
      | Some m => if truthy m then modifier_node bem m rule blockNode
                  else blockNode
      | None => blockNode
      end
  | None => blockNode
  end.

Definition addAdvancedBEMElementModifier (rule : ParsedRule)
           (blockNode : NestedRule) : NestedRule :=
  match bemInfo rule with
  | Some bem =>
      match bem_modifier bem with
      | Some m =>
          if truthy m then
            descend_elements bem (bem_elements bem) 0
                             (modifier_node bem m rule) blockNode
          else blockNode
      | None => blockNode
      end
  | None => blockNode
  end.

Definition buildAdvancedBEMBlock (root : NestedRule)
           (entry : string * list ParsedRule) : NestedRule :=
  let blockName := fst entry in
  let blockSelector := "." ++ blockName in
  with_child blockSelector
    (new_node blockSelector
       (Some {| bem_block := blockName; bem_elements := [];
                bem_modifier := None; bem_type := block; bem_level := 0 |}))
    (fun blockNode =>
       fold_left
         (fun node rule =>
            match bemInfo rule with
            | None => node
            | Some bem =>
                match bem_type bem with
                | block => addBEMBlockRule rule node
                | element => addAdvancedBEMElement rule node
                | modifier => addBEMModifier rule node
                | element_modifier => addAdvancedBEMElementModifier rule node
                end
            end)
         (snd entry) blockNode)
    root.

(** [insertComplexNestedRule] *)
Fixpoint insertComplexNestedRule (selectorParts : list string)
         (decls : list Ref) (parent : NestedRule) : NestedRule :=
  match selectorParts with
  | [] => push_declarations decls parent
  | part :: rest =>
      with_child part (new_node part None)
                 (insertComplexNestedRule rest decls) parent
  end.

(** [s.replace(regex, by)] without the [g] flag. *)
Definition replace_first (r : regex) (by_ : string) (s : string) : string :=
  match search r 0 s with
  | Some (b, e, _) => take b s ++ by_ ++ drop e s
  | None => s
  end.

(** [/\s+/] *)
Definition spaces_re : regex := Plus (Chr is_space).

(** [/[.#]/] *)
Definition dot_hash_re : regex :=
  Chr (fun c => is_char "." c || is_char "#" c).

Definition parseComplexSelector (selector_ basePattern : string)
  : list string :=
  let parts := filter truthy (split spaces_re selector_) in
  let baseIndex :=
    findIndex (fun part =>
                 includes part (replace_first dot_hash_re EmptyString
                                              basePattern)) parts in
  match baseIndex with
  | Some i => skipn (i + 1) parts
  | None => parts
  end.

Definition insertSmartNestedRule (basePattern : string)
           (baseNode : NestedRule) (rule : ParsedRule) : NestedRule :=
  let selector_ := selector rule in
  if includes selector_ "," then
    push_declarations (declarations rule) baseNode
  else if String.eqb selector_ basePattern then
    push_declarations (declarations rule) baseNode
  else if startsWith selector_ basePattern then
    let nestedPart := drop (String.length basePattern) selector_ in
    let nestedSelector := "&" ++ nestedPart in
    with_child nestedSelector (new_node nestedSelector None)
               (push_declarations (declarations rule)) baseNode
  else
    insertComplexNestedRule (parseComplexSelector selector_ basePattern)
                            (declarations rule) baseNode.

Definition extractBasePattern (selector_ : string) : string :=
  if includes selector_ "," then selector_
  else
    let parts := split combinator_re selector_ in
    let firstPart := trim (hd EmptyString parts) in
    replace_g pseudo_g_re EmptyString firstPart.

Definition groupRulesByPattern (rules_ : list ParsedRule)
  : JsMap (list ParsedRule) :=
  fold_left
    (fun groups rule =>
       if String.eqb (selector rule) "/* COMMENT */" then
         map_push "COMMENTS" rule groups
       else if startsWith (selector rule) "@" then
         map_push (selector rule) rule groups
       else map_push (extractBasePattern (selector rule)) rule groups)
    rules_ [].

Definition buildSmartNestedGroup (root : NestedRule)
           (entry : string * list ParsedRule) : NestedRule :=
  let basePattern := fst entry in
  let rules_ := snd entry in
  if String.eqb basePattern "COMMENTS" then
    fold_left (fun node rule => push_declarations (declarations rule) node)
              rules_ root
  else if startsWith basePattern "@" then
    fold_left
      (fun node rule =>
         set_child (selector rule)
                   (mkNestedRule (selector rule) (declarations rule) [] None)
                   node)
      rules_ root
  else
    with_child basePattern (new_node basePattern None)
      (fun baseNode =>
         fold_left (insertSmartNestedRule basePattern) rules_ baseNode)
      root.

Definition buildSmartNestedStructure (rules_ : list ParsedRule)
           (root : NestedRule) : NestedRule :=
  fold_left buildSmartNestedGroup (groupRulesByPattern rules_) root.

Definition buildBasicNestedStructure (rules_ : list ParsedRule)
           (root : NestedRule) : NestedRule :=
  fold_left
    (fun node rule =>
       if String.eqb (selector rule) "/* COMMENT */" then
         push_declarations (declarations rule) node
       else
         insertComplexNestedRule
           (filter truthy (split spaces_re (selector rule)))
           (declarations rule) node)
    rules_ root.

(** The three lists the first loop of [buildAdvancedBEMStructure] fills,
    with the root that receives the comments. *)
Record Partition : Type := {
  p_root : NestedRule;
  bemBlocks : JsMap (list ParsedRule);
  nonBemRules : list ParsedRule;
  atRules : list ParsedRule
}.

Definition partition_rule (p : Partition) (rule : ParsedRule) : Partition :=
  if String.eqb (selector rule) "/* COMMENT */" then
    {| p_root := push_declarations (declarations rule) (p_root p);
       bemBlocks := bemBlocks p; nonBemRules := nonBemRules p;
       atRules := atRules p |}
  else if startsWith (selector rule) "@" then
    {| p_root := p_root p; bemBlocks := bemBlocks p;
       nonBemRules := nonBemRules p;
       atRules := (atRules p ++ [rule])%list |}
  else
    match bemInfo rule with
    | Some bem =>
        {| p_root := p_root p;
           bemBlocks := map_push (bem_block bem) rule (bemBlocks p);
           nonBemRules := nonBemRules p; atRules := atRules p |}
    | None =>
        {| p_root := p_root p; bemBlocks := bemBlocks p;
           nonBemRules := (nonBemRules p ++ [rule])%list;
           atRules := atRules p |}
    end.

Definition buildAdvancedBEMStructure (rules_ : list ParsedRule)
           (root : NestedRule) : NestedRule :=
  let p := fold_left partition_rule rules_
             {| p_root := root; bemBlocks := []; nonBemRules := [];
                atRules := [] |} in
  let root1 :=
    fold_left
      (fun node rule =>
         set_child (selector rule)
                   (mkNestedRule (selector rule) (declarations rule) [] None)
                   node)
      (atRules p) (p_root p) in
  let root2 := fold_left buildAdvancedBEMBlock (bemBlocks p) root1 in
  match nonBemRules p with
  | [] => root2
  | nonBem => buildSmartNestedStructure nonBem root2
  end.

Section Build.
Variable options : Options.

Definition buildAdvancedNestedStructure (rules_ : list ParsedRule)
  : NestedRule :=
  let root := mkNestedRule EmptyString [] [] None in
  if enableBEM options then buildAdvancedBEMStructure rules_ root
  else if enableSmartNesting options then
    buildSmartNestedStructure rules_ root
  else buildBasicNestedStructure rules_ root.
End Build.

(* ------------------------------------------------------------------ *)
(** ** SCSS formatter *)

(** What a JavaScript computation throws. *)
Inductive Thrown : Type :=
| JsError (message : string)
| NotAnError.

(** What [csstree.parse] does with a text: it returns a tree or throws. *)
Inductive ParseResult : Type :=
| Parsed (ast : CssNode)
| ParseFailed (e : Thrown).

(** The outcome of a computation that may throw.  [OutOfFuel] is the
    outcome of a recursion that was given too little fuel; the totality
    lemmas show it does not occur with the fuel [convert] gives. *)
Inductive Outcome (A : Type) : Type :=
| Ok (a : A)
| Throw (e : Thrown)
| OutOfFuel.

Arguments Ok {A} a.
Arguments Throw {A} e.
Arguments OutOfFuel {A}.

Definition bind (A B : Type) (m : Outcome A) (f : A -> Outcome B)
  : Outcome B :=
  match m with
  | Ok a => f a
  | Throw e => Throw e
  | OutOfFuel => OutOfFuel
  end.

Notation "x <- m ;; k" := (bind m (fun x => k))
  (at level 61, m at next level, right associativity).

(** A loop whose body updates a state and may throw. *)
Fixpoint for_each (S A : Type) (body : S -> A -> Outcome S)
         (l : list A) (st : S) : Outcome S :=
  match l with
  | [] => Ok st
  | x :: l' => st1 <- body st x ;; for_each body l' st1
  end.

Definition tab : string := String (chr 9) EmptyString.

(** [/^\{|\}$/g] *)
Definition outer_braces_re : regex :=
  Alt (Seq Bol (Lit "{")) (Seq (Lit "}") Eol).

(** [/(\d+%|from|to)\s*\{[^}]*\}/g] *)
Definition keyframe_rules_re : regex :=
  Seq (Group 1 (Alt (Seq (Plus (Chr is_digit)) (Lit "%"))
                    (Alt (Lit "from") (Lit "to"))))
      (Seq (Star (Chr is_space))
           (Seq (Lit "{") (Seq (Star (Chr (Not (is_char "}")))) (Lit "}")))).

(** [/^([\d%]+|from|to)\s*\{(.+)\}$/s] *)
Definition keyframe_rule_re : regex :=
  Seq Bol
    (Seq (Group 1 (Alt (Plus (Chr (fun c => is_digit c || is_char "%" c)))
                       (Alt (Lit "from") (Lit "to"))))
    (Seq (Star (Chr is_space))
    (Seq (Lit "{")
    (Seq (Group 2 (Plus (Chr (fun _ => true))))
    (Seq (Lit "}") Eol))))).

Fixpoint tree_height (n : NestedRule) : nat :=
  match n with
  | mkNestedRule _ _ children _ =>
      S ((fix heights (l : list (string * NestedRule)) : nat :=
            match l with
            | [] => 0
            | (_, c) :: l' => Nat.max (tree_height c) (heights l')
            end) children)
  end.

Section Format.
Variable options : Options.
Variable localeCompare : string -> string -> Z.
Variable h : Heap.

(** [' '.repeat(n)] throws a [RangeError] for a negative count. *)
Definition getIndent (depth : nat) : Outcome string :=
  match indentType options with
  | tabs => Ok (repeat_str tab depth)
  | spaces =>
      if Z.ltb (indentSize options) 0 then
        Throw (JsError ("Invalid count value: "
                        ++ of_Z (indentSize options)))
      else
        Ok (repeat_str (repeat_str " " (Z.to_nat (indentSize options)))
                       depth)
  end.

Definition formatKeyframeRule (rule : string) (depth : nat)
  : Outcome string :=
  indent <- getIndent depth ;;
  match exec keyframe_rule_re rule with
  | None => Ok EmptyString
  | Some (_, caps) =>
      let keyframe :=
        match cap_get 1 caps with Some t => t | None => "undefined" end in
      let declarations_ :=
        match cap_get 2 caps with Some t => t | None => EmptyString end in
      let declPairs :=
        filter (fun d => truthy (trim d)) (split_on ";" declarations_) in
      st <- for_each
              (fun (st : string * list string) decl =>
                 let (result, seenProps) := st in
                 let parts := map trim (split_on ":" decl) in
                 match parts with
                 | prop :: value_ :: _ =>
                     if truthy prop && truthy value_
                        && negb (str_in prop seenProps) then
                       inner <- getIndent (depth + 1) ;;
                       Ok (result ++ inner ++ prop ++ ": " ++ value_
                                  ++ ";" ++ nl,
                           prop :: seenProps)
                     else Ok st
                 | _ => Ok st
                 end)
              declPairs
              (indent ++ keyframe ++ " {" ++ nl, []) ;;
      Ok (fst st ++ indent ++ "}" ++ nl ++ nl)
  end.

(** The comparator that sorts the children of a node. *)
Definition child_cmp (x y : string * NestedRule) : Z :=
  let a := fst x in
  let b := fst y in
  if startsWith a "&__" && startsWith b "&--" then (-1)%Z
  else if startsWith a "&--" && startsWith b "&__" then 1%Z
  else localeCompare a b.

(** The comparator that sorts the declarations of a rule. *)
Definition declaration_cmp (x y : Ref) : Z :=
  let a := deref h x in
  let b := deref h y in
  if negb (is_declaration a) || negb (is_declaration b) then 0%Z
  else
    match property a, property b with
    | Some pa, Some pb =>
        if truthy pa && truthy pb then localeCompare pa pb else 0%Z
    | _, _ => 0%Z
    end.

(** One line of a block for the declaration object at [r]; at-rule
    blocks leave the keyframes property out. *)
Definition declaration_line (in_atrule : bool) (depth : nat)
           (result : string) (r : Ref) : Outcome string :=
  let decl := deref h r in
  if negb (is_declaration decl) then
    inner <- getIndent (depth + 1) ;;
    Ok (result ++ inner ++ "/* " ++ value decl ++ " */" ++ nl)
  else
    match property decl with
    | Some prop =>
        if truthy prop
           && negb (in_atrule && String.eqb prop "@keyframes-block") then
          let important_ :=
            if flag (important decl) then " !important" else EmptyString in
          inner <- getIndent (depth + 1) ;;
          Ok (result ++ inner ++ prop ++ ": " ++ value decl
                     ++ important_ ++ ";" ++ nl)
        else Ok result
    | None => Ok result
    end.

Definition keyframes_block (depth : nat) (result : string) (r : Ref)
  : Outcome string :=
  let decl := deref h r in
  if opt_eqb (property decl) "@keyframes-block" then
    let keyframeContent :=
      trim (replace_g outer_braces_re EmptyString (value decl)) in
    match match_g keyframe_rules_re keyframeContent with
    | Some keyframeRules =>
        for_each (fun result rule =>
                    formatted <- formatKeyframeRule rule (depth + 1) ;;
                    Ok (result ++ formatted))
                 keyframeRules result
    | None => Ok result
    end
  else Ok result.

Definition is_nil (A : Type) (l : list A) : bool :=
  match l with [] => true | _ => false end.

Fixpoint formatSCSS (fuel : nat) (structure : NestedRule) (depth : nat)
  : Outcome string :=
  match fuel with
  | 0 => OutOfFuel
  | S fuel' =>
      indent <- getIndent depth ;;
      let result0 :=
        if Nat.eqb depth 0 && negb (is_nil (n_declarations structure)) then
          fold_left
            (fun result r =>
               let decl := deref h r in
               if negb (is_declaration decl) then
                 result ++ "/* " ++ value decl ++ " */" ++ nl
               else result)
            (n_declarations structure) EmptyString ++ nl
        else EmptyString in
      let children :=
        if sortProperties options then sort child_cmp (n_children structure)
        else n_children structure in
      for_each
        (fun result entry =>
           let selector_ := fst entry in
           let child := snd entry in
           if negb (is_nil (n_declarations child))
              || negb (is_nil (n_children child)) then
             if startsWith selector_ "@keyframes"
                || startsWith selector_ "@-webkit-keyframes" then
               r1 <- for_each (keyframes_block depth)
                              (n_declarations child)
                              (result ++ indent ++ selector_ ++ " {" ++ nl) ;;
               Ok (r1 ++ indent ++ "}" ++ nl ++ nl)
             else if startsWith selector_ "@" then
               r1 <- for_each (declaration_line true depth)
                              (n_declarations child)
                              (result ++ indent ++ selector_ ++ " {" ++ nl) ;;
               Ok (r1 ++ indent ++ "}" ++ nl ++ nl)
             else
               let decls :=
                 if sortProperties options then
                   sort declaration_cmp (n_declarations child)
                 else n_declarations child in
               r1 <- for_each (declaration_line false depth) decls
                              (result ++ indent ++ selector_ ++ " {" ++ nl) ;;
               r2 <- (if negb (is_nil (n_children child)) then
                        nested <- formatSCSS fuel' child (depth + 1) ;;
                        Ok (r1 ++ (if negb (is_nil decls) then nl
                                   else EmptyString) ++ nested)
                      else Ok r1) ;;
               Ok (r2 ++ indent ++ "}" ++ nl
                      ++ (if Nat.eqb depth 0 then nl else EmptyString))
           else Ok result)
        children result0
  end.

Definition indentContent (content : string) (level : nat)
  : Outcome string :=
  indent <- getIndent level ;;
  Ok (join nl
        (map (fun line => if truthy (trim line) then indent ++ line
                          else line)
             (split_on (chr 10) content))).
End Format.

(* ------------------------------------------------------------------ *)
(** ** The conversion *)

(** The [catch] clause of [convert]. *)
Definition rethrow (A : Type) (r : Outcome A) : Outcome A :=
  match r with
  | Throw e =>
      let errorMessage :=
        match e with
        | JsError message => message
        | NotAnError => "Unknown error"
        end in
      Throw (JsError ("Failed to convert CSS: " ++ errorMessage))
  | _ => r
  end.

Section Convert.
(** [csstree.parse] *)
Variable parse : string -> ParseResult.
Variable localeCompare : string -> string -> Z.
Variable now : Z.
Variable options : Options.

(** The body of the [try] block after parsing.  The instance fields
    keep what the call wrote to them, also when the call throws. *)
Definition convert_ast (this : Instance) (ast : CssNode)
  : Outcome string * Instance :=
  let (rules_, h0) := extractRules options now ast in
  let (this1, h1) :=
    if enableVariableExtraction options then
      let t1 := analyzeVariableCandidates options h0 rules_ this in
      let t2 := extractVariables options t1 in
      (t2, replaceValuesWithVariables options t2 rules_ h0)
    else (this, h0) in
  let deduplicatedRules :=
    if enableDuplicateDetection options
    then detectAndMergeDuplicates h1 rules_ else rules_ in
  let mediaGroups :=
    if enableMediaQueryGrouping options
    then groupByMediaQuery deduplicatedRules
    else [ {| query := EmptyString; rules := deduplicatedRules |} ] in
  let result0 :=
    if enableVariableExtraction options
       && negb (is_nil (extractedVariables this1))
    then formatVariables localeCompare this1 ++ nl
    else EmptyString in
  (result <- for_each
               (fun result group =>
                  let nestedStructure :=
                    buildAdvancedNestedStructure options (rules group) in
                  formattedCSS <-
                    formatSCSS options localeCompare h1
                               (tree_height nestedStructure)
                               nestedStructure 0 ;;
                  if truthy (query group) then
                    indented <- indentContent options formattedCSS 1 ;;
                    Ok (result ++ "@media " ++ query group ++ " {" ++ nl
                               ++ indented ++ "}" ++ nl ++ nl)
                  else Ok (result ++ formattedCSS))
               mediaGroups result0 ;;
   Ok (trim result ++ nl),
   this1).

Definition convert (this : Instance) (cssContent : string)
  : Outcome string * Instance :=
  match parse cssContent with
  | Parsed ast =>
      let (r, this1) := convert_ast this ast in (rethrow r, this1)
  | ParseFailed e => (rethrow (Throw e), this)
  end.
End Convert.

(* ------------------------------------------------------------------ *)
(** ** Properties *)

(** [{ ...options, maxNestingDepth: d }] *)
Definition with_maxNestingDepth (d : option Z)
           (o : VariableEnhancedConversionOptions)
  : VariableEnhancedConversionOptions :=
  {| opt_indentSize := opt_indentSize o;
     opt_indentType := opt_indentType o;
     opt_preserveComments := opt_preserveComments o;
     opt_sortProperties := opt_sortProperties o;
     opt_enableBEM := opt_enableBEM o;
     opt_enableSmartNesting := opt_enableSmartNesting o;
     opt_maxNestingDepth := d;
     opt_enableDuplicateDetection := opt_enableDuplicateDetection o;
     opt_enableAdvancedBEM := opt_enableAdvancedBEM o;
     opt_enableMediaQueryGrouping := opt_enableMediaQueryGrouping o;
     opt_enableVariableExtraction := opt_enableVariableExtraction o;
     opt_variablePrefix := opt_variablePrefix o;
     opt_minOccurrences := opt_minOccurrences o;
     opt_extractColors := opt_extractColors o;
     opt_extractSizes := opt_extractSizes o;
     opt_extractFonts := opt_extractFonts o;
     opt_extractOthers := opt_extractOthers o |}.

(** C7.  For every parser, stylesheet text, converter state and
    configuration, two converters built from configurations that differ
    only in [maxNestingDepth] return the same outcome (the same text or
    the same error) and leave the same state: the option is read by the
    constructor and by nothing else. *)
Theorem maxNestingDepth_is_advisory :
  forall (parse : string -> ParseResult)
         (localeCompare : string -> string -> Z) (now : Z)
         (o : VariableEnhancedConversionOptions) (d1 d2 : option Z)
         (this : Instance) (cssContent : string),
    convert parse localeCompare now
            (constructor (with_maxNestingDepth d1 o)) this cssContent =
    convert parse localeCompare now
            (constructor (with_maxNestingDepth d2 o)) this cssContent.
Proof.
  intros. reflexivity.
Qed.

(** *** Sample stylesheets

    Each tree is the one the parser returns for the text in its comment. *)

Definition decl (p v : string) : CssNode := DeclarationNode ImpFalse p v.

Definition lines (l : list string) : string := join nl l ++ nl.

Definition default_options : Options := constructor no_options.

(** A parser that knows one text. *)
Definition parser_for (text : string) (ast : CssNode) (cssContent : string)
  : ParseResult :=
  if String.eqb cssContent text then Parsed ast
  else ParseFailed (JsError "Parse error").

(** [.a{color:#fff;margin:0}.b{color:#fff}] *)
Definition two_whites_css : string :=
  ".a{color:#fff;margin:0}.b{color:#fff}".

Definition two_whites : CssNode :=
  StyleSheet [Rule ".a" (Some [decl "color" "#fff"; decl "margin" "0"]);
              Rule ".b" (Some [decl "color" "#fff"])].

(** [.c{color:#fff}] *)
Definition one_white_css : string := ".c{color:#fff}".

Definition one_white : CssNode :=
  StyleSheet [Rule ".c" (Some [decl "color" "#fff"])].

Definition whites_parser (cssContent : string) : ParseResult :=
  if String.eqb cssContent two_whites_css then Parsed two_whites
  else parser_for one_white_css one_white cssContent.

(** [@media (max-width:768px){.a{color:red}}.b{color:blue}] *)
Definition media_then_rule : CssNode :=
  StyleSheet
    [Atrule "media" (Some "(max-width:768px)")
            (Some ("{.a{color:red}}",
                   [Rule ".a" (Some [decl "color" "red"])]));
     Rule ".b" (Some [decl "color" "blue"])].

(** [.a:not(.b,.c){color:red}] *)
Definition comma_in_parentheses : CssNode :=
  StyleSheet [Rule ".a:not(.b,.c)" (Some [decl "color" "red"])].

(** C2 (the code at the failing input).  One converter with the default
    options converts [.a{color:#fff;margin:0}.b{color:#fff}] twice: the
    second output names the variable [$color-fff-1] where the first names
    it [$color-fff].  It then converts [.c{color:#fff}], whose single
    occurrence is below the threshold, and the output still declares and
    uses the variable learned from the earlier document; a new converter
    leaves that text as it is. *)
Theorem convert_depends_on_earlier_calls :
  let convert_ := convert whites_parser default_cmp 0 default_options in
  let first := convert_ new_instance two_whites_css in
  let second := convert_ (snd first) two_whites_css in
  let third := convert_ (snd second) one_white_css in
  fst first =
    Ok (lines ["// Variables"; EmptyString; "// Color variables";
               "$color-fff: #fff;"; EmptyString;
               ".a {"; "  color: $color-fff;"; "  margin: 0;"; "}";
               EmptyString;
               ".b {"; "  color: $color-fff;"; "}"]) /\
  fst second =
    Ok (lines ["// Variables"; EmptyString; "// Color variables";
               "$color-fff-1: #fff;"; EmptyString;
               ".a {"; "  color: $color-fff-1;"; "  margin: 0;"; "}";
               EmptyString;
               ".b {"; "  color: $color-fff-1;"; "}"]) /\
  fst third =
    Ok (lines ["// Variables"; EmptyString; "// Color variables";
               "$color-fff-1: #fff;"; EmptyString;
               ".c {"; "  color: $color-fff-1;"; "}"]) /\
  fst (convert_ new_instance one_white_css) =
    Ok (lines [".c {"; "  color: #fff;"; "}"]).
Proof.
  vm_compute. repeat split; reflexivity.
Qed.

(** C4 (the code at the failing input).  For
    [@media (max-width:768px){.a{color:red}}.b{color:blue}] the rule [.b],
    which follows the end of the media block at top level, is extracted
    with the media query of that block, and the output puts it inside the
    [@media] block. *)
Theorem media_query_outlives_its_block :
  map (fun r => (selector r, mediaQuery r))
      (fst (extractRules default_options 0 media_then_rule)) =
    [(".a", Some "(max-width:768px)"); (".b", Some "(max-width:768px)")] /\
  fst (convert_ast default_cmp 0 default_options new_instance
                   media_then_rule) =
    Ok (lines ["@media (max-width:768px) {";
               "  .a {"; "    color: red;"; "  }"; EmptyString;
               "  .b {"; "    color: blue;"; "  }"; EmptyString;
               "}"]).
Proof.
  vm_compute. split; reflexivity.
Qed.


(** What a rule holds, read through the store: selector and, for each
    declaration, the property, value and original value. *)
Definition rule_view (h : Heap) (r : ParsedRule)
  : string * list (string * string * option string) :=
  (selector r,
   map (fun x => (property_text (deref h x), value (deref h x),
                  originalValue (deref h x)))
       (declarations r)).

(** [.a{}/* c */.b{}] *)
Definition empty_rules_and_comment : CssNode :=
  StyleSheet [Rule ".a" (Some []); Comment " c "; Rule ".b" (Some [])].

(** [.a{}.b{}] *)
Definition empty_rules : CssNode :=
  StyleSheet [Rule ".a" (Some []); Rule ".b" (Some [])].

(** [.b{color:red}@media default{.a{color:red}}] *)
Definition default_media : CssNode :=
  StyleSheet
    [Rule ".b" (Some [decl "color" "red"]);
     Atrule "media" (Some "default")
            (Some ("{.a{color:red}}",
                   [Rule ".a" (Some [decl "color" "red"])]))].

Definition merged_view (ast : CssNode) : list (string * option string) :=
  let (rules_, h) := extractRules default_options 0 ast in
  map (fun r => (selector r, mediaQuery r))
      (detectAndMergeDuplicates h rules_).


(** [.a{color:red;color:blue!ie;color:green!ie}] *)
Definition hack_flags : CssNode :=
  StyleSheet
    [Rule ".a" (Some [decl "color" "red";
                      DeclarationNode (ImpIdent "ie") "color" "blue";
                      DeclarationNode (ImpIdent "ie") "color" "green"])].

(** C8 (the code at the failing input).  In
    [.a{color:red;color:blue!ie;color:green!ie}] the property [color]
    comes once without a flag and twice with the flag [!ie].  The
    extracted list keeps [blue] and [green]: the earlier of the two
    flagged declarations stays and the unflagged one is removed. *)
Theorem repeated_hack_flag_keeps_the_earlier :
  (let (rules_, h) := extractRules default_options 0 hack_flags in
   map (rule_view h) rules_) =
    [(".a", [("color", "blue", None); ("color", "green", None)])] /\
  fst (convert_ast default_cmp 0 default_options new_instance hack_flags) =
    Ok (lines [".a {"; "  color: blue;"; "  color: green;"; "}"]).
Proof.
  vm_compute. split; reflexivity.
Qed.

(** The options [{ variablePrefix: 'v-' }]. *)
Definition prefix_v_options : Options :=
  constructor
    {| opt_indentSize := None; opt_indentType := None;
       opt_preserveComments := None; opt_sortProperties := None;
       opt_enableBEM := None; opt_enableSmartNesting := None;
       opt_maxNestingDepth := None; opt_enableDuplicateDetection := None;
       opt_enableAdvancedBEM := None; opt_enableMediaQueryGrouping := None;
       opt_enableVariableExtraction := None; opt_variablePrefix := Some "v-";
       opt_minOccurrences := None; opt_extractColors := None;
       opt_extractSizes := None; opt_extractFonts := None;
       opt_extractOthers := None |}.

(** [.a,.b{color:#fff}.x{animation-name:v-color-fff}.y{animation-name:v-color-fff}] *)
Definition chained_names : CssNode :=
  StyleSheet
    [Rule ".a,.b" (Some [decl "color" "#fff"]);
     Rule ".x" (Some [decl "animation-name" "v-color-fff"]);
     Rule ".y" (Some [decl "animation-name" "v-color-fff"])].

(** C10 (the code at the failing input).  With the prefix [v-] the value
    [#fff] gets the variable [v-color-fff], and the value [v-color-fff]
    of the two [animation-name] declarations gets the variable
    [v-animation-name-v-color-fff].  The declaration [color:#fff] is one
    object shared by the rules [.a] and [.b]; the rewriting visits it once
    for each rule, so it ends with the name of the second variable as its
    value and with [v-color-fff], not the literal [#fff], as its original
    value. *)
Theorem shared_declaration_rewritten_twice :
  let (rules_, h) := extractRules prefix_v_options 0 chained_names in
  let this :=
    extractVariables prefix_v_options
      (analyzeVariableCandidates prefix_v_options h rules_ new_instance) in
  map (fun v => (v_name v, v_value v))
      (map_values (extractedVariables this)) =
    [("v-color-fff", "#fff");
     ("v-animation-name-v-color-fff", "v-color-fff")] /\
  map (rule_view h) (firstn 2 rules_) =
    [(".a", [("color", "#fff", None)]);
     (".b", [("color", "#fff", None)])] /\
  map (rule_view (replaceValuesWithVariables prefix_v_options this rules_ h))
      (firstn 2 rules_) =
    [(".a", [("color", "v-animation-name-v-color-fff", Some "v-color-fff")]);
     (".b", [("color", "v-animation-name-v-color-fff", Some "v-color-fff")])].
Proof.
  vm_compute. repeat split; reflexivity.
Qed.

(** *** Splitting a selector list *)

Fixpoint count_char (c : ascii) (s : string) : nat :=
  match s with
  | EmptyString => 0
  | String x s' => (if Ascii.eqb x c then 1 else 0) + count_char c s'
  end.

Lemma split_on_not_nil : forall sep s, split_on sep s <> [].
Proof.
  intros sep s. destruct s as [|c s]; simpl.
  - discriminate.
  - destruct (Ascii.eqb c sep); [discriminate|].
    destruct (split_on sep s); discriminate.
Qed.

Lemma split_on_join :
  forall sep s, join (String sep EmptyString) (split_on sep s) = s.
Proof.
  intros sep s. unfold join. induction s as [|c s IH]; simpl.
  - reflexivity.
  - destruct (Ascii.eqb c sep) eqn:E.
    + apply Ascii.eqb_eq in E. subst c.
      destruct (split_on sep s) as [|p rest] eqn:Es.
      * exfalso. exact (split_on_not_nil sep s Es).
      * simpl in *. now rewrite IH.
    + destruct (split_on sep s) as [|p rest] eqn:Es.
      * exfalso. exact (split_on_not_nil sep s Es).
      * destruct rest as [|q rest]; simpl in *; now rewrite <- IH.
Qed.

Lemma split_on_length :
  forall sep s, List.length (split_on sep s) = S (count_char sep s).
Proof.
  intros sep s. induction s as [|c s IH]; simpl.
  - reflexivity.
  - destruct (Ascii.eqb c sep); simpl.
    + now rewrite IH.
    + destruct (split_on sep s) as [|p rest] eqn:Es.
      * exfalso. exact (split_on_not_nil sep s Es).
      * exact IH.
Qed.

Lemma split_on_pieces :
  forall sep s piece,
    In piece (split_on sep s) -> count_char sep piece = 0.
Proof.
  intros sep s. induction s as [|c s IH]; simpl; intros piece H.
  - destruct H as [<-|[]]. reflexivity.
  - destruct (Ascii.eqb c sep) eqn:E.
    + destruct H as [<-|H]; [reflexivity|now apply IH].
    + destruct (split_on sep s) as [|p rest] eqn:Es.
      * exfalso. exact (split_on_not_nil sep s Es).
      * destruct H as [<-|H].
        -- simpl. rewrite E. simpl. apply IH. now left.
        -- apply IH. now right.
Qed.


(** *** Outcome of a conversion *)

(** The configurations on which [getIndent] returns. *)
Definition indent_ok (options : Options) : bool :=
  match indentType options with
  | tabs => true
  | spaces => negb (Z.ltb (indentSize options) 0)
  end.

Lemma for_each_ok :
  forall (S A : Type) (body : S -> A -> Outcome S) (l : list A) (st : S),
    (forall st x, In x l -> exists st', body st x = Ok st') ->
    exists st', for_each body l st = Ok st'.
Proof.
  intros S A body l. induction l as [|x l IH]; intros st H; simpl.
  - now exists st.
  - destruct (H st x (or_introl eq_refl)) as [st1 E1]. rewrite E1. simpl.
    apply IH. intros st2 y Hy. apply H. now right.
Qed.

Lemma for_each_throw :
  forall (S A : Type) (body : S -> A -> Outcome S) (x : A) (l : list A)
         (st : S) (e : Thrown),
    body st x = Throw e -> for_each body (x :: l) st = Throw e.
Proof.
  intros. simpl. now rewrite H.
Qed.

Lemma insert_In :
  forall (A : Type) (cmp : A -> A -> Z) (x y : A) (l : list A),
    In y (insert cmp x l) <-> y = x \/ In y l.
Proof.
  intros A cmp x y l. induction l as [|z l IH]; simpl.
  - intuition.
  - destruct (Z.leb (cmp x z) 0); simpl.
    + intuition.
    + rewrite IH. intuition.
Qed.

Lemma sort_In :
  forall (A : Type) (cmp : A -> A -> Z) (y : A) (l : list A),
    In y (sort cmp l) <-> In y l.
Proof.
  intros A cmp y l. induction l as [|x l IH]; simpl.
  - tauto.
  - rewrite insert_In, IH. intuition.
Qed.

Lemma child_height :
  forall (k : string) (c n : NestedRule),
    In (k, c) (n_children n) -> tree_height c < tree_height n.
Proof.
  intros k c [sel ds children bem]. simpl.
  induction children as [|[k' c'] l IH]; simpl; intros H.
  - contradiction.
  - destruct H as [H|H].
    + inversion H; subst. lia.
    + specialize (IH H). lia.
Qed.

Section FormatTotal.
Variable options : Options.
Variable localeCompare : string -> string -> Z.
Variable h : Heap.
Hypothesis Hindent : indent_ok options = true.

Lemma getIndent_ok : forall depth, exists t, getIndent options depth = Ok t.
Proof.
  intros depth. unfold getIndent. unfold indent_ok in Hindent.
  destruct (indentType options).
  - destruct (Z.ltb (indentSize options) 0); [discriminate|eauto].
  - eauto.
Qed.

Lemma formatKeyframeRule_ok :
  forall rule depth, exists t, formatKeyframeRule options rule depth = Ok t.
Proof.
  intros rule depth. unfold formatKeyframeRule.
  destruct (getIndent_ok depth) as [indent ->]. simpl.
  destruct (exec keyframe_rule_re rule) as [[m caps]|]; [|eauto].
  match goal with
  | |- context [for_each ?b ?l ?s] =>
      destruct (@for_each_ok _ _ b l s) as [st' ->]
  end.
  - intros [result seen] d _.
    destruct (map trim (split_on ":" d)) as [|prop [|value_ rest]]; eauto.
    destruct (truthy prop && truthy value_ && negb (str_in prop seen));
      [|eauto].
    destruct (getIndent_ok (depth + 1)) as [inner ->]. simpl. eauto.
  - simpl. eauto.
Qed.

Lemma keyframes_block_ok :
  forall depth result r,
    exists t, keyframes_block options h depth result r = Ok t.
Proof.
  intros depth result r. unfold keyframes_block.
  destruct (opt_eqb (property (deref h r)) "@keyframes-block"); [|eauto].
  destruct (match_g keyframe_rules_re _) as [keyframeRules|]; [|eauto].
  apply for_each_ok. intros st rule _.
  destruct (formatKeyframeRule_ok rule (depth + 1)) as [t ->]. simpl. eauto.
Qed.

Lemma declaration_line_ok :
  forall in_atrule depth result r,
    exists t, declaration_line options h in_atrule depth result r = Ok t.
Proof.
  intros in_atrule depth result r. unfold declaration_line.
  destruct (getIndent_ok (depth + 1)) as [inner E].
  destruct (negb (is_declaration (deref h r))).
  - rewrite E. simpl. eauto.
  - destruct (property (deref h r)) as [prop|]; [|eauto].
    destruct (truthy prop
              && negb (in_atrule && String.eqb prop "@keyframes-block"));
      [|eauto].
    rewrite E. simpl. eauto.
Qed.

(** With enough fuel for the height of the tree, [formatSCSS] returns. *)
Lemma formatSCSS_ok :
  forall fuel structure depth,
    tree_height structure <= fuel ->
    exists t, formatSCSS options localeCompare h fuel structure depth = Ok t.
Proof.
  induction fuel as [|fuel IH]; intros structure depth Hh.
  - destruct structure; simpl in Hh; lia.
  - simpl. destruct (getIndent_ok depth) as [indent ->]. simpl.
    apply for_each_ok. intros result [selector_ child] Hin. simpl.
    assert (Hchild : In (selector_, child) (n_children structure)).
    { destruct (sortProperties options); [|exact Hin].
      now apply sort_In in Hin. }
    apply child_height in Hchild.
    destruct (negb (is_nil (n_declarations child))
              || negb (is_nil (n_children child))); [|eauto].
    destruct (startsWith selector_ "@keyframes"
              || startsWith selector_ "@-webkit-keyframes").
    { match goal with
      | |- context [for_each ?b ?l ?s] =>
          destruct (@for_each_ok _ _ b l s) as [r1 ->]
      end.
      - intros st x _. apply keyframes_block_ok.
      - simpl. eauto. }
    destruct (startsWith selector_ "@").
    { match goal with
      | |- context [for_each ?b ?l ?s] =>
          destruct (@for_each_ok _ _ b l s) as [r1 ->]
      end.
      - intros st x _. apply declaration_line_ok.
      - simpl. eauto. }
    match goal with
    | |- context [for_each ?b ?l ?s] =>
        destruct (@for_each_ok _ _ b l s) as [r1 ->]
    end.
    { intros st x _. apply declaration_line_ok. }
    simpl.
    destruct (negb (is_nil (n_children child))).
    + destruct (IH child (depth + 1)) as [nested ->]; [lia|].
      simpl. eauto.
    + simpl. eauto.
Qed.

Lemma indentContent_ok :
  forall content level, exists t, indentContent options content level = Ok t.
Proof.
  intros content level. unfold indentContent.
  destruct (getIndent_ok level) as [indent ->]. simpl. eauto.
Qed.
End FormatTotal.

Lemma map_set_not_nil :
  forall (V : Type) (k : string) (v : V) (m : JsMap V), map_set k v m <> [].
Proof.
  intros V k v m. destruct m as [|[k' v'] m]; simpl.
  - discriminate.
  - destruct (String.eqb k k'); discriminate.
Qed.

Lemma map_push_not_nil :
  forall (V : Type) (k : string) (x : V) (m : JsMap (list V)),
    map_push k x m <> [].
Proof.
  intros V k x m. unfold map_push.
  destruct (map_get k m); apply map_set_not_nil.
Qed.

Lemma fold_left_not_nil :
  forall (A B : Type) (f : list B -> A -> list B),
    (forall g x, f g x <> []) ->
    forall l g, l <> [] \/ g <> [] -> fold_left f l g <> [].
Proof.
  intros A B f Hf l. induction l as [|x l IH]; intros g H; simpl.
  - destruct H as [H|H]; [now elim H|exact H].
  - apply IH. right. apply Hf.
Qed.

Lemma groupByMediaQuery_not_nil :
  forall rules_, rules_ <> [] -> groupByMediaQuery rules_ <> [].
Proof.
  intros rules_ H. unfold groupByMediaQuery.
  intros E. apply map_eq_nil in E. revert E.
  apply fold_left_not_nil; [|now left].
  intros g x. apply map_push_not_nil.
Qed.

Lemma map_get_In :
  forall (V : Type) (k : string) (v : V) (m : JsMap V),
    map_get k m = Some v -> In (k, v) m.
Proof.
  intros V k v m. induction m as [|[k' v'] m IH]; simpl; intros H.
  - discriminate.
  - destruct (String.eqb k k') eqn:E.
    + apply String.eqb_eq in E. inversion H; subst. now left.
    + right. now apply IH.
Qed.

Lemma map_set_Forall :
  forall (V : Type) (P : V -> Prop) (k : string) (v : V) (m : JsMap V),
    P v -> Forall (fun e => P (snd e)) m ->
    Forall (fun e => P (snd e)) (map_set k v m).
Proof.
  intros V P k v m Hv. induction m as [|[k' v'] m IH]; simpl; intros H.
  - constructor; [exact Hv|constructor].
  - inversion H; subst. destruct (String.eqb k k').
    + constructor; assumption.
    + constructor; [assumption|now apply IH].
Qed.

Lemma map_push_Forall :
  forall (V : Type) (k : string) (x : V) (m : JsMap (list V)),
    Forall (fun e => snd e <> []) m ->
    Forall (fun e => snd e <> []) (map_push k x m).
Proof.
  intros V k x m H. unfold map_push.
  destruct (map_get k m) as [l|];
    apply (map_set_Forall (fun l => l <> [])); try exact H.
  - destruct l; discriminate.
  - discriminate.
Qed.

(** Every media group of the duplicate detector has a bucket and every
    bucket has a rule. *)
Definition groups_inhabited (g : JsMap (JsMap (list ParsedRule))) : Prop :=
  Forall (fun e => snd e <> [] /\ Forall (fun b => snd b <> []) (snd e)) g.

Lemma add_to_groups_inhabited :
  forall h g rule,
    groups_inhabited g -> groups_inhabited (add_to_groups h g rule).
Proof.
  intros h g rule H. unfold add_to_groups, groups_inhabited.
  apply (map_set_Forall
           (fun m => m <> [] /\ Forall (fun b => snd b <> []) m));
    [|exact H].
  split; [apply map_push_not_nil|].
  apply map_push_Forall.
  destruct (map_get _ g) as [m|] eqn:E; [|constructor].
  apply map_get_In in E. unfold groups_inhabited in H.
  rewrite Forall_forall in H. exact (proj2 (H _ E)).
Qed.

Lemma mediaQueryGroups_inhabited :
  forall h rules_ g,
    groups_inhabited g ->
    groups_inhabited (fold_left (add_to_groups h) rules_ g).
Proof.
  intros h rules_. induction rules_ as [|r l IH]; intros g H; simpl.
  - exact H.
  - apply IH. now apply add_to_groups_inhabited.
Qed.

Lemma merge_bucket_not_nil :
  forall h mediaKey declHash l,
    l <> [] -> merge_bucket h mediaKey declHash l <> [].
Proof.
  intros h mediaKey declHash l H. unfold merge_bucket.
  destruct l as [|a [|b l]]; [now elim H|discriminate|].
  destruct (negb (String.eqb (selector a) "/* COMMENT */")); [|discriminate].
  match goal with |- context [if ?c then _ else _] => destruct c end;
    discriminate.
Qed.

Lemma detectAndMergeDuplicates_not_nil :
  forall h rules_, rules_ <> [] -> detectAndMergeDuplicates h rules_ <> [].
Proof.
  intros h rules_ H. unfold detectAndMergeDuplicates, mediaQueryGroups_of.
  assert (Hne : fold_left (add_to_groups h) rules_ [] <> []).
  { apply fold_left_not_nil; [|now left].
    intros g x. unfold add_to_groups. apply map_set_not_nil. }
  assert (Hin : groups_inhabited (fold_left (add_to_groups h) rules_ [])).
  { apply mediaQueryGroups_inhabited. constructor. }
  destruct (fold_left (add_to_groups h) rules_ []) as [|[mk m] g];
    [now elim Hne|].
  inversion Hin as [|? ? [Hm Hb] _]; subst. simpl in *.
  destruct m as [|[dh l] m]; [now elim Hm|].
  inversion Hb as [|? ? Hl _]; subst. simpl in *.
  unfold merge_media_group at 1. simpl.
  pose proof (merge_bucket_not_nil h mk dh Hl) as Hmb.
  destruct (merge_bucket h mk dh l); [now elim Hmb|discriminate].
Qed.

Definition error_message (e : Thrown) : string :=
  match e with
  | JsError message => message
  | NotAnError => "Unknown error"
  end.

(** The options [{ indentSize: -1 }]. *)
Definition negative_indent_options : Options :=
  constructor
    {| opt_indentSize := Some (-1)%Z; opt_indentType := None;
       opt_preserveComments := None; opt_sortProperties := None;
       opt_enableBEM := None; opt_enableSmartNesting := None;
       opt_maxNestingDepth := None; opt_enableDuplicateDetection := None;
       opt_enableAdvancedBEM := None; opt_enableMediaQueryGrouping := None;
       opt_enableVariableExtraction := None; opt_variablePrefix := None;
       opt_minOccurrences := None; opt_extractColors := None;
       opt_extractSizes := None; opt_extractFonts := None;
       opt_extractOthers := None |}.


Lemma getIndent_throws :
  forall options depth,
    indent_ok options = false ->
    getIndent options depth =
      Throw (JsError ("Invalid count value: " ++ of_Z (indentSize options))).
Proof.
  intros options depth H. unfold getIndent. unfold indent_ok in H.
  destruct (indentType options); [|discriminate].
  destruct (Z.ltb (indentSize options) 0); [reflexivity|discriminate].
Qed.

Lemma tree_height_pos : forall n, exists k, tree_height n = S k.
Proof.
  intros [sel ds children bem]. simpl. eauto.
Qed.


Unset Implicit Arguments.

(** *** The loop that makes a variable name unique *)

Lemma of_nat_inj : forall a b, of_nat a = of_nat b -> a = b.
Proof.
  intros a b H. unfold of_nat in H.
  assert (E : Some (Nat.to_uint a) = Some (Nat.to_uint b)).
  { rewrite <- (NilEmpty.usu (Nat.to_uint a)),
            <- (NilEmpty.usu (Nat.to_uint b)).
    now rewrite H. }
  inversion E as [E'].
  rewrite <- (Unsigned.of_to a), <- (Unsigned.of_to b). now rewrite E'.
Qed.

Lemma append_inj_l : forall p a b : string, p ++ a = p ++ b -> a = b.
Proof.
  induction p as [|c p IH]; simpl; intros a b H.
  - exact H.
  - inversion H. now apply IH.
Qed.

Lemma append_length :
  forall a b : string,
    String.length (a ++ b) = String.length a + String.length b.
Proof.
  induction a as [|c a IH]; simpl; intros b.
  - reflexivity.
  - now rewrite IH.
Qed.

Definition numbered (suggestedName : string) (counter : nat) : string :=
  suggestedName ++ "-" ++ of_nat counter.

Lemma numbered_inj :
  forall base a b, numbered base a = numbered base b -> a = b.
Proof.
  intros base a b H. unfold numbered in H.
  apply append_inj_l in H. inversion H as [H']. now apply of_nat_inj.
Qed.

Lemma numbered_not_base : forall base c, numbered base c <> base.
Proof.
  intros base c H. apply (f_equal String.length) in H.
  unfold numbered in H. rewrite append_length in H. simpl in H. lia.
Qed.

Lemma str_in_In : forall s l, str_in s l = true <-> In s l.
Proof.
  intros s l. unfold str_in. rewrite existsb_exists. split.
  - intros [x [Hx E]]. apply String.eqb_eq in E. now subst.
  - intros H. exists s. split; [exact H|apply String.eqb_refl].
Qed.

Lemma unique_loop_fresh :
  forall fuel names base current counter tried,
    NoDup tried -> incl tried names -> ~ In current tried ->
    (forall c, counter <= c -> ~ In (numbered base c) (current :: tried)) ->
    List.length names <= List.length tried + fuel ->
    ~ In (unique_loop fuel names base current counter) names.
Proof.
  induction fuel as [|fuel IH];
    intros names base current counter tried Hnd Hincl Hcur Hfut Hlen;
    simpl; destruct (str_in current names) eqn:E;
    try (intros H; apply str_in_In in H; congruence).
  - apply str_in_In in E. exfalso.
    assert (Hl : List.length (current :: tried) <= List.length names).
    { apply NoDup_incl_length.
      - now constructor.
      - intros x [<-|Hx]; [exact E|now apply Hincl]. }
    simpl in Hl. lia.
  - apply str_in_In in E.
    apply (IH names base (numbered base counter) (S counter)
              (current :: tried)).
    + now constructor.
    + intros x [<-|Hx]; [exact E|now apply Hincl].
    + apply Hfut. lia.
    + intros c Hc [H|H].
      * apply numbered_inj in H. lia.
      * apply (Hfut c); [lia|exact H].
    + simpl. lia.
Qed.

(** The name that [uniqueName] returns is not among [names]: the loop
    ends because its test fails, within [length names] iterations. *)
Lemma uniqueName_fresh :
  forall names suggestedName, ~ In (uniqueName names suggestedName) names.
Proof.
  intros names suggestedName. unfold uniqueName.
  apply (unique_loop_fresh (List.length names) names suggestedName
                           suggestedName 1 []).
  - constructor.
  - intros x [].
  - intros [].
  - intros c _ [H|[]]. symmetry in H. exact (numbered_not_base _ _ H).
  - simpl. lia.
Qed.

(** *** Keys of the variable maps *)

(** [`${property}:${value}`] *)
Definition pair_key (pv : string * string) : string :=
  fst pv ++ ":" ++ snd pv.

(** [`${category}:${value}`] for a category and a value. *)
Definition category_value_key (cv : Category * string) : string :=
  category_name (fst cv) ++ ":" ++ snd cv.

Definition colon_free (s : string) : Prop := count_char ":" s = 0.

Lemma key_inj :
  forall p1 p2 v1 v2 : string,
    colon_free p1 -> colon_free p2 ->
    p1 ++ ":" ++ v1 = p2 ++ ":" ++ v2 -> p1 = p2 /\ v1 = v2.
Proof.
  unfold colon_free.
  induction p1 as [|c p1 IH]; intros [|d p2] v1 v2 H1 H2 H; simpl in *.
  - inversion H. auto.
  - inversion H; subst d. simpl in H2. discriminate.
  - inversion H; subst c. simpl in H1. discriminate.
  - inversion H; subst d.
    destruct (Ascii.eqb c ":"); [discriminate|]. simpl in *.
    destruct (IH p2 v1 v2 H1 H2) as [-> ->]; auto.
Qed.

Lemma pair_key_inj :
  forall pv qv : string * string,
    colon_free (fst pv) -> colon_free (fst qv) ->
    pair_key pv = pair_key qv -> pv = qv.
Proof.
  intros [p v] [q w] H1 H2 H. unfold pair_key in H. simpl in *.
  destruct (key_inj p q v w H1 H2 H) as [-> ->]. reflexivity.
Qed.

Lemma category_name_colon_free : forall c, colon_free (category_name c).
Proof.
  intros []; reflexivity.
Qed.

Lemma category_name_inj :
  forall a b, category_name a = category_name b -> a = b.
Proof.
  intros [] []; simpl; intros H; try reflexivity; discriminate.
Qed.

Lemma category_value_key_inj :
  forall a b, category_value_key a = category_value_key b -> a = b.
Proof.
  intros [c v] [d w] H. unfold category_value_key in H. simpl in H.
  destruct (key_inj _ _ v w (category_name_colon_free c)
                    (category_name_colon_free d) H) as [Hc ->].
  apply category_name_inj in Hc. now subst.
Qed.

(** *** Lemmas on maps in insertion order *)

Lemma map_get_set_same :
  forall (V : Type) (k : string) (v : V) (m : JsMap V),
    map_get k (map_set k v m) = Some v.
Proof.
  intros V k v m. induction m as [|[k' v'] m IH]; simpl.
  - now rewrite String.eqb_refl.
  - destruct (String.eqb k k') eqn:E; simpl; rewrite E; auto.
Qed.

Lemma map_get_set_other :
  forall (V : Type) (k k' : string) (v : V) (m : JsMap V),
    k' <> k -> map_get k' (map_set k v m) = map_get k' m.
Proof.
  intros V k k' v m H. induction m as [|[k0 v0] m IH]; simpl.
  - destruct (String.eqb k' k) eqn:E; [|reflexivity].
    apply String.eqb_eq in E. contradiction.
  - destruct (String.eqb k k0) eqn:E; simpl.
    + apply String.eqb_eq in E. subst k0.
      destruct (String.eqb k' k) eqn:E'; [|reflexivity].
      apply String.eqb_eq in E'. contradiction.
    + now rewrite IH.
Qed.

Lemma map_set_set :
  forall (V : Type) (k : string) (v1 v2 : V) (m : JsMap V),
    map_set k v2 (map_set k v1 m) = map_set k v2 m.
Proof.
  intros V k v1 v2 m. induction m as [|[k' v'] m IH]; simpl.
  - now rewrite String.eqb_refl.
  - destruct (String.eqb k k') eqn:E; simpl; rewrite E; [reflexivity|].
    now rewrite IH.
Qed.

(** A map built from a duplicate-free list [l] through a key function
    that is injective on [l] and [x]: looking [x] up and setting it. *)
Section MappedMap.
Variables (A V : Type).
Variable key : A -> string.
Variable eq_dec : forall a b : A, {a = b} + {a <> b}.

Lemma mapped_get_in :
  forall (F : A -> V) (l : list A) (x : A),
    (forall a, In a l -> key a = key x -> a = x) ->
    In x l ->
    map_get (key x) (map (fun a => (key a, F a)) l) = Some (F x).
Proof.
  intros F l x. induction l as [|a l IH]; intros Hinj Hin; simpl.
  - contradiction.
  - destruct (String.eqb (key x) (key a)) eqn:E.
    + apply String.eqb_eq in E.
      assert (a = x) by (apply Hinj; [now left|now symmetry]). now subst a.
    + destruct Hin as [->|Hin].
      * rewrite String.eqb_refl in E. discriminate.
      * apply IH; [|exact Hin]. intros b Hb. apply Hinj. now right.
Qed.

Lemma mapped_get_notin :
  forall (F : A -> V) (l : list A) (x : A),
    (forall a, In a l -> key a = key x -> a = x) ->
    ~ In x l ->
    map_get (key x) (map (fun a => (key a, F a)) l) = None.
Proof.
  intros F l x. induction l as [|a l IH]; intros Hinj Hin; simpl.
  - reflexivity.
  - destruct (String.eqb (key x) (key a)) eqn:E.
    + apply String.eqb_eq in E. exfalso. apply Hin. left.
      apply Hinj; [now left|now symmetry].
    + apply IH.
      * intros b Hb. apply Hinj. now right.
      * intros H. apply Hin. now right.
Qed.

Lemma mapped_set_in :
  forall (F : A -> V) (l : list A) (x : A) (v : V),
    (forall a, In a l -> key a = key x -> a = x) ->
    NoDup l -> In x l ->
    map_set (key x) v (map (fun a => (key a, F a)) l) =
      map (fun a => (key a, if eq_dec a x then v else F a)) l.
Proof.
  intros F l x v. induction l as [|a l IH]; intros Hinj Hnd Hin; simpl.
  - contradiction.
  - inversion Hnd as [|? ? Ha Hl]; subst.
    destruct (String.eqb (key x) (key a)) eqn:E.
    + apply String.eqb_eq in E.
      assert (a = x) by (apply Hinj; [now left|now symmetry]). subst a.
      destruct (eq_dec x x); [|congruence]. f_equal.
      apply map_ext_in. intros b Hb.
      destruct (eq_dec b x); [subst; contradiction|reflexivity].
    + destruct Hin as [->|Hin].
      * rewrite String.eqb_refl in E. discriminate.
      * destruct (eq_dec a x); [subst; contradiction|]. f_equal.
        apply IH; auto. intros b Hb. apply Hinj. now right.
Qed.

Lemma mapped_set_notin :
  forall (F : A -> V) (l : list A) (x : A) (v : V),
    (forall a, In a l -> key a = key x -> a = x) ->
    ~ In x l ->
    map_set (key x) v (map (fun a => (key a, F a)) l) =
      (map (fun a => (key a, F a)) l ++ [(key x, v)])%list.
Proof.
  intros F l x v. induction l as [|a l IH]; intros Hinj Hin; simpl.
  - reflexivity.
  - destruct (String.eqb (key x) (key a)) eqn:E.
    + apply String.eqb_eq in E. exfalso. apply Hin. left.
      apply Hinj; [now left|now symmetry].
    + f_equal. apply IH.
      * intros b Hb. apply Hinj. now right.
      * intros H. apply Hin. now right.
Qed.
End MappedMap.

(** *** Occurrences of (property, value) pairs *)

Definition pair_eq_dec :
  forall a b : string * string, {a = b} + {a <> b}.
Proof.
  decide equality; apply string_dec.
Defined.

Definition same_pair (a b : string * string) : bool :=
  if pair_eq_dec a b then true else false.

(** The (property, value) pair that a declaration contributes to the
    analysis: none for a comment, an empty property or value, or a
    category that is switched off. *)
Definition candidate_pair (options : Options) (d : Declaration)
  : option (string * string) :=
  match type d, property d with
  | declaration, Some prop =>
      if truthy prop && truthy (value d)
         && shouldExtractCategory options (categorizeValue prop (value d))
      then Some (prop, value d)
      else None
  | _, _ => None
  end.

Definition occurrence_of (options : Options) (sel : string)
           (d : Declaration) : list (string * (string * string)) :=
  match candidate_pair options d with
  | Some pv => [(sel, pv)]
  | None => []
  end.

(** Every occurrence in a stylesheet, in the order of the analysis: the
    selector of the rule and the pair. *)
Definition occurrences_in (options : Options) (h : Heap)
           (rules_ : list ParsedRule) : list (string * (string * string)) :=
  flat_map (fun rule =>
              flat_map (occurrence_of options (selector rule))
                       (map (deref h) (declarations rule)))
           rules_.

(** The selectors at which a pair occurs, and how often it occurs. *)
Definition occurrences_of (pv : string * string)
           (occs : list (string * (string * string))) : list string :=
  map fst (filter (fun e => same_pair (snd e) pv) occs).

Definition occurrence_count (pv : string * string)
           (occs : list (string * (string * string))) : nat :=
  List.length (occurrences_of pv occs).

(** The distinct elements of a list in the order of first occurrence. *)
Definition distinct (l : list (string * string)) : list (string * string) :=
  rev (nodup pair_eq_dec (rev l)).

Lemma distinct_In : forall x l, In x (distinct l) <-> In x l.
Proof.
  intros x l. unfold distinct.
  rewrite <- in_rev, nodup_In, <- in_rev. tauto.
Qed.

Lemma distinct_NoDup : forall l, NoDup (distinct l).
Proof.
  intros l. unfold distinct. apply NoDup_rev. apply NoDup_nodup.
Qed.

Lemma distinct_snoc_in :
  forall x l, In x l -> distinct (l ++ [x]) = distinct l.
Proof.
  intros x l H. unfold distinct. rewrite rev_app_distr. simpl.
  destruct (in_dec pair_eq_dec x (rev l)) as [_|N]; [reflexivity|].
  exfalso. apply N. now apply in_rev in H.
Qed.

Lemma distinct_snoc_notin :
  forall x l, ~ In x l -> distinct (l ++ [x]) = (distinct l ++ [x])%list.
Proof.
  intros x l H. unfold distinct. rewrite rev_app_distr. simpl.
  destruct (in_dec pair_eq_dec x (rev l)) as [I|_]; [|reflexivity].
  exfalso. apply H. now apply in_rev.
Qed.

Lemma occurrences_of_snoc :
  forall pv sel qv occs,
    occurrences_of pv (occs ++ [(sel, qv)]) =
      (occurrences_of pv occs ++ if same_pair qv pv then [sel] else [])%list.
Proof.
  intros pv sel qv occs. unfold occurrences_of.
  rewrite filter_app, map_app. simpl.
  destruct (same_pair qv pv); reflexivity.
Qed.

Lemma occurrences_of_absent :
  forall pv occs, ~ In pv (map snd occs) -> occurrences_of pv occs = [].
Proof.
  intros pv occs. unfold occurrences_of.
  induction occs as [|[sel qv] occs IH]; simpl; intros H.
  - reflexivity.
  - unfold same_pair at 1. destruct (pair_eq_dec qv pv) as [->|N].
    + exfalso. apply H. now left.
    + apply IH. intros I. apply H. now right.
Qed.

Lemma same_pair_refl : forall pv, same_pair pv pv = true.
Proof.
  intros pv. unfold same_pair. destruct (pair_eq_dec pv pv); congruence.
Qed.

Lemma same_pair_neq : forall pv qv, pv <> qv -> same_pair pv qv = false.
Proof.
  intros pv qv H. unfold same_pair. destruct (pair_eq_dec pv qv); congruence.
Qed.

Section Analysis.
Variable options : Options.

(** The candidate and the occurrence record that the analysis holds for
    a pair after the occurrences [occs]. *)
Definition candidate_for (occs : list (string * (string * string)))
           (pv : string * string) : VariableCandidate :=
  {| c_value := snd pv;
     c_property := fst pv;
     c_occurrences := occurrence_count pv occs;
     c_contexts := occurrences_of pv occs;
     c_category := categorizeValue (fst pv) (snd pv);
     c_suggestedName :=
       generateVariableName options (fst pv) (snd pv)
                            (categorizeValue (fst pv) (snd pv)) |}.

Definition record_for (occs : list (string * (string * string)))
           (pv : string * string) : Occurrence :=
  {| count := occurrence_count pv occs;
     contexts := occurrences_of pv occs;
     properties := [fst pv] |}.

Definition candidates_after (occs : list (string * (string * string)))
  : JsMap VariableCandidate :=
  map (fun pv => (pair_key pv, candidate_for occs pv))
      (distinct (map snd occs)).

Definition records_after (occs : list (string * (string * string)))
  : JsMap Occurrence :=
  map (fun pv => (pair_key pv, record_for occs pv))
      (distinct (map snd occs)).

Definition pairs_colon_free (occs : list (string * (string * string)))
  : Prop :=
  forall e, In e occs -> colon_free (fst (snd e)).
End Analysis.

Lemma occurrence_count_snoc_same :
  forall pv sel occs,
    occurrence_count pv (occs ++ [(sel, pv)]) = S (occurrence_count pv occs).
Proof.
  intros pv sel occs. unfold occurrence_count.
  rewrite occurrences_of_snoc, same_pair_refl, length_app. simpl. lia.
Qed.

Lemma candidate_for_snoc_other :
  forall options pv qv sel occs,
    qv <> pv ->
    candidate_for options (occs ++ [(sel, qv)]) pv =
      candidate_for options occs pv.
Proof.
  intros options pv qv sel occs H. unfold candidate_for, occurrence_count.
  rewrite occurrences_of_snoc, (same_pair_neq _ _ H), app_nil_r. reflexivity.
Qed.

Lemma record_for_snoc_other :
  forall pv qv sel occs,
    qv <> pv ->
    record_for (occs ++ [(sel, qv)]) pv = record_for occs pv.
Proof.
  intros pv qv sel occs H. unfold record_for, occurrence_count.
  rewrite occurrences_of_snoc, (same_pair_neq _ _ H), app_nil_r. reflexivity.
Qed.

(** One step of the analysis: from the maps that describe the occurrences
    [occs] to the maps that describe [occs] and the occurrence of [d]. *)
Lemma analyze_declaration_step :
  forall options sel occs d,
    pairs_colon_free (occs ++ occurrence_of options sel d) ->
    analyze_declaration options sel
      (records_after occs, candidates_after options occs) d =
    (records_after (occs ++ occurrence_of options sel d),
     candidates_after options (occs ++ occurrence_of options sel d)).
Proof.
  intros options sel occs d Hcf.
  unfold occurrence_of, candidate_pair in *. unfold analyze_declaration.
  destruct (type d); [|now rewrite app_nil_r].
  destruct (property d) as [prop|]; [|now rewrite app_nil_r].
  destruct (truthy prop && truthy (value d)); [|now rewrite app_nil_r].
  simpl andb in *.
  destruct (shouldExtractCategory options (categorizeValue prop (value d)));
    [|now rewrite app_nil_r].
  simpl negb. cbv iota.
  set (pv := (prop, value d)) in *.
  change (prop ++ ":" ++ value d) with (pair_key pv).
  assert (Hinj : forall a, In a (distinct (map snd occs)) ->
                           pair_key a = pair_key pv -> a = pv).
  { intros a Ha E. apply pair_key_inj; [| |exact E].
    - apply distinct_In, in_map_iff in Ha. destruct Ha as [e [<- He]].
      apply Hcf. apply in_or_app. now left.
    - apply (Hcf (sel, pv)). apply in_or_app. right. now left. }
  unfold map_has.
  destruct (in_dec pair_eq_dec pv (map snd occs)) as [Hin|Hnin].
  - assert (Hd : In pv (distinct (map snd occs))) by now apply distinct_In.
    assert (Gr : map_get (pair_key pv) (records_after occs) =
                 Some (record_for occs pv)).
    { apply (mapped_get_in _ _ pair_key (record_for occs) _ pv Hinj Hd). }
    assert (Gc : map_get (pair_key pv) (candidates_after options occs) =
                 Some (candidate_for options occs pv)).
    { apply (mapped_get_in _ _ pair_key (candidate_for options occs) _ pv
                           Hinj Hd). }
    rewrite !Gr, !Gc.
    unfold records_after at 1. unfold candidates_after at 1.
    rewrite (mapped_set_in _ _ pair_key pair_eq_dec _ _ pv _ Hinj
                           (distinct_NoDup _) Hd).
    rewrite (mapped_set_in _ _ pair_key pair_eq_dec _ _ pv _ Hinj
                           (distinct_NoDup _) Hd).
    unfold records_after, candidates_after.
    rewrite map_app. simpl map. rewrite (distinct_snoc_in _ _ Hin).
    f_equal; apply map_ext; intros q; f_equal;
      destruct (pair_eq_dec q pv) as [->|N].
    + unfold record_for. rewrite occurrence_count_snoc_same.
      rewrite occurrences_of_snoc, same_pair_refl. simpl.
      unfold set_add, str_in. simpl. rewrite String.eqb_refl. reflexivity.
    + symmetry. apply record_for_snoc_other. congruence.
    + unfold candidate_for. rewrite occurrence_count_snoc_same.
      rewrite occurrences_of_snoc, same_pair_refl. reflexivity.
    + symmetry. apply candidate_for_snoc_other. congruence.
  - assert (Hd : ~ In pv (distinct (map snd occs))).
    { intros H. apply Hnin. now apply distinct_In. }
    assert (Gr : map_get (pair_key pv) (records_after occs) = None).
    { apply (mapped_get_notin _ _ pair_key (record_for occs) _ pv Hinj Hd). }
    assert (Gc : map_get (pair_key pv) (candidates_after options occs) =
                 None).
    { apply (mapped_get_notin _ _ pair_key (candidate_for options occs) _ pv
                              Hinj Hd). }
    rewrite !Gr, !Gc.
    rewrite !map_get_set_same. rewrite !map_set_set.
    unfold records_after at 1. unfold candidates_after at 1.
    rewrite (mapped_set_notin _ _ pair_key _ _ pv _ Hinj Hd).
    rewrite (mapped_set_notin _ _ pair_key _ _ pv _ Hinj Hd).
    unfold records_after, candidates_after.
    rewrite map_app. simpl map. rewrite (distinct_snoc_notin _ _ Hnin).
    rewrite !map_app. simpl map.
    assert (Hq : forall q, In q (distinct (map snd occs)) -> pv <> q).
    { intros q Hq ->. contradiction. }
    f_equal.
    + f_equal.
      * apply map_ext_in. intros q Hq'. f_equal. symmetry.
        apply record_for_snoc_other. now apply Hq.
      * unfold record_for. rewrite occurrence_count_snoc_same.
        rewrite occurrences_of_snoc, same_pair_refl.
        unfold occurrence_count.
        rewrite (occurrences_of_absent _ _ Hnin). reflexivity.
    + f_equal.
      * apply map_ext_in. intros q Hq'. f_equal. symmetry.
        apply candidate_for_snoc_other. now apply Hq.
      * unfold candidate_for. rewrite occurrence_count_snoc_same.
        rewrite occurrences_of_snoc, same_pair_refl.
        unfold occurrence_count.
        rewrite (occurrences_of_absent _ _ Hnin). reflexivity.
Qed.

Lemma pairs_colon_free_prefix :
  forall a b, pairs_colon_free (a ++ b) -> pairs_colon_free a.
Proof.
  intros a b H e He. apply H. apply in_or_app. now left.
Qed.

Lemma analyze_declarations_fold :
  forall options sel ds occs,
    pairs_colon_free (occs ++ flat_map (occurrence_of options sel) ds) ->
    fold_left (analyze_declaration options sel) ds
      (records_after occs, candidates_after options occs) =
    (records_after (occs ++ flat_map (occurrence_of options sel) ds),
     candidates_after options
       (occs ++ flat_map (occurrence_of options sel) ds)).
Proof.
  intros options sel ds. induction ds as [|d ds IH]; intros occs H;
    cbn [fold_left flat_map] in *.
  - now rewrite app_nil_r.
  - rewrite app_assoc in H.
    rewrite analyze_declaration_step
      by exact (pairs_colon_free_prefix _ _ H).
    rewrite IH by exact H. now rewrite <- app_assoc.
Qed.

Lemma analyze_rules_fold :
  forall options h rules_ occs,
    pairs_colon_free (occs ++ occurrences_in options h rules_) ->
    fold_left (analyze_rule options h) rules_
      (records_after occs, candidates_after options occs) =
    (records_after (occs ++ occurrences_in options h rules_),
     candidates_after options (occs ++ occurrences_in options h rules_)).
Proof.
  intros options h rules_.
  unfold occurrences_in.
  induction rules_ as [|r rules_ IH]; intros occs H;
    cbn [fold_left flat_map] in *.
  - now rewrite app_nil_r.
  - rewrite app_assoc in H.
    unfold analyze_rule at 2.
    rewrite analyze_declarations_fold
      by exact (pairs_colon_free_prefix _ _ H).
    rewrite IH by exact H. now rewrite <- app_assoc.
Qed.

(** The candidates that the analysis leaves in a new converter: one for
    each distinct pair, in the order of first occurrence, with the number
    of occurrences of the pair. *)
Lemma analyzeVariableCandidates_new :
  forall options h rules_,
    pairs_colon_free (occurrences_in options h rules_) ->
    variableCandidates
      (analyzeVariableCandidates options h rules_ new_instance) =
    candidates_after options (occurrences_in options h rules_).
Proof.
  intros options h rules_ H. unfold analyzeVariableCandidates. simpl.
  change (@nil (string * Occurrence)) with (records_after []).
  change (@nil (string * VariableCandidate))
    with (candidates_after options []).
  rewrite analyze_rules_fold by exact H. reflexivity.
Qed.

(** *** Grouping into a map of lists *)

Lemma map_get_none_keys :
  forall (V : Type) (k : string) (m : JsMap V),
    map_get k m = None <-> ~ In k (map_keys m).
Proof.
  intros V k m. induction m as [|[k' v] m IH]; simpl.
  - tauto.
  - destruct (String.eqb k k') eqn:E.
    + apply String.eqb_eq in E. subst. split; [discriminate|].
      intros H. exfalso. apply H. now left.
    + rewrite IH. split.
      * intros H [H'|H']; [|contradiction].
        subst. rewrite String.eqb_refl in E. discriminate.
      * intros H H'. apply H. now right.
Qed.

Lemma map_set_fresh :
  forall (V : Type) (k : string) (v : V) (m : JsMap V),
    ~ In k (map_keys m) -> map_set k v m = (m ++ [(k, v)])%list.
Proof.
  intros V k v m. induction m as [|[k' v'] m IH]; simpl; intros H.
  - reflexivity.
  - destruct (String.eqb k k') eqn:E.
    + apply String.eqb_eq in E. exfalso. apply H. left. now subst.
    + f_equal. apply IH. intros H'. apply H. now right.
Qed.

Lemma map_set_keys_present :
  forall (V : Type) (k : string) (v : V) (m : JsMap V),
    In k (map_keys m) -> map_keys (map_set k v m) = map_keys m.
Proof.
  intros V k v m. induction m as [|[k' v'] m IH]; simpl; intros H.
  - contradiction.
  - destruct (String.eqb k k') eqn:E; simpl; [reflexivity|].
    f_equal. apply IH. destruct H as [H|H]; [|exact H].
    subst. rewrite String.eqb_refl in E. discriminate.
Qed.

Lemma map_set_NoDup :
  forall (V : Type) (k : string) (v : V) (m : JsMap V),
    NoDup (map_keys m) -> NoDup (map_keys (map_set k v m)).
Proof.
  intros V k v m H.
  destruct (in_dec string_dec k (map_keys m)) as [I|N].
  - now rewrite map_set_keys_present.
  - rewrite map_set_fresh by exact N. unfold map_keys in *.
    rewrite map_app. simpl. apply NoDup_app; [exact H| | ].
    + constructor; [intros []|constructor].
    + intros x Hx [<-|[]]. contradiction.
Qed.

Lemma In_map_get :
  forall (V : Type) (k : string) (v : V) (m : JsMap V),
    NoDup (map_keys m) -> In (k, v) m -> map_get k m = Some v.
Proof.
  intros V k v m. induction m as [|[k' v'] m IH]; simpl; intros Hnd Hin.
  - contradiction.
  - inversion Hnd as [|? ? Hk Hm]; subst.
    destruct Hin as [Hin|Hin].
    + inversion Hin; subst. now rewrite String.eqb_refl.
    + destruct (String.eqb k k') eqn:E; [|now apply IH].
      apply String.eqb_eq in E. subst k'. exfalso. apply Hk.
      apply (in_map fst) in Hin. exact Hin.
Qed.

Section GroupBy.
Variables (A B : Type).
Variable key : A -> string.
Variable val : A -> B.
Variable keep : A -> bool.

Definition group_step (m : JsMap (list B)) (x : A) : JsMap (list B) :=
  if keep x then map_push (key x) (val x) m else m.

Definition members (k : string) (l : list A) : list B :=
  map val (filter (fun x => keep x && String.eqb (key x) k) l).

Lemma group_step_get :
  forall m x k,
    map_get k (group_step m x) =
      match map_get k m, members k [x] with
      | g, [] => g
      | None, f => Some f
      | Some g, f => Some (g ++ f)%list
      end.
Proof.
  intros m x k. unfold group_step, members. simpl.
  destruct (keep x); simpl; [|now destruct (map_get k m)].
  unfold map_push.
  destruct (String.eqb (key x) k) eqn:E; simpl.
  - apply String.eqb_eq in E. subst k.
    destruct (map_get (key x) m); now rewrite map_get_set_same.
  - assert (N : k <> key x).
    { intros ->. rewrite String.eqb_refl in E. discriminate. }
    destruct (map_get (key x) m); rewrite map_get_set_other by exact N;
      now destruct (map_get k m).
Qed.

Lemma group_fold_get :
  forall l m k,
    map_get k (fold_left group_step l m) =
      match map_get k m, members k l with
      | g, [] => g
      | None, f => Some f
      | Some g, f => Some (g ++ f)%list
      end.
Proof.
  induction l as [|x l IH]; intros m k; cbn [fold_left].
  - unfold members. simpl. now destruct (map_get k m).
  - rewrite IH, group_step_get.
    unfold members. cbn [filter map].
    destruct (keep x && String.eqb (key x) k); cbn [map];
      destruct (map_get k m) as [g|];
      destruct (map val (filter _ l)) as [|b f] eqn:Ef;
      simpl; rewrite ?app_nil_r, <- ?app_assoc; reflexivity.
Qed.

Lemma group_fold_NoDup :
  forall l m,
    NoDup (map_keys m) -> NoDup (map_keys (fold_left group_step l m)).
Proof.
  induction l as [|x l IH]; intros m H; cbn [fold_left].
  - exact H.
  - apply IH. unfold group_step. destruct (keep x); [|exact H].
    unfold map_push. destruct (map_get (key x) m); now apply map_set_NoDup.
Qed.
End GroupBy.

(** *** Sorting and the second loop of [extractVariables] *)

Lemma insert_length :
  forall (A : Type) (cmp : A -> A -> Z) (x : A) (l : list A),
    List.length (insert cmp x l) = S (List.length l).
Proof.
  intros A cmp x l. induction l as [|y l IH]; simpl.
  - reflexivity.
  - destruct (Z.leb (cmp x y) 0); simpl; [reflexivity|now rewrite IH].
Qed.

Lemma sort_length :
  forall (A : Type) (cmp : A -> A -> Z) (l : list A),
    List.length (sort cmp l) = List.length l.
Proof.
  intros A cmp l. induction l as [|x l IH]; simpl.
  - reflexivity.
  - now rewrite insert_length, IH.
Qed.

Definition occurrence_sum (l : list VariableCandidate) : nat :=
  list_sum (map c_occurrences l).

Lemma totalOccurrences_sum :
  forall l, totalOccurrences l = occurrence_sum l.
Proof.
  intros l. unfold totalOccurrences, occurrence_sum.
  assert (G : forall l n,
             fold_left (fun sum c => sum + c_occurrences c) l n =
             n + list_sum (map c_occurrences l)).
  { clear l. induction l as [|c l IH]; intros n; simpl.
    - lia.
    - rewrite IH. lia. }
  now rewrite G.
Qed.

Lemma occurrence_sum_insert :
  forall x l,
    occurrence_sum (insert by_occurrences x l) =
      c_occurrences x + occurrence_sum l.
Proof.
  intros x l. unfold occurrence_sum.
  induction l as [|y l IH]; simpl.
  - reflexivity.
  - destruct (Z.leb (by_occurrences x y) 0); simpl; [reflexivity|].
    rewrite IH. lia.
Qed.

Lemma occurrence_sum_sort :
  forall l, occurrence_sum (sort by_occurrences l) = occurrence_sum l.
Proof.
  induction l as [|x l IH]; simpl.
  - reflexivity.
  - rewrite occurrence_sum_insert, IH. reflexivity.
Qed.

(** The first candidate after sorting has the most occurrences. *)
Lemma sort_head_most :
  forall l best rest,
    sort by_occurrences l = best :: rest ->
    forall c, In c l -> c_occurrences c <= c_occurrences best.
Proof.
  induction l as [|x l IH]; simpl; intros best rest E c Hc.
  - contradiction.
  - destruct (sort by_occurrences l) as [|y ys] eqn:Es.
    + assert (l = []).
      { apply length_zero_iff_nil.
        rewrite <- (sort_length _ by_occurrences l), Es. reflexivity. }
      subst l. simpl in E. inversion E; subst.
      destruct Hc as [<-|[]]. lia.
    + simpl in E. unfold by_occurrences at 1 in E.
      destruct (Z.leb (Z.of_nat (c_occurrences y)
                       - Z.of_nat (c_occurrences x)) 0) eqn:Ez.
      * inversion E; subst. apply Z.leb_le in Ez.
        destruct Hc as [<-|Hc]; [lia|].
        specialize (IH y ys eq_refl c Hc). lia.
      * inversion E; subst. apply Z.leb_gt in Ez.
        destruct Hc as [<-|Hc]; [lia|].
        exact (IH best ys eq_refl c Hc).
Qed.

Lemma unique_loop_form :
  forall fuel names base current counter,
    unique_loop fuel names base current counter = current \/
    exists n, unique_loop fuel names base current counter = numbered base n.
Proof.
  induction fuel as [|fuel IH]; intros names base current counter; simpl;
    destruct (str_in current names); auto.
  destruct (IH names base (numbered base counter) (S counter)) as [E|[n E]].
  - right. exists counter. exact E.
  - right. exists n. exact E.
Qed.

(** What [extract_group] makes of a group: the entry it sets. *)
Definition bestKey_of (g : list VariableCandidate) : string :=
  match sort by_occurrences g with
  | [] => EmptyString
  | best :: _ => c_property best ++ ":" ++ c_value best
  end.

Definition made_from (e : string * list VariableCandidate)
           (kv : string * ExtractedVariable) : Prop :=
  fst kv = bestKey_of (snd e) /\
  exists best rest,
    sort by_occurrences (snd e) = best :: rest /\
    v_value (snd kv) = c_value best /\
    v_category (snd kv) = c_category best /\
    v_occurrences (snd kv) = occurrence_sum (snd e) /\
    (v_name (snd kv) = c_suggestedName best \/
     exists n, v_name (snd kv) = numbered (c_suggestedName best) n).

Lemma extract_fold :
  forall groups acc,
    (forall e, In e groups -> snd e <> []) ->
    NoDup (map_keys acc ++ map (fun e => bestKey_of (snd e)) groups) ->
    exists added,
      fold_left extract_group groups acc = (acc ++ added)%list /\
      Forall2 made_from groups added.
Proof.
  induction groups as [|e groups IH]; intros acc Hne Hnd; cbn [fold_left].
  - exists []. rewrite app_nil_r. split; [reflexivity|constructor].
  - assert (Hs : exists best rest, sort by_occurrences (snd e) = best :: rest).
    { destruct (sort by_occurrences (snd e)) as [|b r] eqn:Es; [|eauto].
      exfalso. apply (Hne e (or_introl eq_refl)).
      apply length_zero_iff_nil.
      rewrite <- (sort_length _ by_occurrences), Es. reflexivity. }
    destruct Hs as [best [rest Es]].
    assert (Hk : bestKey_of (snd e) = c_property best ++ ":" ++ c_value best).
    { unfold bestKey_of. now rewrite Es. }
    assert (Hfresh : ~ In (bestKey_of (snd e)) (map_keys acc)).
    { intros H. cbn [map] in Hnd. apply NoDup_remove_2 in Hnd.
      apply Hnd. apply in_or_app. now left. }
    unfold extract_group at 2. rewrite Es. rewrite <- Hk.
    rewrite map_set_fresh by exact Hfresh.
    match goal with
    | |- context [(acc ++ [(bestKey_of (snd e), ?v)])%list] =>
        destruct (IH (acc ++ [(bestKey_of (snd e), v)])%list)
          as [added [Ef Hf]]; [| |exists ((bestKey_of (snd e), v) :: added)]
    end.
    + intros e' He'. apply Hne. now right.
    + unfold map_keys in *. rewrite map_app. cbn [map fst] in *.
      rewrite <- app_assoc. exact Hnd.
    + split; [rewrite Ef, <- app_assoc; reflexivity|].
      constructor; [|exact Hf].
      split; [reflexivity|]. exists best, rest. cbn [snd].
      split; [exact Es|]. split; [reflexivity|]. split; [reflexivity|].
      split.
      * cbn [v_occurrences]. rewrite totalOccurrences_sum.
        rewrite <- Es. apply occurrence_sum_sort.
      * cbn [v_name]. unfold uniqueName. apply unique_loop_form.
Qed.

(** *** The variable header has one line for each extracted variable *)

Lemma category_lines_length :
  forall localeCompare extracted name,
    List.length (category_lines localeCompare (categories_of extracted) name) =
    List.length
      (filter (fun v => String.eqb (category_name (v_category v)) name)
              (map_values extracted)).
Proof.
  intros localeCompare extracted name. unfold category_lines, categories_of.
  change (fun (m : JsMap (list ExtractedVariable)) variable =>
            map_push (category_name (v_category variable)) variable m)
    with (group_step ExtractedVariable ExtractedVariable
            (fun v => category_name (v_category v)) (fun v => v)
            (fun _ => true)).
  rewrite group_fold_get. cbn [map_get]. unfold members.
  rewrite map_id. cbn [andb].
  destruct (filter _ (map_values extracted)) as [|v vs]; [reflexivity|].
  rewrite length_map, sort_length. reflexivity.
Qed.

Lemma variable_declarations_length :
  forall localeCompare this,
    List.length (variable_declarations localeCompare this) =
    List.length (extractedVariables this).
Proof.
  intros localeCompare this. unfold variable_declarations, sortedCategories.
  cbn [flat_map]. rewrite !length_app, !category_lines_length.
  cbn [List.length]. unfold map_values. rewrite <- (length_map snd (extractedVariables this)).
  induction (map snd (extractedVariables this)) as [|v l IH];
    [reflexivity|].
  cbn [filter]. destruct (v_category v); cbn; lia.
Qed.

(** *** The groups of a new converter, in terms of the occurrences *)

Definition cv_eq_dec :
  forall a b : Category * string, {a = b} + {a <> b}.
Proof.
  decide equality; [apply string_dec|decide equality].
Defined.

Definition same_cv (a b : Category * string) : bool :=
  if cv_eq_dec a b then true else false.

(** The category and value that a pair is merged under. *)
Definition category_value (pv : string * string) : Category * string :=
  (categorizeValue (fst pv) (snd pv), snd pv).

Lemma Forall2_In_r :
  forall (A B : Type) (R : A -> B -> Prop) (l : list A) (l' : list B) (y : B),
    Forall2 R l l' -> In y l' -> exists x, In x l /\ R x y.
Proof.
  intros A B R l l' y H. induction H as [|a b l l' Hab H IH]; intros Hin.
  - contradiction.
  - destruct Hin as [<-|Hin].
    + exists a. split; [now left|exact Hab].
    + destruct (IH Hin) as [x [Hx Hr]]. exists x. split; [now right|exact Hr].
Qed.

Section Groups.
Variable options : Options.
Variable occs : list (string * (string * string)).
Hypothesis Hcf : pairs_colon_free occs.

(** A pair reaches the threshold by its own number of occurrences. *)
Definition reaches (pv : string * string) : bool :=
  Z.leb (minOccurrences options) (Z.of_nat (occurrence_count pv occs)).

(** The pairs that reach the threshold and are merged under [cv]. *)
Definition contributors (cv : Category * string)
  : list (string * string) :=
  filter (fun pv => reaches pv && same_cv (category_value pv) cv)
         (distinct (map snd occs)).

Definition groups_now : JsMap (list VariableCandidate) :=
  valueGroups_of options (candidates_after options occs).

Lemma groups_now_get :
  forall cv,
    map_get (category_value_key cv) groups_now =
      match contributors cv with
      | [] => None
      | pvs => Some (map (candidate_for options occs) pvs)
      end.
Proof.
  intros cv. unfold groups_now, valueGroups_of.
  change (group_candidate options)
    with (group_step (string * VariableCandidate) VariableCandidate
            (fun e => valueKey (snd e)) snd
            (fun e => Z.leb (minOccurrences options)
                            (Z.of_nat (c_occurrences (snd e))))).
  rewrite group_fold_get. cbn [map_get]. unfold members, candidates_after.
  rewrite filter_map_swap, map_map. cbn [snd].
  assert (E : filter
                (fun a : string * string =>
                   Z.leb (minOccurrences options)
                         (Z.of_nat (c_occurrences (candidate_for options occs a)))
                   && String.eqb (valueKey (candidate_for options occs a))
                                 (category_value_key cv))
                (distinct (map snd occs)) = contributors cv).
  { unfold contributors. apply filter_ext. intros pv. f_equal.
    change (valueKey (candidate_for options occs pv))
      with (category_value_key (category_value pv)).
    unfold same_cv. destruct (cv_eq_dec (category_value pv) cv) as [->|N].
    - apply String.eqb_refl.
    - apply String.eqb_neq. intros H. apply N.
      now apply category_value_key_inj. }
  rewrite E. destruct (contributors cv); reflexivity.
Qed.

Lemma groups_now_NoDup : NoDup (map_keys groups_now).
Proof.
  unfold groups_now, valueGroups_of.
  change (group_candidate options)
    with (group_step (string * VariableCandidate) VariableCandidate
            (fun e => valueKey (snd e)) snd
            (fun e => Z.leb (minOccurrences options)
                            (Z.of_nat (c_occurrences (snd e))))).
  apply group_fold_NoDup. constructor.
Qed.

(** Every group is the list of candidates of the contributors of some
    category and value, and has a contributor. *)
Lemma groups_now_entry :
  forall e,
    In e groups_now ->
    exists cv,
      fst e = category_value_key cv /\
      contributors cv <> [] /\
      snd e = map (candidate_for options occs) (contributors cv).
Proof.
  intros [k g] Hin.
  pose proof (In_map_get _ k g groups_now groups_now_NoDup Hin) as Hg.
  assert (Hk : exists cv, k = category_value_key cv).
  { pose proof Hg as Hr. unfold groups_now, valueGroups_of in Hr.
    change (group_candidate options)
      with (group_step (string * VariableCandidate) VariableCandidate
              (fun e => valueKey (snd e)) snd
              (fun e => Z.leb (minOccurrences options)
                              (Z.of_nat (c_occurrences (snd e))))) in Hr.
    rewrite group_fold_get in Hr. cbn [map_get] in Hr. unfold members in Hr.
    destruct (filter _ (candidates_after options occs)) as [|x xs] eqn:Ef;
      [discriminate|].
    assert (Hx : In x (filter
                         (fun x0 : string * VariableCandidate =>
                            Z.leb (minOccurrences options)
                                  (Z.of_nat (c_occurrences (snd x0)))
                            && String.eqb (valueKey (snd x0)) k)
                         (candidates_after options occs))).
    { rewrite Ef. now left. }
    apply filter_In in Hx. destruct Hx as [_ Hx].
    apply andb_prop in Hx. destruct Hx as [_ Hx].
    apply String.eqb_eq in Hx.
    exists (c_category (snd x), c_value (snd x)). now rewrite <- Hx. }
  destruct Hk as [cv ->]. exists cv. cbn [fst snd].
  rewrite groups_now_get in Hg.
  destruct (contributors cv) as [|pv pvs] eqn:Ec; [discriminate|].
  inversion Hg. repeat split. discriminate.
Qed.
End Groups.

(** *** The variables of a new converter *)

(** No declaration that the rules refer to has a colon in its property
    name (a property name of a parsed stylesheet has none). *)
Definition properties_colon_free (h : Heap) (rules_ : list ParsedRule)
  : bool :=
  forallb
    (fun rule =>
       forallb (fun x =>
                  match property (deref h x) with
                  | Some p => Nat.eqb (count_char ":" p) 0
                  | None => true
                  end)
               (declarations rule))
    rules_.

Lemma properties_pairs_colon_free :
  forall options h rules_,
    properties_colon_free h rules_ = true ->
    pairs_colon_free (occurrences_in options h rules_).
Proof.
  intros options h rules_ H e He. unfold occurrences_in in He.
  apply in_flat_map in He. destruct He as [rule [Hr He]].
  apply in_flat_map in He. destruct He as [d [Hd He]].
  apply in_map_iff in Hd. destruct Hd as [x [<- Hx]].
  unfold properties_colon_free in H. rewrite forallb_forall in H.
  specialize (H rule Hr). rewrite forallb_forall in H. specialize (H x Hx).
  unfold occurrence_of, candidate_pair in He.
  destruct (type (deref h x)); [|contradiction].
  destruct (property (deref h x)) as [p|]; [|contradiction].
  destruct (_ && _); [|contradiction].
  destruct He as [<-|[]]. cbn. now apply Nat.eqb_eq.
Qed.

Section Extracted.
Variable options : Options.
Variable occs : list (string * (string * string)).
Hypothesis Hcf : pairs_colon_free occs.

Lemma contributor_colon_free :
  forall cv pv, In pv (contributors options occs cv) -> colon_free (fst pv).
Proof.
  intros cv pv H. unfold contributors in H. apply filter_In in H.
  destruct H as [H _]. apply distinct_In, in_map_iff in H.
  destruct H as [e [<- He]]. now apply Hcf.
Qed.

(** The best candidate of a group is the candidate of one of its
    contributors, and the group is set under the key of that pair. *)
Lemma group_best :
  forall e,
    In e (groups_now options occs) ->
    exists cv best,
      fst e = category_value_key cv /\
      snd e = map (candidate_for options occs) (contributors options occs cv) /\
      In best (contributors options occs cv) /\
      bestKey_of (snd e) = pair_key best /\
      exists rest,
        sort by_occurrences (snd e) = candidate_for options occs best :: rest.
Proof.
  intros e He.
  destruct (groups_now_entry options occs e He) as [cv [Hk [Hne Hg]]].
  destruct (sort by_occurrences (snd e)) as [|b rest] eqn:Es.
  { exfalso. apply Hne. apply (f_equal (@List.length _)) in Es.
    rewrite sort_length, Hg, length_map in Es.
    now apply length_zero_iff_nil. }
  assert (Hb : In b (snd e)).
  { apply (sort_In by_occurrences). rewrite Es. now left. }
  rewrite Hg in Hb. apply in_map_iff in Hb. destruct Hb as [best [<- Hbest]].
  exists cv, best. repeat split; try assumption.
  - unfold bestKey_of. rewrite Es. reflexivity.
  - exists rest. reflexivity.
Qed.

Lemma bestKeys_NoDup :
  NoDup (map (fun e => bestKey_of (snd e)) (groups_now options occs)).
Proof.
  apply NoDup_map_NoDup_ForallPairs.
  - intros e1 e2 H1 H2 E.
    destruct (group_best e1 H1) as [cv1 [b1 [K1 [G1 [B1 [Q1 _]]]]]].
    destruct (group_best e2 H2) as [cv2 [b2 [K2 [G2 [B2 [Q2 _]]]]]].
    rewrite Q1, Q2 in E.
    apply pair_key_inj in E;
      [|exact (contributor_colon_free _ _ B1)
       |exact (contributor_colon_free _ _ B2)].
    subst b2.
    assert (cv1 = cv2).
    { unfold contributors in B1, B2.
      apply filter_In in B1. apply filter_In in B2.
      destruct B1 as [_ B1]. destruct B2 as [_ B2].
      apply andb_prop in B1. apply andb_prop in B2.
      destruct B1 as [_ B1]. destruct B2 as [_ B2].
      unfold same_cv in B1, B2.
      destruct (cv_eq_dec (category_value b1) cv1); [|discriminate].
      destruct (cv_eq_dec (category_value b1) cv2); [|discriminate].
      congruence. }
    subst cv2. destruct e1, e2. cbn [fst snd] in *. congruence.
  - apply (NoDup_map_inv fst). apply groups_now_NoDup.
Qed.

(** The extracted variables of a new converter correspond one to one to
    the groups. *)
Lemma extracted_from_groups :
  exists added,
    fold_left extract_group (groups_now options occs) [] = added /\
    Forall2 made_from (groups_now options occs) added.
Proof.
  destruct (extract_fold (groups_now options occs) []) as [added [E F]].
  - intros e He. destruct (groups_now_entry options occs e He)
      as [cv [_ [Hne Hg]]].
    rewrite Hg. intros H. apply map_eq_nil in H. contradiction.
  - cbn [map_keys map app]. apply bestKeys_NoDup.
  - exists added. split; [exact E|exact F].
Qed.
End Extracted.

Lemma analyzeVariableCandidates_extracted :
  forall options h rules_ this,
    extractedVariables (analyzeVariableCandidates options h rules_ this) =
    extractedVariables this.
Proof.
  intros options h rules_ this. unfold analyzeVariableCandidates.
  destruct (fold_left _ _ _). reflexivity.
Qed.

(** [.a{color:#fff}.b{background-color:#fff}] *)
Definition white_twice_by_property : CssNode :=
  StyleSheet [Rule ".a" (Some [decl "color" "#fff"]);
              Rule ".b" (Some [decl "background-color" "#fff"])].



(** [.header{background-color:#007bff;padding:20px;border-radius:8px}
    .nav{background-color:#007bff;padding:20px;border-radius:4px}
    .button{background-color:#007bff;padding:10px;border-radius:4px}] *)
Definition repeated_values : CssNode :=
  StyleSheet
    [Rule ".header" (Some [decl "background-color" "#007bff";
                           decl "padding" "20px";
                           decl "border-radius" "8px"]);
     Rule ".nav" (Some [decl "background-color" "#007bff";
                        decl "padding" "20px";
                        decl "border-radius" "4px"]);
     Rule ".button" (Some [decl "background-color" "#007bff";
                           decl "padding" "10px";
                           decl "border-radius" "4px"])].

Example repeated_values_header :
  let (rules_, h) := extractRules default_options 0 repeated_values in
  variable_declarations default_cmp
    (extractVariables default_options
       (analyzeVariableCandidates default_options h rules_ new_instance)) =
    ["$color-primary-blue: #007bff;" ++ nl;
     "$p-20px: 20px;" ++ nl;
     "$rounded-4px: 4px;" ++ nl].
Proof.
  vm_compute. reflexivity.
Qed.


(** *** The BEM pattern never captures a modifier *)

Fixpoint all_tokens (s : string) : bool :=
  match s with
  | EmptyString => true
  | String c s' => is_token c && all_tokens s'
  end.

Section BemPattern.
(** No modifier group in the result. *)
Definition no_modifier (x : nat * captures) : Prop :=
  cap_get 3 (snd x) = None.

Definition tok : regex := Chr is_token.

Lemma rmatch_lit :
  forall (l : string) (i : nat) (s : string) (caps : captures)
         (k : cont (nat * captures)),
    rmatch (Lit l) i s caps k =
      if String.prefix l s
      then k (String.length l + i) (drop (String.length l) s) caps
      else None.
Proof.
  induction l as [|c l IH]; intros i s caps k; cbn [Lit rmatch].
  - destruct s; reflexivity.
  - destruct s as [|d s]; [reflexivity|]. cbn [String.prefix].
    unfold is_char. destruct (ascii_dec c d) as [->|N].
    + rewrite Ascii.eqb_refl, IH. cbn [String.length drop].
      now rewrite Nat.add_succ_r.
    + apply Ascii.eqb_neq in N. now rewrite N.
Qed.

Lemma prefix_drop :
  forall l s, String.prefix l s = true -> s = l ++ drop (String.length l) s.
Proof.
  induction l as [|c l IH]; intros s H.
  - destruct s; reflexivity.
  - destruct s as [|d s]; [discriminate|]. cbn [String.prefix] in H.
    destruct (ascii_dec c d) as [->|]; [|discriminate].
    cbn. f_equal. now apply IH.
Qed.

Lemma star_tok_step :
  forall (k : cont (nat * captures)) n i c s caps,
    star_loop (rmatch tok) k (S n) i (String c s) caps =
      if is_token c then
        match star_loop (rmatch tok) k n (S i) s caps with
        | Some x => Some x
        | None => k i (String c s) caps
        end
      else k i (String c s) caps.
Proof.
  intros k n i c s caps. cbn [star_loop]. unfold tok at 1. cbn [rmatch].
  destruct (is_token c); [|reflexivity].
  replace (Nat.eqb (S i) i) with false; [reflexivity|].
  symmetry. apply Nat.eqb_neq. lia.
Qed.

Lemma star_tok_end :
  forall (k : cont (nat * captures)) n i caps,
    star_loop (rmatch tok) k n i EmptyString caps = k i EmptyString caps.
Proof.
  intros k n i caps. destruct n; reflexivity.
Qed.

Section Greedy.
Variable k : cont (nat * captures).
Variable caps : captures.
Variable j : nat.

(** The continuation succeeds at the end of the input, with no
    modifier. *)
Hypothesis at_end :
  forall i, j <= i -> exists x, k i EmptyString caps = Some x /\ no_modifier x.

Lemma star_tok_total :
  forall s n i,
    j <= i -> all_tokens s = true -> String.length s < n ->
    star_loop (rmatch tok) k n i s caps <> None.
Proof.
  induction s as [|c s IH]; intros n i Hi Ht Hn.
  - rewrite star_tok_end. destruct (at_end i Hi) as [x [E _]]. congruence.
  - destruct n as [|n]; [cbn in Hn; lia|].
    rewrite star_tok_step. cbn in Ht. apply andb_prop in Ht.
    destruct Ht as [-> Ht].
    assert (H : star_loop (rmatch tok) k n (S i) s caps <> None).
    { apply IH; [lia|exact Ht|cbn in Hn; lia]. }
    destruct (star_loop (rmatch tok) k n (S i) s caps); congruence.
Qed.

Variable m : nat.

(** A success of the continuation with a modifier needs an input made of
    token characters only. *)
Hypothesis modifier_needs_tokens :
  forall i s x,
    j <= i -> String.length s <= m -> k i s caps = Some x ->
    no_modifier x \/ all_tokens s = true.

Lemma star_tok_no_modifier :
  forall s n i x,
    j <= i -> String.length s <= m -> String.length s < n ->
    star_loop (rmatch tok) k n i s caps = Some x -> no_modifier x.
Proof.
  induction s as [|c s IH]; intros n i x Hi Hm Hn E.
  - rewrite star_tok_end in E. destruct (at_end i Hi) as [y [Ey Hy]].
    congruence.
  - destruct n as [|n]; [cbn in Hn; lia|].
    rewrite star_tok_step in E. cbn in Hm, Hn.
    destruct (is_token c) eqn:Hc.
    + destruct (star_loop (rmatch tok) k n (S i) s caps) as [y|] eqn:Ei.
      * inversion E; subst y.
        apply (IH n (S i) x); [lia|lia|lia|exact Ei].
      * destruct (modifier_needs_tokens i (String c s) x Hi Hm E)
          as [H|H]; [exact H|].
        cbn in H. rewrite Hc in H. cbn in H. exfalso.
        apply (star_tok_total s n (S i)); [lia|exact H|lia|exact Ei].
    + destruct (modifier_needs_tokens i (String c s) x Hi Hm E)
        as [H|H]; [exact H|].
      cbn in H. rewrite Hc in H. discriminate.
Qed.

Lemma plus_tok_no_modifier :
  forall i s x,
    j <= S i -> String.length s <= S m ->
    rmatch (Plus tok) i s caps k = Some x -> no_modifier x.
Proof.
  intros i s x Hi Hm E. unfold Plus in E. cbn [rmatch] in E.
  unfold tok at 1 in E. cbn [rmatch] in E.
  destruct s as [|c s]; [discriminate|].
  destruct (is_token c); [|discriminate]. cbn in Hm.
  apply (star_tok_no_modifier s (S (String.length s)) (S i) x);
    [exact Hi|lia|lia|exact E].
Qed.

Lemma plus_tok_total :
  forall i s,
    j <= S i -> s <> EmptyString -> all_tokens s = true ->
    rmatch (Plus tok) i s caps k <> None.
Proof.
  intros i s Hi Hs Ht. unfold Plus. cbn [rmatch].
  unfold tok at 1. cbn [rmatch].
  destruct s as [|c s]; [congruence|]. cbn in Ht.
  apply andb_prop in Ht. destruct Ht as [-> Ht].
  apply star_tok_total; [exact Hi|exact Ht|lia].
Qed.
End Greedy.
End BemPattern.

Section BemParts.
(** [(?:--([a-zA-Z0-9-]+))?] *)
Definition modifier_part : regex :=
  Opt (Seq (Lit "--") (Group 3 (Plus tok))).

(** [[a-zA-Z0-9-]+(?:__)?] *)
Definition element_item : regex := Seq (Plus tok) (Opt (Lit "__")).

(** [(?:__((?:[a-zA-Z0-9-]+(?:__)?)+))?] *)
Definition element_part : regex :=
  Opt (Seq (Lit "__") (Group 2 (Plus element_item))).

Lemma advancedBemRegex_parts :
  advancedBemRegex =
    Seq Bol (Seq (Lit ".")
      (Seq (Group 1 (Plus tok))
        (Seq element_part (Seq modifier_part Eol)))).
Proof.
  reflexivity.
Qed.

Definition k_final : cont (nat * captures) := fun e _ c => Some (e, c).

(** The continuation after the element part: the modifier part and the
    end of the input. *)
Definition k_tail : cont (nat * captures) :=
  fun i s c => rmatch (Seq modifier_part Eol) i s c k_final.

Lemma star_tok_only_at_end :
  forall (k : cont (nat * captures)) (caps : captures),
    (forall i s x, k i s caps = Some x -> s = EmptyString) ->
    forall s n i x,
      star_loop (rmatch tok) k n i s caps = Some x -> all_tokens s = true.
Proof.
  intros k caps Hk. induction s as [|c s IH]; intros n i x E.
  - reflexivity.
  - destruct n as [|n].
    + cbn in E. apply Hk in E. discriminate.
    + rewrite star_tok_step in E. cbn. revert E. destruct (is_token c).
      * destruct (star_loop (rmatch tok) k n (S i) s caps) as [y|] eqn:Ei;
          intros E.
        -- cbn. exact (IH n (S i) y Ei).
        -- apply Hk in E. discriminate.
      * intros E. apply Hk in E. discriminate.
Qed.

Lemma plus_tok_only_at_end :
  forall (k : cont (nat * captures)) (caps : captures),
    (forall i s x, k i s caps = Some x -> s = EmptyString) ->
    forall i s x,
      rmatch (Plus tok) i s caps k = Some x ->
      all_tokens s = true /\ s <> EmptyString.
Proof.
  intros k caps Hk i s x E. unfold Plus in E. cbn [rmatch] in E.
  unfold tok at 1 in E. cbn [rmatch] in E.
  destruct s as [|c s]; [discriminate|].
  destruct (is_token c) eqn:Hc; [|discriminate].
  split; [|discriminate]. cbn. rewrite Hc. cbn.
  exact (star_tok_only_at_end k caps Hk s _ _ x E).
Qed.

Lemma all_tokens_app :
  forall a b, all_tokens (a ++ b) = all_tokens a && all_tokens b.
Proof.
  induction a as [|c a IH]; intros b; cbn.
  - reflexivity.
  - now rewrite IH, andb_assoc.
Qed.

Lemma k_tail_end : forall i c, k_tail i EmptyString c = Some (i, c).
Proof.
  reflexivity.
Qed.

(** The tail succeeds either at the end of the input, leaving the
    captures as they are, or on an input made of token characters. *)
Lemma k_tail_cases :
  forall i s c x,
    k_tail i s c = Some x ->
    (s = EmptyString /\ x = (i, c)) \/
    (all_tokens s = true /\ s <> EmptyString).
Proof.
  intros i s c x E. unfold k_tail, modifier_part, Opt in E.
  cbn [rmatch] in E.
  destruct (rmatch (Lit "--") i s c _) as [y|] eqn:Em.
  - right. rewrite rmatch_lit in Em.
    destruct (String.prefix "--" s) eqn:Hp; [|discriminate].
    apply plus_tok_only_at_end in Em.
    + destruct Em as [Ht _]. rewrite (prefix_drop _ _ Hp).
      split; [|discriminate]. rewrite all_tokens_app, Ht. reflexivity.
    + intros i' s' x'. destruct s'; [reflexivity|discriminate].
  - left. destruct s as [|d s]; [|discriminate].
    inversion E. auto.
Qed.
End BemParts.

Section ElementLoop.
Variable caps : captures.
Variable kg : cont (nat * captures).

Hypothesis kg_end :
  forall i, exists x, kg i EmptyString caps = Some x /\ no_modifier x.

Hypothesis kg_cases :
  forall i s x,
    kg i s caps = Some x ->
    no_modifier x \/ (all_tokens s = true /\ s <> EmptyString).

Lemma plus_tok_nil :
  forall i (k : cont (nat * captures)),
    rmatch (Plus tok) i EmptyString caps k = None.
Proof.
  reflexivity.
Qed.

Lemma rmatch_opt_underscores :
  forall i s c (k : cont (nat * captures)),
    rmatch (Opt (Lit "__")) i s c k =
      match (if String.prefix "__" s then k (2 + i) (drop 2 s) c else None)
      with
      | Some x => Some x
      | None => k i s c
      end.
Proof.
  intros i s c k. unfold Opt. cbn [rmatch]. rewrite rmatch_lit. reflexivity.
Qed.

Lemma drop_length :
  forall n s, String.length (drop n s) <= String.length s.
Proof.
  induction n as [|n IH]; intros s; destruct s as [|c s]; cbn; try lia.
  specialize (IH s). lia.
Qed.

Lemma item_loop_end :
  forall n i,
    exists x,
      star_loop (rmatch element_item) kg n i EmptyString caps = Some x /\
      no_modifier x.
Proof.
  intros n i. destruct n as [|n]; cbn [star_loop].
  - apply kg_end.
  - unfold element_item at 1. cbn [rmatch]. rewrite plus_tok_nil.
    apply kg_end.
Qed.

(** The continuation of the token run of an item inside the loop: the
    optional [__], then the next iteration or the exit. *)
Definition after_item (n i0 : nat) : cont (nat * captures) :=
  fun i3 s3 c3 =>
    rmatch (Opt (Lit "__")) i3 s3 c3
      (fun i' s' c' =>
         if Nat.eqb i' i0 then None
         else star_loop (rmatch element_item) kg n i' s' c').

Lemma item_loop_no_modifier :
  forall n i s x,
    String.length s < n ->
    star_loop (rmatch element_item) kg n i s caps = Some x ->
    no_modifier x.
Proof.
  induction n as [|n IH]; intros i s x Hn E; [lia|].
  cbn [star_loop] in E. unfold element_item at 1 in E. cbn [rmatch] in E.
  assert (Hend : forall i3, S i <= i3 ->
            exists y, after_item n i i3 EmptyString caps = Some y /\
                      no_modifier y).
  { intros i3 Hi3. unfold after_item. rewrite rmatch_opt_underscores.
    cbn [String.prefix].
    replace (Nat.eqb i3 i) with false by (symmetry; apply Nat.eqb_neq; lia).
    apply item_loop_end. }
  fold (after_item n i) in E.
  destruct (rmatch (Plus tok) i s caps (after_item n i)) as [y|] eqn:Ep.
  - inversion E; subst y.
    destruct s as [|c s]; [discriminate|]. cbn in Hn.
    apply (plus_tok_no_modifier (after_item n i) caps (S i) Hend
             (String.length s)) with (i := i) (s := String c s);
      [|lia|cbn; lia|exact Ep].
    intros i3 s3 y Hi3 Hs3 Ey. left.
    unfold after_item in Ey. rewrite rmatch_opt_underscores in Ey.
    destruct (String.prefix "__" s3).
    + replace (Nat.eqb (2 + i3) i) with false in Ey
        by (symmetry; apply Nat.eqb_neq; lia).
      destruct (star_loop (rmatch element_item) kg n (2 + i3) (drop 2 s3) caps)
        as [z|] eqn:Ez.
      * inversion Ey; subst z.
        apply (IH (2 + i3) (drop 2 s3) y); [|exact Ez].
        pose proof (drop_length 2 s3). lia.
      * replace (Nat.eqb i3 i) with false in Ey
          by (symmetry; apply Nat.eqb_neq; lia).
        apply (IH i3 s3 y); [lia|exact Ey].
    + replace (Nat.eqb i3 i) with false in Ey
        by (symmetry; apply Nat.eqb_neq; lia).
      apply (IH i3 s3 y); [lia|exact Ey].
  - destruct (kg_cases i s x E) as [H|[Ht Hs]]; [exact H|].
    exfalso.
    apply (plus_tok_total (after_item n i) caps (S i) Hend i s);
      [lia|exact Hs|exact Ht|exact Ep].
Qed.
End ElementLoop.

Lemma elements_no_modifier :
  forall i s caps x,
    cap_get 3 caps = None ->
    rmatch (Group 2 (Plus element_item)) i s caps k_tail = Some x ->
    no_modifier x.
Proof.
  intros i s caps x Hc E. cbn [rmatch] in E. unfold Plus at 1 in E.
  cbn [rmatch] in E. unfold element_item at 1 in E. cbn [rmatch] in E.
  set (kg := fun (i' : nat) (s' : string) (c' : captures) =>
               k_tail i' s' ((2, take (i' - i) s) :: c')) in *.
  assert (kg_end : forall i0, exists y,
            kg i0 EmptyString caps = Some y /\ no_modifier y).
  { intros i0. eexists. split; [apply k_tail_end|]. exact Hc. }
  assert (kg_cases : forall i0 s0 y,
            kg i0 s0 caps = Some y ->
            no_modifier y \/ (all_tokens s0 = true /\ s0 <> EmptyString)).
  { intros i0 s0 y Ey. unfold kg in Ey.
    destruct (k_tail_cases _ _ _ _ Ey) as [[_ ->]|H]; [left; exact Hc|now right]. }
  revert E.
  apply (plus_tok_no_modifier _ caps 0) with (m := String.length s);
    [| |lia|lia].
  - intros i3 _. rewrite rmatch_opt_underscores. cbn [String.prefix].
    apply (item_loop_end caps kg kg_end).
  - intros i3 s3 y _ _ Ey. left. rewrite rmatch_opt_underscores in Ey.
    destruct (String.prefix "__" s3).
    + cbn [rmatch] in Ey.
      destruct (star_loop (rmatch element_item) kg
                  (S (String.length (drop 2 s3))) (2 + i3) (drop 2 s3) caps)
        as [z|] eqn:Ez.
      * inversion Ey; subst z.
        apply (item_loop_no_modifier caps kg kg_end kg_cases _ _ _ _
                 (Nat.lt_succ_diag_r _) Ez).
      * apply (item_loop_no_modifier caps kg kg_end kg_cases _ _ _ _
                 (Nat.lt_succ_diag_r _) Ey).
    + cbn [rmatch] in Ey.
      apply (item_loop_no_modifier caps kg kg_end kg_cases _ _ _ _
               (Nat.lt_succ_diag_r _) Ey).
Qed.

(** A match of the BEM pattern never captures its third group. *)
Lemma advancedBemRegex_no_modifier :
  forall i s e c,
    match_at advancedBemRegex i s = Some (e, c) -> cap_get 3 c = None.
Proof.
  intros i s e c E. rewrite advancedBemRegex_parts in E.
  unfold match_at in E. cbn [rmatch] in E.
  destruct (Nat.eqb i 0); [|discriminate].
  rewrite rmatch_lit in E.
  destruct (String.prefix "." s); [|discriminate].
  change (cap_get 3 (snd (e, c)) = None). revert E.
  apply (plus_tok_no_modifier _ [] 0) with (m := String.length (drop 1 s));
    [| |lia|cbn; lia].
  - intros i' _. eexists. split; reflexivity.
  - intros i' s' y _ _ Ey. unfold element_part, Opt in Ey.
    cbn [rmatch] in Ey.
    match type of Ey with
    | match ?t with _ => _ end = _ => destruct t as [z|] eqn:Ez
    end.
    + inversion Ey; subst z. left. rewrite rmatch_lit in Ez.
      destruct (String.prefix "__" s'); [|discriminate].
      apply elements_no_modifier
        with (i := 2 + i') (s := drop 2 s')
             (caps := [(1, take (i' - (1 + i)) (drop 1 s))]);
        [reflexivity|exact Ez].
    + destruct (k_tail_cases _ _ _ _ Ey) as [[_ ->]|[H _]];
        [left; reflexivity|now right].
Qed.

Lemma search_captures :
  forall (r : regex) (P : captures -> Prop),
    (forall i s e c, match_at r i s = Some (e, c) -> P c) ->
    forall s i b e c, search r i s = Some (b, e, c) -> P c.
Proof.
  intros r P H. induction s as [|d s IH]; intros i b e c E; cbn in E.
  - destruct (match_at r i EmptyString) as [[e' c']|] eqn:Em;
      [|discriminate].
    inversion E; subst. exact (H _ _ _ _ Em).
  - destruct (match_at r i (String d s)) as [[e' c']|] eqn:Em.
    + inversion E; subst. exact (H _ _ _ _ Em).
    + exact (IH _ _ _ _ E).
Qed.

(** The selector with its pseudo and attribute parts removed, as
    [parseAdvancedBEM] matches it. *)
Definition cleanSelector_of (selector_ : string) : string :=
  replace_g attribute_g_re EmptyString
    (replace_g pseudo_g_re EmptyString selector_).




(** *** Repeated properties in one block, for plain flags

    What the loop over a rule block computes when no declaration of the
    block carries a hack identifier such as [!ie]: of the declarations
    with one property and one flag the last is kept, and the kept
    declarations are in source order. *)

(** Property, [important === true], value. *)
Definition Slot : Type := (string * bool * string)%type.

Definition same_slot (a b : Slot) : bool :=
  String.eqb (fst (fst a)) (fst (fst b))
  && Bool.eqb (snd (fst a)) (snd (fst b)).

Fixpoint last_wins (l : list Slot) : list Slot :=
  match l with
  | [] => []
  | d :: l' => if existsb (same_slot d) l' then last_wins l'
               else d :: last_wins l'
  end.

(** The declarations of a block, in order. *)
Fixpoint block_slots (children : list CssNode) : list Slot :=
  match children with
  | [] => []
  | DeclarationNode imp p v :: rest =>
      (p, imp_is_true imp, v) :: block_slots rest
  | _ :: rest => block_slots rest
  end.

Fixpoint plain_flags (children : list CssNode) : bool :=
  match children with
  | [] => true
  | DeclarationNode (ImpIdent _) _ _ :: _ => false
  | _ :: rest => plain_flags rest
  end.

Definition slot_of (h : Heap) (r : Ref) : Slot :=
  (property_text (deref h r), flag (important (deref h r)),
   value (deref h r)).

Definition slot_key (x : Slot) : string :=
  fst (fst x) ++ ":" ++
  (if snd (fst x) then "!important" else EmptyString).

Lemma same_slot_key :
  forall a b, same_slot a b = true -> slot_key a = slot_key b.
Proof.
  intros [[p b] v] [[q c] w] H. unfold same_slot in H. cbn in H.
  apply andb_prop in H. destruct H as [Hp Hb].
  apply String.eqb_eq in Hp. apply Bool.eqb_prop in Hb. now subst.
Qed.

Lemma filter_none :
  forall (A : Type) (f : A -> bool) (l : list A),
    (forall x, In x l -> f x = false) -> filter f l = [].
Proof.
  intros A f l. induction l as [|x l IH]; cbn; intros H.
  - reflexivity.
  - rewrite (H x (or_introl eq_refl)). apply IH. intros y Hy. apply H.
    now right.
Qed.

Lemma filter_all :
  forall (A : Type) (f : A -> bool) (l : list A),
    (forall x, In x l -> f x = true) -> filter f l = l.
Proof.
  intros A f l. induction l as [|x l IH]; cbn; intros H.
  - reflexivity.
  - rewrite (H x (or_introl eq_refl)). f_equal. apply IH. intros y Hy.
    apply H. now right.
Qed.

Lemma last_wins_incl : forall l x, In x (last_wins l) -> In x l.
Proof.
  induction l as [|d l IH]; cbn; intros x H.
  - contradiction.
  - destruct (existsb (same_slot d) l).
    + right. now apply IH.
    + destruct H as [H|H]; [now left|right; now apply IH].
Qed.

Lemma last_wins_snoc :
  forall l d,
    last_wins (l ++ [d]) =
      (filter (fun x => negb (same_slot x d)) (last_wins l) ++ [d])%list.
Proof.
  induction l as [|a l IH]; intros d; cbn.
  - reflexivity.
  - rewrite existsb_app. cbn. rewrite orb_false_r.
    destruct (existsb (same_slot a) l); cbn.
    + apply IH.
    + destruct (same_slot a d); cbn; now rewrite IH.
Qed.

Lemma same_slot_trans :
  forall a b c, same_slot a b = true -> same_slot b c = true ->
                same_slot a c = true.
Proof.
  intros a b c H1 H2. unfold same_slot in *.
  apply andb_prop in H1. apply andb_prop in H2.
  destruct H1 as [P1 B1]. destruct H2 as [P2 B2].
  apply String.eqb_eq in P1. apply String.eqb_eq in P2.
  apply Bool.eqb_prop in B1. apply Bool.eqb_prop in B2.
  rewrite P1, P2, B1, B2, String.eqb_refl, Bool.eqb_reflx. reflexivity.
Qed.

Lemma same_slot_sym : forall a b, same_slot a b = same_slot b a.
Proof.
  intros a b. unfold same_slot.
  rewrite (String.eqb_sym (fst (fst a))).
  destruct (snd (fst a)), (snd (fst b)); reflexivity.
Qed.

Lemma last_wins_one_per_slot :
  forall l d,
    List.length (filter (fun x => same_slot x d) (last_wins l)) <= 1.
Proof.
  induction l as [|a l IH]; intros d; cbn.
  - lia.
  - destruct (existsb (same_slot a) l) eqn:Ex; [apply IH|].
    cbn. destruct (same_slot a d) eqn:Ead; [|apply IH].
    cbn. rewrite filter_none; [cbn; lia|].
    intros x Hx. apply last_wins_incl in Hx.
    destruct (same_slot x d) eqn:Exd; [|reflexivity].
    exfalso. rewrite same_slot_sym in Exd.
    pose proof (same_slot_trans _ _ _ Ead Exd) as Hax.
    assert (existsb (same_slot a) l = true).
    { apply existsb_exists. exists x. split; assumption. }
    congruence.
Qed.

(** Removing the first element that satisfies [q], when at most one
    does, removes every such element. *)
Lemma remove_first_filter :
  forall (A : Type) (q : A -> bool) (l : list A),
    List.length (filter q l) <= 1 ->
    match findIndex q l with
    | Some i => splice1 i l
    | None => l
    end = filter (fun x => negb (q x)) l.
Proof.
  intros A q l. induction l as [|x l IH]; cbn; intros H.
  - reflexivity.
  - destruct (q x) eqn:Eq; cbn in *.
    + symmetry. apply filter_all. intros y Hy.
      destruct (q y) eqn:Ey; [|reflexivity].
      exfalso.
      assert (In y (filter q l)) by (apply filter_In; now split).
      destruct (filter q l); [contradiction|cbn in H; lia].
    + specialize (IH H). destruct (findIndex q l); cbn; now rewrite <- IH.
Qed.

Lemma deref_alloc_old :
  forall h d r, r < List.length h -> deref (h ++ [d])%list r = deref h r.
Proof.
  intros h d r H. unfold deref. now rewrite app_nth1.
Qed.

Lemma deref_alloc_new :
  forall h d, deref (h ++ [d])%list (List.length h) = d.
Proof.
  intros h d. unfold deref. rewrite app_nth2 by lia.
  now rewrite Nat.sub_diag.
Qed.

(** The state of the loop after the declarations [done] of the block. *)
Record block_state (done : list Slot) (seen : list string)
       (decls : list Ref) (h : Heap) : Prop := {
  kept : map (slot_of h) decls = last_wins done;
  keys_seen : forall x, In x done -> str_in (slot_key x) seen = true;
  allocated :
    forall r, In r decls ->
              r < List.length h /\
              is_declaration (deref h r) = true /\
              property (deref h r) <> None /\
              important (deref h r) <> None
}.

Lemma slot_test :
  forall h r p b v,
    is_declaration (deref h r) = true ->
    property (deref h r) <> None ->
    important (deref h r) <> None ->
    is_declaration (deref h r) && opt_eqb (property (deref h r)) p
    && flag_eqb (important (deref h r)) b =
    same_slot (slot_of h r) (p, b, v).
Proof.
  intros h r p b v Hd Hp Hi. unfold slot_of, same_slot, property_text.
  rewrite Hd. cbn.
  destruct (property (deref h r)) as [q|]; [|congruence].
  destruct (important (deref h r)) as [c|]; [|congruence].
  cbn. destruct c; reflexivity.
Qed.

Lemma rule_declarations_last_wins :
  forall children done seen decls h,
    plain_flags children = true ->
    block_state done seen decls h ->
    map (slot_of (fst (rule_declarations children seen decls h)))
        (snd (rule_declarations children seen decls h)) =
      last_wins (done ++ block_slots children).
Proof.
  induction children as [|node children IH];
    intros done seen decls h Hplain St.
  - cbn. rewrite app_nil_r. apply (kept _ _ _ _ St).
  - destruct node as [cs|name prelude blk|sel blk|imp p v|text|text];
      try (cbn in *; now apply IH).
    assert (Himp : imp_truthy imp = imp_is_true imp /\
                   plain_flags children = true).
    { destruct imp; cbn in *; auto. discriminate. }
    destruct Himp as [Htruthy Hrest].
    cbn [rule_declarations block_slots]. rewrite Htruthy.
    set (dv := (p, imp_is_true imp, v) : Slot).
    change (p ++ ":" ++ (if imp_is_true imp then "!important"
                          else EmptyString)) with (slot_key dv).
    set (q := fun r : Ref =>
                is_declaration (deref h r) && opt_eqb (property (deref h r)) p
                && flag_eqb (important (deref h r)) (imp_is_true imp)).
    assert (Hq : forall r, In r decls -> q r = same_slot (slot_of h r) dv).
    { intros r Hr. destruct (allocated _ _ _ _ St r Hr) as [_ [Hd [Hp Hi]]].
      unfold q, dv. now apply slot_test. }
    set (decls1 := if str_in (slot_key dv) seen
                   then match findIndex q decls with
                        | Some existingIndex => splice1 existingIndex decls
                        | None => decls
                        end
                   else decls).
    assert (H1 : decls1 = filter (fun r => negb (q r)) decls).
    { unfold decls1. destruct (str_in (slot_key dv) seen) eqn:Es.
      - apply remove_first_filter.
        rewrite (filter_ext_in _ _ _ Hq).
        rewrite <- (length_map (slot_of h)).
        rewrite <- (filter_map_swap (fun x => same_slot x dv) (slot_of h)).
        rewrite (kept _ _ _ _ St). apply last_wins_one_per_slot.
      - symmetry. apply filter_all. intros r Hr. rewrite (Hq r Hr).
        destruct (same_slot (slot_of h r) dv) eqn:Esame; [|reflexivity].
        exfalso. apply same_slot_key in Esame.
        assert (Hin : In (slot_of h r) done).
        { apply last_wins_incl. rewrite <- (kept _ _ _ _ St).
          now apply in_map. }
        pose proof (keys_seen _ _ _ _ St _ Hin) as Hk.
        rewrite Esame in Hk. congruence. }
    unfold alloc. cbn [fst snd].
    specialize (IH (done ++ [dv])%list (slot_key dv :: seen)
                   (decls1 ++ [List.length h])%list
                   (h ++ [new_declaration imp p v])%list Hrest).
    rewrite <- app_assoc in IH. apply IH. clear IH.
    assert (Hold : forall r, In r decls1 -> In r decls).
    { intros r Hr. rewrite H1 in Hr. now apply filter_In in Hr. }
    constructor.
    + rewrite map_app. cbn [map]. rewrite last_wins_snoc. f_equal.
      * rewrite <- (kept _ _ _ _ St).
        rewrite (filter_map_swap (fun x => negb (same_slot x dv)) (slot_of h)).
        rewrite (filter_ext_in
                   (fun a => negb (same_slot (slot_of h a) dv))
                   (fun r => negb (q r)) decls)
          by (intros r Hr; now rewrite (Hq r Hr)).
        rewrite <- H1.
        apply map_ext_in. intros r Hr. unfold slot_of.
        rewrite deref_alloc_old; [reflexivity|].
        apply (allocated _ _ _ _ St). exact (Hold r Hr).
      * unfold slot_of. rewrite deref_alloc_new. unfold dv. cbn.
        destruct (imp_is_true imp); reflexivity.
    + intros x Hx. apply in_app_or in Hx. cbn [str_in existsb].
      destruct Hx as [Hx|[<-|[]]].
      * pose proof (keys_seen _ _ _ _ St _ Hx) as Hk.
        unfold str_in in Hk. rewrite Hk. apply orb_true_r.
      * now rewrite String.eqb_refl.
    + intros r Hr. apply in_app_or in Hr. rewrite length_app. cbn [List.length].
      destruct Hr as [Hr|[<-|[]]].
      * destruct (allocated _ _ _ _ St r (Hold r Hr)) as [Hl [Hd [Hp Hi]]].
        rewrite deref_alloc_old by exact Hl.
        repeat split; try assumption. lia.
      * rewrite deref_alloc_new. cbn. repeat split; try discriminate. lia.
Qed.

(** X7.  For a rule block whose declarations carry plain flags only
    ([!important] or none, no hack identifier), the list that the loop
    of [extractRules] builds holds, of the declarations with one property
    and one flag, the last, and the kept declarations are in source
    order. *)
Lemma plain_block_last_wins :
  forall children h,
    plain_flags children = true ->
    map (slot_of (fst (rule_declarations children [] [] h)))
        (snd (rule_declarations children [] [] h)) =
      last_wins (block_slots children).
Proof.
  intros children h H.
  apply (rule_declarations_last_wins children [] [] [] h H).
  constructor.
  - reflexivity.
  - intros x [].
  - intros r [].
Qed.

Lemma plain_block_last_wins_witness :
  let children :=
    [decl "color" "red"; DeclarationNode ImpTrue "color" "black";
     decl "margin" "0"; decl "color" "blue"] in
  plain_flags children = true /\
  last_wins (block_slots children) =
    [("color", true, "black"); ("margin", false, "0");
     ("color", false, "blue")] /\
  map (slot_of (fst (rule_declarations children [] [] [])))
      (snd (rule_declarations children [] [] [])) =
    last_wins (block_slots children).
Proof.
  split; [reflexivity|]. split; [reflexivity|].
  apply (plain_block_last_wins
           [decl "color" "red"; DeclarationNode ImpTrue "color" "black";
            decl "margin" "0"; decl "color" "blue"] []).
  reflexivity.
Defined.

(** *** Variable rewriting when no variable name is itself a value

    What [replaceValuesWithVariables] does to the store when no name in
    the lookup map is itself a key of the map: a declaration object that
    some rule refers to is rewritten once, whatever the number of rules
    that share it. *)

Lemma store_length :
  forall h r d, List.length (store h r d) = List.length h.
Proof.
  induction h as [|x h IH]; intros r d; cbn.
  - reflexivity.
  - destruct r; cbn; [reflexivity|now rewrite IH].
Qed.

Lemma deref_store_same :
  forall h r d, r < List.length h -> deref (store h r d) r = d.
Proof.
  unfold deref. induction h as [|x h IH]; intros r d H; cbn in *.
  - lia.
  - destruct r; cbn; [reflexivity|]. apply IH. lia.
Qed.

Lemma deref_store_other :
  forall h r r' d, r' <> r -> deref (store h r d) r' = deref h r'.
Proof.
  unfold deref. induction h as [|x h IH]; intros r r' d H; cbn.
  - reflexivity.
  - destruct r, r'; cbn; try reflexivity; try congruence.
    apply IH. congruence.
Qed.

(** Every entry of the lookup map comes from an extracted variable. *)
Lemma valueToVariable_of_sound :
  forall extracted value_ name,
    map_get value_ (valueToVariable_of extracted) = Some name ->
    exists variable,
      In variable (map_values extracted) /\
      v_value variable = value_ /\ v_name variable = name.
Proof.
  intros extracted value_ name. unfold valueToVariable_of.
  assert (G : forall l m,
             (forall v n, map_get v m = Some n ->
                          exists x, In x (map_values extracted) /\
                                    v_value x = v /\ v_name x = n) ->
             incl l (map_values extracted) ->
             forall v n,
               map_get v (fold_left
                            (fun m variable =>
                               map_set (v_value variable) (v_name variable) m)
                            l m) = Some n ->
               exists x, In x (map_values extracted) /\
                         v_value x = v /\ v_name x = n).
  { induction l as [|x l IH]; intros m Hm Hl v n; cbn [fold_left].
    - apply Hm.
    - apply IH.
      + intros v' n' E.
        destruct (string_dec v' (v_value x)) as [->|N].
        * rewrite map_get_set_same in E. inversion E; subst.
          exists x. split; [apply Hl; now left|auto].
        * rewrite map_get_set_other in E by exact N. now apply Hm.
      + intros y Hy. apply Hl. now right. }
  apply (G (map_values extracted) []).
  - intros v n E. discriminate.
  - apply incl_refl.
Qed.

Section RewriteOnce.
Variable options : Options.
Variable valueToVariable : JsMap string.

(** No name in the map is a key of the map. *)
Hypothesis no_chain :
  forall value_ name,
    map_get value_ valueToVariable = Some name ->
    map_get name valueToVariable = None.

(** The name that replaces the value of a declaration, if any. *)
Definition replacement (d : Declaration) : option string :=
  match type d, property d with
  | declaration, Some prop =>
      if truthy prop && truthy (value d)
         && negb (String.eqb prop "@keyframes-block") then
        match map_get (value d) valueToVariable with
        | Some variableName =>
            if truthy variableName
               && shouldExtractCategory options
                    (categorizeValue prop (value d))
            then Some variableName
            else None
        | None => None
        end
      else None
  | _, _ => None
  end.

Definition rewritten (d : Declaration) : Declaration :=
  match replacement d with
  | Some variableName =>
      {| type := type d; property := property d; value := variableName;
         important := important d; originalValue := Some (value d) |}
  | None => d
  end.

Lemma replace_declaration_spec :
  forall h r,
    replace_declaration options valueToVariable h r =
      match replacement (deref h r) with
      | Some _ => store h r (rewritten (deref h r))
      | None => h
      end.
Proof.
  intros h r. unfold replace_declaration, rewritten, replacement.
  destruct (type (deref h r)); [|reflexivity].
  destruct (property (deref h r)) as [prop|]; [|reflexivity].
  destruct (truthy prop && truthy (value (deref h r))); [|reflexivity].
  cbn [andb].
  destruct (String.eqb prop "@keyframes-block"); [reflexivity|]. cbn [negb].
  destruct (map_get (value (deref h r)) valueToVariable) as [name|];
    [|reflexivity].
  destruct (truthy name); [|reflexivity]. cbn [andb].
  destruct (shouldExtractCategory options _); reflexivity.
Qed.

Lemma rewritten_stable :
  forall d, replacement (rewritten d) = None \/ replacement d = None.
Proof.
  intros d. unfold rewritten.
  destruct (replacement d) as [name|] eqn:E; [left|now right].
  unfold replacement in *. cbn.
  destruct (type d); [|discriminate].
  destruct (property d) as [prop|]; [|discriminate].
  destruct (truthy prop && truthy (value d)
            && negb (String.eqb prop "@keyframes-block")); [|discriminate].
  destruct (map_get (value d) valueToVariable) as [n|] eqn:Eg;
    [|discriminate].
  destruct (truthy n && _); [|discriminate].
  inversion E; subst n. rewrite (no_chain _ _ Eg).
  destruct (truthy prop && truthy name
            && negb (String.eqb prop "@keyframes-block")); reflexivity.
Qed.

(** The store after the visits [refs], in terms of the store [h0] before
    the first: an object that was visited holds its rewritten form, the
    others are as before. *)
Lemma replace_fold :
  forall refs h0 h,
    List.length h = List.length h0 ->
    forall done,
      (forall r, r < List.length h0 ->
                 deref h r = if existsb (Nat.eqb r) done
                             then rewritten (deref h0 r) else deref h0 r) ->
      (forall r, In r refs -> r < List.length h0) ->
      let h' := fold_left (replace_declaration options valueToVariable)
                          refs h in
      List.length h' = List.length h0 /\
      forall r, r < List.length h0 ->
                deref h' r = if existsb (Nat.eqb r) (done ++ refs)
                             then rewritten (deref h0 r) else deref h0 r.
Proof.
  induction refs as [|x refs IH]; intros h0 h Hlen done Hinv Hrefs h'.
  - unfold h'. cbn. rewrite app_nil_r. split; assumption.
  - unfold h'. cbn [fold_left].
    assert (Hx : x < List.length h0) by (apply Hrefs; now left).
    replace (done ++ x :: refs)%list with ((done ++ [x]) ++ refs)%list
      by (rewrite <- app_assoc; reflexivity).
    apply IH.
    + rewrite replace_declaration_spec.
      destruct (replacement (deref h x)); [|exact Hlen].
      now rewrite store_length.
    + intros r Hr. rewrite existsb_app. cbn [existsb]. rewrite orb_false_r.
      rewrite replace_declaration_spec.
      destruct (Nat.eqb r x) eqn:Erx.
      * apply Nat.eqb_eq in Erx. subst r. rewrite orb_true_r.
        pose proof (Hinv x Hx) as Hd.
        destruct (existsb (Nat.eqb x) done).
        -- destruct (rewritten_stable (deref h0 x)) as [E|E].
           ++ rewrite Hd at 1. rewrite E. exact Hd.
           ++ assert (Er : rewritten (deref h0 x) = deref h0 x)
                by (unfold rewritten; now rewrite E).
              rewrite Er in *. rewrite Hd at 1. rewrite E. exact Hd.
        -- rewrite Hd at 1.
           destruct (replacement (deref h0 x)) eqn:E.
           ++ rewrite deref_store_same by (rewrite Hlen; exact Hx).
              now rewrite Hd.
           ++ rewrite Hd. unfold rewritten. now rewrite E.
      * rewrite orb_false_r.
        assert (N : r <> x) by (now apply Nat.eqb_neq).
        destruct (replacement (deref h x)).
        -- rewrite deref_store_other by exact N. now apply Hinv.
        -- now apply Hinv.
    + intros r Hr. apply Hrefs. now right.
Qed.

(** The rules' declaration lists are visited rule by rule. *)
Lemma replaceValuesWithVariables_flat :
  forall rules_ h,
    fold_left
      (fun h0 rule =>
         fold_left (replace_declaration options valueToVariable)
                   (declarations rule) h0)
      rules_ h =
    fold_left (replace_declaration options valueToVariable)
              (flat_map declarations rules_) h.
Proof.
  induction rules_ as [|rule rules_ IH]; intros h; cbn [fold_left flat_map].
  - reflexivity.
  - now rewrite fold_left_app, IH.
Qed.
End RewriteOnce.

(** X8.  When no variable name is itself an extracted value, every
    declaration object that a rule refers to is rewritten exactly once,
    however many rules share it, and the other objects are untouched.
    The rewrite replaces the value by the name the lookup map gives for
    it and keeps the literal in [originalValue]; a declaration with no
    entry in the map, with a disabled category or with the property
    [@keyframes-block] stays as it is. *)
Lemma replaceValuesWithVariables_without_chains :
  forall options this rules_ h,
    let valueToVariable := valueToVariable_of (extractedVariables this) in
    (forall value_ name,
        map_get value_ valueToVariable = Some name ->
        map_get name valueToVariable = None) ->
    (forall r, In r (flat_map declarations rules_) -> r < List.length h) ->
    let h' := replaceValuesWithVariables options this rules_ h in
    List.length h' = List.length h /\
    forall r,
      r < List.length h ->
      deref h' r =
        if existsb (Nat.eqb r) (flat_map declarations rules_)
        then rewritten options valueToVariable (deref h r)
        else deref h r.
Proof.
  intros options this rules_ h valueToVariable Hchain Hrefs h'.
  unfold h', replaceValuesWithVariables.
  fold valueToVariable.
  rewrite replaceValuesWithVariables_flat.
  apply (replace_fold options valueToVariable Hchain
                      (flat_map declarations rules_) h h eq_refl []).
  - intros r Hr. reflexivity.
  - exact Hrefs.
Qed.

Lemma replaceValuesWithVariables_without_chains_witness :
  let rules_ := fst (extractRules default_options 0 two_whites) in
  let h := snd (extractRules default_options 0 two_whites) in
  let this :=
    extractVariables default_options
      (analyzeVariableCandidates default_options h rules_ new_instance) in
  let h' := replaceValuesWithVariables default_options this rules_ h in
  valueToVariable_of (extractedVariables this) = [("#fff", "$color-fff")] /\
  flat_map declarations rules_ = [0; 1; 2] /\
  (List.length h' = List.length h /\
   forall r,
     r < List.length h ->
     deref h' r =
       if existsb (Nat.eqb r) (flat_map declarations rules_)
       then rewritten default_options
              (valueToVariable_of (extractedVariables this)) (deref h r)
       else deref h r).
Proof.
  split; [reflexivity|]. split; [reflexivity|].
  apply (replaceValuesWithVariables_without_chains default_options
           (extractVariables default_options
              (analyzeVariableCandidates default_options
                 (snd (extractRules default_options 0 two_whites))
                 (fst (extractRules default_options 0 two_whites))
                 new_instance))
           (fst (extractRules default_options 0 two_whites))
           (snd (extractRules default_options 0 two_whites))).
  - intros value_ name.
    change (valueToVariable_of _) with [("#fff", "$color-fff")].
    cbn [map_get]. destruct (String.eqb value_ "#fff"); [|discriminate].
    intros E. inversion E. reflexivity.
  - change (flat_map declarations _) with [0; 1; 2].
    change (List.length _) with 3.
    intros r [<-|[<-|[<-|[]]]]; lia.
Defined.

(* ------------------------------------------------------------------ *)
(** ** Further properties of the conversion *)

(** *** [trim] *)

Lemma trimStart_head :
  forall s,
    match trimStart s with
    | String c _ => is_space c = false
    | EmptyString => True
    end.
Proof.
  induction s as [|c s IH]; cbn [trimStart]; [exact I|].
  destruct (is_space c) eqn:E; [exact IH|exact E].
Qed.

Lemma trimEnd_cons :
  forall c s, is_space c = false -> trimEnd (String c s) = String c (trimEnd s).
Proof.
  intros c s H. cbn [trimEnd]. rewrite H. now destruct (trimEnd s).
Qed.

Lemma trimEnd_idempotent : forall s, trimEnd (trimEnd s) = trimEnd s.
Proof.
  induction s as [|c s IH]; [reflexivity|]. cbn [trimEnd].
  destruct (trimEnd s) as [|d t] eqn:E.
  - destruct (is_space c) eqn:Ec; [reflexivity|].
    cbn [trimEnd]. now rewrite Ec.
  - change (trimEnd (String c (String d t)))
      with (match trimEnd (String d t) with
            | EmptyString =>
                if is_space c then EmptyString else String c EmptyString
            | String x y => String c (String x y)
            end).
    now rewrite IH.
Qed.

Lemma trim_idempotent : forall s, trim (trim s) = trim s.
Proof.
  intros s. unfold trim. pose proof (trimStart_head s) as H.
  destruct (trimStart s) as [|c x]; [reflexivity|].
  rewrite (trimEnd_cons c x H). cbn [trimStart]. rewrite H.
  rewrite (trimEnd_cons c (trimEnd x) H). now rewrite trimEnd_idempotent.
Qed.

(** The shape of the [try] block: what [convert] returns for a text that
    parses is the trimmed result of the loop over the media groups,
    followed by a line feed. *)
Lemma convert_ok_inv :
  forall parse localeCompare now options this cssContent text,
    fst (convert parse localeCompare now options this cssContent) = Ok text ->
    exists result, text = trim result ++ nl.
Proof.
  intros parse localeCompare now options this cssContent text.
  unfold convert.
  destruct (parse cssContent) as [ast|e]; [|destruct e; discriminate].
  unfold convert_ast.
  destruct (extractRules options now ast) as [rules_ h0].
  destruct (if enableVariableExtraction options
            then _ else (this, h0)) as [this1 h1].
  cbn [fst].
  match goal with
  | |- context [for_each ?b ?l ?s] => destruct (for_each b l s) as [r|e|]
  end; cbn; intros H; try discriminate.
  inversion H. now exists r.
Qed.

(** The options [{ enableVariableExtraction: false }]. *)
Definition no_variables_options : Options :=
  constructor
    {| opt_indentSize := None; opt_indentType := None;
       opt_preserveComments := None; opt_sortProperties := None;
       opt_enableBEM := None; opt_enableSmartNesting := None;
       opt_maxNestingDepth := None; opt_enableDuplicateDetection := None;
       opt_enableAdvancedBEM := None; opt_enableMediaQueryGrouping := None;
       opt_enableVariableExtraction := Some false;
       opt_variablePrefix := None;
       opt_minOccurrences := None; opt_extractColors := None;
       opt_extractSizes := None; opt_extractFonts := None;
       opt_extractOthers := None |}.

(** X1.  With variable extraction disabled, [convert] neither reads nor
    writes the two maps of the instance: whatever they hold, the outcome
    (the text or the error) is the same, and the call leaves them as they
    were. *)
Theorem convert_without_extraction_ignores_the_instance :
  forall (parse : string -> ParseResult)
         (localeCompare : string -> string -> Z) (now : Z)
         (options : Options) (this1 this2 : Instance) (cssContent : string),
    enableVariableExtraction options = false ->
    fst (convert parse localeCompare now options this1 cssContent) =
      fst (convert parse localeCompare now options this2 cssContent) /\
    snd (convert parse localeCompare now options this1 cssContent) = this1.
Proof.
  intros parse localeCompare now options this1 this2 cssContent H.
  unfold convert.
  destruct (parse cssContent) as [ast|e]; [|split; reflexivity].
  unfold convert_ast.
  destruct (extractRules options now ast) as [rules_ h0].
  rewrite H. cbn. split; reflexivity.
Qed.

Lemma convert_without_extraction_ignores_the_instance_witness :
  enableVariableExtraction no_variables_options = false /\
  (fst (convert whites_parser default_cmp 0 no_variables_options
                new_instance two_whites_css) =
     fst (convert whites_parser default_cmp 0 no_variables_options
                  (snd (convert whites_parser default_cmp 0 default_options
                                new_instance two_whites_css))
                  two_whites_css) /\
   snd (convert whites_parser default_cmp 0 no_variables_options
                new_instance two_whites_css) = new_instance).
Proof.
  split; [reflexivity|].
  apply (convert_without_extraction_ignores_the_instance
           whites_parser default_cmp 0 no_variables_options).
  reflexivity.
Defined.

(** X2.  A text that [convert] returns ends with one line feed, and what
    precedes it neither begins nor ends with white space: trimming it
    changes nothing. *)
Theorem convert_output_is_trimmed :
  forall (parse : string -> ParseResult)
         (localeCompare : string -> string -> Z) (now : Z)
         (options : Options) (this : Instance) (cssContent text : string),
    fst (convert parse localeCompare now options this cssContent) = Ok text ->
    exists body, text = body ++ nl /\ trim body = body.
Proof.
  intros parse localeCompare now options this cssContent text H.
  destruct (convert_ok_inv _ _ _ _ _ _ _ H) as [result ->].
  exists (trim result). split; [reflexivity|apply trim_idempotent].
Qed.

Lemma convert_output_is_trimmed_witness :
  exists text,
    fst (convert whites_parser default_cmp 0 default_options new_instance
                 two_whites_css) = Ok text /\
    exists body, text = body ++ nl /\ trim body = body.
Proof.
  eexists. split; [vm_compute; reflexivity|].
  apply (convert_output_is_trimmed whites_parser default_cmp 0
           default_options new_instance two_whites_css).
  vm_compute. reflexivity.
Defined.

Lemma buildAdvancedNestedStructure_nil :
  forall options,
    buildAdvancedNestedStructure options [] =
      mkNestedRule EmptyString [] [] None.
Proof.
  intros options. unfold buildAdvancedNestedStructure.
  destruct (enableBEM options), (enableSmartNesting options); reflexivity.
Qed.

Lemma formatSCSS_empty_root :
  forall options localeCompare h fuel,
    indent_ok options = true ->
    formatSCSS options localeCompare h (S fuel)
               (mkNestedRule EmptyString [] [] None) 0 = Ok EmptyString.
Proof.
  intros options localeCompare h fuel Hok.
  assert (Hg : getIndent options 0 = Ok EmptyString).
  { unfold getIndent. unfold indent_ok in Hok.
    destruct (indentType options); [|reflexivity].
    destruct (Z.ltb (indentSize options) 0); [discriminate|reflexivity]. }
  cbn [formatSCSS]. rewrite Hg. cbn.
  destruct (sortProperties options); reflexivity.
Qed.


(** [/* note */] and the options [{ preserveComments: false }]. *)
Definition one_comment : CssNode := StyleSheet [Comment " note "].

Definition no_comments_options : Options :=
  constructor
    {| opt_indentSize := None; opt_indentType := None;
       opt_preserveComments := Some false; opt_sortProperties := None;
       opt_enableBEM := None; opt_enableSmartNesting := None;
       opt_maxNestingDepth := None; opt_enableDuplicateDetection := None;
       opt_enableAdvancedBEM := None; opt_enableMediaQueryGrouping := None;
       opt_enableVariableExtraction := None; opt_variablePrefix := None;
       opt_minOccurrences := None; opt_extractColors := None;
       opt_extractSizes := None; opt_extractFonts := None;
       opt_extractOthers := None |}.


(** *** The variable header comes first *)

Lemma trimEnd_app :
  forall p s, trimEnd p = p -> trimEnd (p ++ s) = p ++ trimEnd s.
Proof.
  induction p as [|c p IH]; intros s H; [reflexivity|].
  cbn [trimEnd] in H. cbn [append].
  destruct (trimEnd p) as [|d t] eqn:E.
  - destruct (is_space c) eqn:Ec; [discriminate|].
    inversion H; subst p. cbn [append]. now apply trimEnd_cons.
  - injection H as Hp.
    cbn [trimEnd]. rewrite (IH s Hp). rewrite <- Hp. reflexivity.
Qed.

Lemma append_empty_r : forall s : string, s ++ EmptyString = s.
Proof.
  induction s as [|c s IH]; cbn; [reflexivity|now rewrite IH].
Qed.

Lemma append_assoc :
  forall a b c : string, (a ++ b) ++ c = a ++ (b ++ c).
Proof.
  induction a as [|x a IH]; intros b c; cbn; [reflexivity|now rewrite IH].
Qed.

Lemma for_each_extends :
  forall (A : Type) (body : string -> A -> Outcome string) (l : list A)
         (st r : string),
    (forall st x st', body st x = Ok st' -> exists suffix, st' = st ++ suffix) ->
    for_each body l st = Ok r -> exists suffix, r = st ++ suffix.
Proof.
  intros A body l. induction l as [|x l IH]; intros st r Hb H; cbn in H.
  - inversion H. exists EmptyString. now rewrite append_empty_r.
  - destruct (body st x) as [st1| |] eqn:E; cbn in H; try discriminate.
    destruct (Hb _ _ _ E) as [s1 ->].
    destruct (IH _ _ Hb H) as [s2 ->].
    exists (s1 ++ s2). now rewrite append_assoc.
Qed.

Lemma formatVariables_header :
  forall localeCompare this,
    exists rest,
      formatVariables localeCompare this = "// Variables" ++ nl ++ rest.
Proof.
  intros localeCompare this. unfold formatVariables.
  generalize (categories_of (extractedVariables this)) as categories.
  intros categories.
  assert (G : forall l init,
             exists rest,
               fold_left
                 (fun result categoryName =>
                    match category_lines localeCompare categories
                            categoryName with
                    | [] => result
                    | (_ :: _) as lines =>
                        result ++ nl ++ "// " ++ capitalize categoryName
                               ++ " variables" ++ nl
                               ++ String.concat EmptyString lines
                    end) l init = init ++ rest).
  { induction l as [|x l IH]; intros init; cbn [fold_left].
    - exists EmptyString. now rewrite append_empty_r.
    - destruct (category_lines localeCompare categories x) as [|y ys].
      + apply IH.
      + destruct (IH (init ++ nl ++ "// " ++ capitalize x ++ " variables"
                           ++ nl ++ String.concat EmptyString (y :: ys)))
          as [rest ->].
        eexists. rewrite append_assoc. reflexivity. }
  destruct (G sortedCategories ("// Variables" ++ nl)) as [rest ->].
  exists rest. now rewrite append_assoc.
Qed.

(** X4.  When variable extraction is enabled and the converter holds an
    extracted variable after the call, the text that [convert] returns
    begins with the line [// Variables]. *)
Theorem convert_output_begins_with_the_variables :
  forall (parse : string -> ParseResult)
         (localeCompare : string -> string -> Z) (now : Z)
         (options : Options) (this : Instance) (cssContent text : string),
    enableVariableExtraction options = true ->
    extractedVariables
      (snd (convert parse localeCompare now options this cssContent)) <> [] ->
    fst (convert parse localeCompare now options this cssContent) = Ok text ->
    startsWith text ("// Variables" ++ nl) = true.
Proof.
  intros parse localeCompare now options this cssContent text He.
  unfold convert.
  destruct (parse cssContent) as [ast|e]; [|destruct e; discriminate].
  unfold convert_ast.
  destruct (extractRules options now ast) as [rules_ h0].
  rewrite He.
  set (this1 := extractVariables options
                  (analyzeVariableCandidates options h0 rules_ this)).
  cbv zeta. cbn [fst snd].
  intros Hne.
  destruct (extractedVariables this1) as [|v vs] eqn:Ev; [now elim Hne|].
  cbn [is_nil negb andb].
  match goal with
  | |- context [for_each ?b ?l ?s] =>
      destruct (for_each b l s) as [r|e|] eqn:Ef
  end; cbn; intros H; try discriminate.
  inversion H; subst text. clear H.
  apply for_each_extends in Ef.
  - destruct Ef as [suffix ->].
    destruct (formatVariables_header localeCompare this1) as [rest ->].
    rewrite !append_assoc.
    change ("// Variables" ++ nl ++ rest ++ nl ++ suffix)
      with ("// Variables" ++ (nl ++ rest ++ nl ++ suffix)).
    unfold trim.
    change (trimStart ("// Variables" ++ (nl ++ rest ++ nl ++ suffix)))
      with ("// Variables" ++ (nl ++ rest ++ nl ++ suffix)).
    rewrite trimEnd_app by reflexivity.
    change (nl ++ rest ++ nl ++ suffix)
      with (String (chr 10) (rest ++ nl ++ suffix)).
    cbn [trimEnd].
    destruct (trimEnd (rest ++ nl ++ suffix)); reflexivity.
  - intros st group st'.
    destruct (formatSCSS _ _ _ _ _ _) as [t| |]; cbn; try discriminate.
    destruct (truthy (query group)).
    + destruct (indentContent options t 1) as [t'| |]; cbn;
        try discriminate.
      intros E. inversion E. eexists. reflexivity.
    + intros E. inversion E. eexists. reflexivity.
Qed.

Lemma convert_output_begins_with_the_variables_witness :
  exists text,
    enableVariableExtraction default_options = true /\
    extractedVariables
      (snd (convert whites_parser default_cmp 0 default_options
                    new_instance two_whites_css)) <> [] /\
    fst (convert whites_parser default_cmp 0 default_options new_instance
                 two_whites_css) = Ok text /\
    startsWith text ("// Variables" ++ nl) = true.
Proof.
  eexists. split; [reflexivity|].
  split; [vm_compute; discriminate|].
  split; [vm_compute; reflexivity|].
  apply (convert_output_begins_with_the_variables whites_parser default_cmp
           0 default_options new_instance two_whites_css).
  - reflexivity.
  - vm_compute. discriminate.
  - vm_compute. reflexivity.
Defined.

(** *** Extracted variables have distinct names *)

Lemma map_set_values_In :
  forall (V : Type) (k : string) (v x : V) (m : JsMap V),
    In x (map_values (map_set k v m)) -> x = v \/ In x (map_values m).
Proof.
  intros V k v x m. induction m as [|[k' v'] m IH]; cbn.
  - intros [H|[]]. now left.
  - destruct (String.eqb k k'); cbn.
    + intros [H|H]; [now left|right; now right].
    + intros [H|H]; [right; now left|].
      destruct (IH H) as [E|E]; [now left|right; now right].
Qed.

Lemma map_set_names_NoDup :
  forall (V : Type) (name : V -> string) (k : string) (v : V) (m : JsMap V),
    NoDup (map name (map_values m)) ->
    ~ In (name v) (map name (map_values m)) ->
    NoDup (map name (map_values (map_set k v m))).
Proof.
  intros V name k v m. induction m as [|[k' v'] m IH]; cbn; intros Hnd Hv.
  - constructor; [intros []|constructor].
  - inversion Hnd as [|? ? Hx Hm]; subst.
    destruct (String.eqb k k'); cbn.
    + constructor; [|exact Hm]. intros Hin. apply Hv. now right.
    + constructor.
      * intros Hin. apply in_map_iff in Hin.
        destruct Hin as [x [Ex Hin]].
        apply map_set_values_In in Hin. destruct Hin as [->|Hin].
        -- apply Hv. left. now symmetry.
        -- apply Hx. rewrite <- Ex. now apply in_map.
      * apply IH; [exact Hm|]. intros Hin. apply Hv. now right.
Qed.

Lemma extract_group_names_NoDup :
  forall extracted entry,
    NoDup (map v_name (map_values extracted)) ->
    NoDup (map v_name (map_values (extract_group extracted entry))).
Proof.
  intros extracted entry H. unfold extract_group.
  destruct (sort by_occurrences (snd entry)) as [|best rest]; [exact H|].
  apply map_set_names_NoDup; [exact H|]. cbn [v_name].
  apply uniqueName_fresh.
Qed.

(** X5.  [extractVariables] keeps the names of the extracted variables
    pairwise distinct: when no two variables of the instance share a name
    before the call, none do after it, whatever candidates the instance
    holds and whatever entries the call adds or overwrites. *)
Theorem extractVariables_names_distinct :
  forall (options : Options) (this : Instance),
    NoDup (map v_name (map_values (extractedVariables this))) ->
    NoDup (map v_name
             (map_values
                (extractedVariables (extractVariables options this)))).
Proof.
  intros options this H. unfold extractVariables. cbn [extractedVariables].
  generalize (valueGroups_of options (variableCandidates this)) as groups.
  generalize dependent (extractedVariables this).
  intros extracted H groups. revert extracted H.
  induction groups as [|g groups IH]; intros extracted H; cbn [fold_left].
  - exact H.
  - apply IH. now apply extract_group_names_NoDup.
Qed.

(** The instance after one conversion of
    [.a{color:#fff;margin:0}.b{color:#fff}], with the candidates of a
    second analysis of the same rules. *)
Definition whites_analysed_twice : Instance :=
  let once :=
    snd (convert whites_parser default_cmp 0 default_options new_instance
                 two_whites_css) in
  let (rules_, h) := extractRules default_options 0 two_whites in
  analyzeVariableCandidates default_options h rules_ once.

Lemma extractVariables_names_distinct_witness :
  map v_name (map_values (extractedVariables whites_analysed_twice)) =
    ["$color-fff"] /\
  NoDup (map v_name
           (map_values
              (extractedVariables
                 (extractVariables default_options
                                   whites_analysed_twice)))).
Proof.
  split; [reflexivity|].
  apply (extractVariables_names_distinct default_options
           whites_analysed_twice).
  constructor; [intros []|constructor].
Defined.

(** *** Every replacement name is declared *)

Lemma category_lines_In :
  forall localeCompare extracted variable,
    In variable (map_values extracted) ->
    In (variable_line variable)
       (category_lines localeCompare (categories_of extracted)
                       (category_name (v_category variable))).
Proof.
  intros localeCompare extracted variable Hin.
  unfold category_lines, categories_of.
  change (fun (m : JsMap (list ExtractedVariable)) variable =>
            map_push (category_name (v_category variable)) variable m)
    with (group_step ExtractedVariable ExtractedVariable
            (fun v => category_name (v_category v)) (fun v => v)
            (fun _ => true)).
  rewrite group_fold_get. cbn [map_get]. unfold members.
  rewrite map_id. cbn [andb].
  assert (Hm : In variable
                 (filter (fun x => String.eqb (category_name (v_category x))
                                     (category_name (v_category variable)))
                         (map_values extracted))).
  { apply filter_In. split; [exact Hin|apply String.eqb_refl]. }
  destruct (filter _ (map_values extracted)) as [|v vs]; [destruct Hm|].
  apply in_map. apply sort_In. exact Hm.
Qed.



(** *** Grouping by media query *)

(** The key under which [groupByMediaQuery] files a rule. *)
Definition media_key (rule : ParsedRule) : string :=
  media_or (mediaQuery rule) EmptyString.

Lemma groupByMediaQuery_get :
  forall rules_ k,
    map_get k
      (fold_left (fun groups rule => map_push (media_key rule) rule groups)
                 rules_ []) =
      match filter (fun r => String.eqb (media_key r) k) rules_ with
      | [] => None
      | members_ => Some members_
      end.
Proof.
  intros rules_ k.
  change (fun (groups : JsMap (list ParsedRule)) rule =>
            map_push (media_key rule) rule groups)
    with (group_step ParsedRule ParsedRule media_key (fun r => r)
            (fun _ => true)).
  rewrite group_fold_get. cbn [map_get]. unfold members.
  rewrite map_id. cbn [andb].
  now destruct (filter _ rules_).
Qed.

(** X9.  [groupByMediaQuery] partitions the rules by media query: the
    groups have pairwise different queries; the rules of a group are
    exactly the rules with the query of the group (the empty query for a
    rule with none), in their order in the input, and there is at least
    one; and every rule of the input has a group. *)
Theorem groupByMediaQuery_partitions :
  forall rules_ : list ParsedRule,
    let groups := groupByMediaQuery rules_ in
    NoDup (map query groups) /\
    (forall g,
        In g groups ->
        rules g =
          filter (fun r => String.eqb (media_key r) (query g)) rules_ /\
        rules g <> []) /\
    (forall r,
        In r rules_ ->
        exists g, In g groups /\ query g = media_key r).
Proof.
  intros rules_ groups. unfold groups, groupByMediaQuery.
  fold media_key.
  set (m := fold_left
              (fun groups rule => map_push (media_key rule) rule groups)
              rules_ []).
  assert (Hnd : NoDup (map_keys m)).
  { unfold m.
    change (fun (groups : JsMap (list ParsedRule)) rule =>
              map_push (media_key rule) rule groups)
      with (group_step ParsedRule ParsedRule media_key (fun r => r)
              (fun _ => true)).
    apply group_fold_NoDup. constructor. }
  split; [|split].
  - rewrite map_map. cbn [query]. exact Hnd.
  - intros g Hg. apply in_map_iff in Hg.
    destruct Hg as [[k v] [<- Hin]]. cbn [query rules fst snd].
    pose proof (In_map_get _ k v m Hnd Hin) as Hget.
    unfold m in Hget. rewrite groupByMediaQuery_get in Hget.
    destruct (filter _ rules_) as [|x xs]; [discriminate|].
    inversion Hget. split; [reflexivity|discriminate].
  - intros r Hr.
    assert (Hm : In r (filter (fun x => String.eqb (media_key x)
                                          (media_key r)) rules_)).
    { apply filter_In. split; [exact Hr|apply String.eqb_refl]. }
    pose proof (groupByMediaQuery_get rules_ (media_key r)) as Hget.
    fold m in Hget.
    destruct (filter _ rules_) as [|x xs]; [destruct Hm|].
    apply map_get_In in Hget.
    exists {| query := media_key r; rules := x :: xs |}. split.
    + apply in_map_iff. exists (media_key r, x :: xs). now split.
    + reflexivity.
Qed.

(** *** The duplicate detector drops no rule *)

Lemma map_get_push :
  forall (V : Type) (k k' : string) (x : V) (m : JsMap (list V)),
    map_get k (map_push k' x m) =
      if String.eqb k k' then
        Some (match map_get k' m with
              | Some l => (l ++ [x])%list
              | None => [x]
              end)
      else map_get k m.
Proof.
  intros V k k' x m. unfold map_push.
  destruct (String.eqb k k') eqn:E.
  - apply String.eqb_eq in E. subst k'.
    destruct (map_get k m); now rewrite map_get_set_same.
  - assert (N : k <> k').
    { intros ->. rewrite String.eqb_refl in E. discriminate. }
    destruct (map_get k' m); now rewrite map_get_set_other by exact N.
Qed.

(** The bucket of a media key and a declaration hash. *)
Definition bucket (g : JsMap (JsMap (list ParsedRule)))
           (mediaKey declHash : string) : option (list ParsedRule) :=
  match map_get mediaKey g with
  | Some mediaGroup => map_get declHash mediaGroup
  | None => None
  end.

Section Buckets.
Variable h : Heap.

Definition in_bucket (mediaKey declHash : string) (rule : ParsedRule)
  : bool :=
  String.eqb mediaKey (media_or (mediaQuery rule) "default")
  && String.eqb declHash (generateDeclarationHash h (declarations rule)).

Lemma add_to_groups_bucket :
  forall g rule mediaKey declHash,
    bucket (add_to_groups h g rule) mediaKey declHash =
      if in_bucket mediaKey declHash rule then
        Some (match bucket g mediaKey declHash with
              | Some l => (l ++ [rule])%list
              | None => [rule]
              end)
      else bucket g mediaKey declHash.
Proof.
  intros g rule mediaKey declHash. unfold bucket, add_to_groups, in_bucket.
  destruct (String.eqb mediaKey (media_or (mediaQuery rule) "default"))
    eqn:Em.
  - apply String.eqb_eq in Em. subst mediaKey.
    rewrite map_get_set_same, map_get_push. cbn [andb].
    destruct (String.eqb declHash _) eqn:Ed.
    + apply String.eqb_eq in Ed. subst declHash.
      now destruct (map_get (media_or (mediaQuery rule) "default") g).
    + now destruct (map_get (media_or (mediaQuery rule) "default") g).
  - assert (N : mediaKey <> media_or (mediaQuery rule) "default").
    { intros ->. rewrite String.eqb_refl in Em. discriminate. }
    rewrite map_get_set_other by exact N. reflexivity.
Qed.

Lemma mediaQueryGroups_bucket :
  forall rules_ g mediaKey declHash,
    bucket (fold_left (add_to_groups h) rules_ g) mediaKey declHash =
      match bucket g mediaKey declHash,
            filter (in_bucket mediaKey declHash) rules_ with
      | b, [] => b
      | None, f => Some f
      | Some l, f => Some (l ++ f)%list
      end.
Proof.
  induction rules_ as [|x l IH]; intros g mediaKey declHash;
    cbn [fold_left filter].
  - now destruct (bucket g mediaKey declHash).
  - rewrite IH, add_to_groups_bucket.
    destruct (in_bucket mediaKey declHash x);
      destruct (bucket g mediaKey declHash) as [b|];
      destruct (filter _ l) as [|y f];
      rewrite ?app_nil_r, <- ?app_assoc; reflexivity.
Qed.

Lemma bucket_In :
  forall g mediaKey declHash l,
    bucket g mediaKey declHash = Some l ->
    exists mediaGroup,
      In (mediaKey, mediaGroup) g /\ In (declHash, l) mediaGroup.
Proof.
  intros g mediaKey declHash l. unfold bucket.
  destruct (map_get mediaKey g) as [mediaGroup|] eqn:E; [|discriminate].
  intros H. exists mediaGroup. split; now apply map_get_In.
Qed.

Lemma declarationsEqual_same_hash :
  forall d1 d2,
    List.length d1 = List.length d2 ->
    generateDeclarationHash h d1 = generateDeclarationHash h d2 ->
    declarationsEqual h d1 d2 = true.
Proof.
  intros d1 d2 Hl Hh. unfold declarationsEqual.
  rewrite Hl, Nat.eqb_refl, Hh. cbn. apply String.eqb_refl.
Qed.

Lemma with_media_key :
  forall rule,
    media_or (mediaQuery
                (with_media (media_or (mediaQuery rule) "default") rule))
             "default" =
      media_or (mediaQuery rule) "default".
Proof.
  intros rule. unfold with_media. cbn [mediaQuery].
  destruct (String.eqb (media_or (mediaQuery rule) "default") "default")
    eqn:E; [apply String.eqb_eq in E; now rewrite E|].
  cbn [media_or].
  destruct (mediaQuery rule) as [q|]; cbn [media_or] in *;
    [|discriminate].
  destruct (truthy q) eqn:Eq; cbn; [now rewrite Eq|discriminate].
Qed.

End Buckets.


(** *** The declaration hash does not depend on the order *)

Lemma code_inj : forall x y, code x = code y -> x = y.
Proof.
  intros x y H. unfold code in H.
  rewrite <- (ascii_nat_embedding x), <- (ascii_nat_embedding y).
  now rewrite H.
Qed.

Lemma ltb_asym :
  forall a b, JsString.ltb a b = true -> JsString.ltb b a = false.
Proof.
  induction a as [|x a IH]; intros [|y b]; cbn [JsString.ltb]; try discriminate;
    try reflexivity.
  destruct (Nat.ltb_spec (code x) (code y)),
           (Nat.ltb_spec (code y) (code x));
    try discriminate; try reflexivity; try lia.
  apply IH.
Qed.

Lemma ltb_trichotomy :
  forall a b,
    JsString.ltb a b = false -> JsString.ltb b a = false -> a = b.
Proof.
  induction a as [|x a IH]; intros [|y b]; cbn [JsString.ltb]; try discriminate;
    try reflexivity.
  destruct (Nat.ltb_spec (code x) (code y)),
           (Nat.ltb_spec (code y) (code x));
    try discriminate; try lia.
  intros H1 H2. f_equal; [apply code_inj; lia|now apply IH].
Qed.

Lemma ltb_trans :
  forall a b c,
    JsString.ltb a b = true -> JsString.ltb b c = true ->
    JsString.ltb a c = true.
Proof.
  induction a as [|x a IH]; intros [|y b] [|z c]; cbn [JsString.ltb]; try discriminate;
    try reflexivity.
  destruct (Nat.ltb_spec (code x) (code y)),
           (Nat.ltb_spec (code y) (code x)),
           (Nat.ltb_spec (code y) (code z)),
           (Nat.ltb_spec (code z) (code y)),
           (Nat.ltb_spec (code x) (code z)),
           (Nat.ltb_spec (code z) (code x));
    try discriminate; try reflexivity; try lia.
  apply IH.
Qed.

Section SortOrder.
Variable A : Type.
Variable cmp : A -> A -> Z.

(** What [insert] tests. *)
Definition before (x y : A) : bool := Z.leb (cmp x y) 0.

Hypothesis before_total : forall x y, before x y = false -> before y x = true.
Hypothesis before_antisym :
  forall x y, before x y = true -> before y x = true -> x = y.
Hypothesis before_trans :
  forall x y z, before x y = true -> before y z = true -> before x z = true.

Lemma insert_insert :
  forall x y l,
    insert cmp x (insert cmp y l) = insert cmp y (insert cmp x l).
Proof.
  intros x y l. induction l as [|z l IH]; cbn [insert];
    fold (before x y); fold (before y x).
  - destruct (before x y) eqn:Exy, (before y x) eqn:Eyx; try reflexivity.
    + now rewrite (before_antisym x y Exy Eyx).
    + now rewrite (before_total x y Exy) in Eyx.
  - fold (before x z); fold (before y z).
    destruct (before y z) eqn:Eyz, (before x z) eqn:Exz; cbn [insert];
      fold (before x y); fold (before y x); fold (before x z);
      fold (before y z); rewrite ?Eyz, ?Exz.
    + destruct (before x y) eqn:Exy, (before y x) eqn:Eyx; try reflexivity.
      * now rewrite (before_antisym x y Exy Eyx).
      * now rewrite (before_total x y Exy) in Eyx.
    + destruct (before x y) eqn:Exy; [|reflexivity].
      now rewrite (before_trans x y z Exy Eyz) in Exz.
    + destruct (before y x) eqn:Eyx; [|reflexivity].
      now rewrite (before_trans y x z Eyx Exz) in Eyz.
    + now rewrite IH.
Qed.

Lemma sort_Permutation :
  forall l1 l2, Permutation l1 l2 -> sort cmp l1 = sort cmp l2.
Proof.
  intros l1 l2 H. induction H as [|x l l' _ IH|x y l|l l' l'' _ IH1 _ IH2];
    cbn [sort].
  - reflexivity.
  - now rewrite IH.
  - apply insert_insert.
  - now rewrite IH1.
Qed.
End SortOrder.

Lemma default_cmp_before :
  forall a b, before string default_cmp a b = negb (JsString.ltb b a).
Proof.
  intros a b. unfold before, default_cmp.
  destruct (JsString.ltb a b) eqn:E1.
  - now rewrite (ltb_asym a b E1).
  - now destruct (JsString.ltb b a).
Qed.

Lemma sort_default_Permutation :
  forall l1 l2 : list string,
    Permutation l1 l2 -> sort default_cmp l1 = sort default_cmp l2.
Proof.
  apply sort_Permutation.
  - intros x y. rewrite !default_cmp_before.
    destruct (JsString.ltb y x) eqn:E; [|discriminate].
    intros _. now rewrite (ltb_asym y x E).
  - intros x y. rewrite !default_cmp_before.
    destruct (JsString.ltb y x) eqn:E1; [discriminate|].
    destruct (JsString.ltb x y) eqn:E2; [discriminate|].
    intros _ _. now apply ltb_trichotomy.
  - intros x y z. rewrite !default_cmp_before.
    destruct (JsString.ltb y x) eqn:E1; [discriminate|].
    destruct (JsString.ltb z y) eqn:E2; [discriminate|].
    intros _ _.
    destruct (JsString.ltb z x) eqn:E3; [|reflexivity]. exfalso.
    destruct (JsString.ltb x y) eqn:E4.
    + rewrite (ltb_trans z x y E3 E4) in E2. discriminate.
    + rewrite (ltb_trichotomy x y E4 E1) in E3. congruence.
Qed.

Lemma filter_Permutation :
  forall (A : Type) (p : A -> bool) (l1 l2 : list A),
    Permutation l1 l2 -> Permutation (filter p l1) (filter p l2).
Proof.
  intros A p l1 l2 H.
  induction H as [|x l l' _ IH|x y l|l l' l'' _ IH1 _ IH2]; cbn [filter].
  - constructor.
  - destruct (p x); [now constructor|exact IH].
  - destruct (p x), (p y); try apply Permutation_refl. apply perm_swap.
  - now apply perm_trans with (filter p l').
Qed.

(** X11.  The declaration hash and [declarationsEqual] do not depend on
    the order of the declarations: two lists that hold the same
    declaration objects in different orders have the same hash and pass
    the equality test. *)
Theorem generateDeclarationHash_ignores_order :
  forall (h : Heap) (decls1 decls2 : list Ref),
    Permutation decls1 decls2 ->
    generateDeclarationHash h decls1 = generateDeclarationHash h decls2 /\
    declarationsEqual h decls1 decls2 = true.
Proof.
  intros h decls1 decls2 H.
  assert (E : generateDeclarationHash h decls1 =
              generateDeclarationHash h decls2).
  { unfold generateDeclarationHash. f_equal.
    apply sort_default_Permutation.
    apply Permutation_map, filter_Permutation, Permutation_map. exact H. }
  split; [exact E|].
  apply declarationsEqual_same_hash; [|exact E].
  now apply Permutation_length.
Qed.

Lemma generateDeclarationHash_ignores_order_witness :
  let h := snd (extractRules default_options 0 two_whites) in
  generateDeclarationHash h [1; 0] = "color:#fff;margin:0" /\
  (generateDeclarationHash h [0; 1] = generateDeclarationHash h [1; 0] /\
   declarationsEqual h [0; 1] [1; 0] = true).
Proof.
  split; [reflexivity|].
  apply (generateDeclarationHash_ignores_order
           (snd (extractRules default_options 0 two_whites)) [0; 1] [1; 0]).
  apply perm_swap.
Defined.

(** *** Categories and names *)

(** X12.  [categorizeValue] answers [font] exactly for the properties
    [font-family], [font-weight], [font-style], [font-variant] and
    [font-stretch] with a value that is neither a color nor a size:
    [font-size] and [line-height], which [isFontProperty] lists, are size
    properties first and never fall in the font category. *)
Theorem categorizeValue_font :
  forall property_ value_ : string,
    categorizeValue property_ value_ = font <->
    In property_ ["font-family"; "font-weight"; "font-style";
                  "font-variant"; "font-stretch"] /\
    isColorValue value_ = false /\ isSizeValue value_ = false.
Proof.
  intros property_ value_. unfold categorizeValue. split.
  - destruct (isColorProperty property_ || isColorValue value_) eqn:Ec;
      [discriminate|].
    destruct (isSizeProperty property_ || isSizeValue value_) eqn:Es;
      [discriminate|].
    destruct (isFontProperty property_) eqn:Ef; [|discriminate].
    intros _.
    apply orb_false_iff in Ec. destruct Ec as [_ Ec].
    apply orb_false_iff in Es. destruct Es as [Es Ev].
    split; [|now split].
    unfold isFontProperty in Ef. apply str_in_In in Ef.
    cbn [In] in Ef. cbn [In].
    destruct Ef as [<-|[<-|[<-|[<-|[<-|[<-|[<-|[]]]]]]]];
      vm_compute in Es; try discriminate Es;
      repeat (try (left; reflexivity); right).
  - intros [Hp [Hc Hs]]. rewrite Hc, Hs.
    cbn [In] in Hp.
    destruct Hp as [<-|[<-|[<-|[<-|[<-|[]]]]]]; reflexivity.
Qed.

(** Every name that [generateVariableName] suggests is the configured
    prefix followed by a non-empty text, for every property, value and
    category. *)
Theorem generateVariableName_has_prefix :
  forall (options : Options) (property_ value_ : string)
         (category : Category),
    exists rest,
      generateVariableName options property_ value_ category =
        variablePrefix options ++ rest /\
      truthy rest = true.
Proof.
  intros options property_ value_ category. unfold generateVariableName.
  assert (T : forall a b : string, truthy a = true -> truthy (a ++ b) = true).
  { intros [|c a] b H; [discriminate|reflexivity]. }
  assert (T2 : forall a b : string, truthy b = true -> truthy (a ++ b) = true).
  { intros [|c a] b H; [exact H|reflexivity]. }
  destruct category; cbv zeta;
    repeat match goal with
           | |- context [if ?c then _ else _] => destruct c
           end;
    eexists; (split; [reflexivity|]);
    try reflexivity; try (apply T2; reflexivity).
Qed.

(** *** The characters of a cleaned value *)

Fixpoint string_forall (p : ascii -> bool) (s : string) : bool :=
  match s with
  | EmptyString => true
  | String c s' => p c && string_forall p s'
  end.

Lemma string_forall_app :
  forall p a b,
    string_forall p (a ++ b) = string_forall p a && string_forall p b.
Proof.
  intros p a b. induction a as [|c a IH]; cbn; [reflexivity|].
  now rewrite IH, andb_assoc.
Qed.

Lemma string_forall_take :
  forall p n s, string_forall p s = true -> string_forall p (take n s) = true.
Proof.
  intros p n. induction n as [|n IH]; intros [|c s] H; cbn; try reflexivity.
  cbn in H. apply andb_true_iff in H. destruct H as [Hc Hs].
  now rewrite Hc, IH.
Qed.

Lemma string_forall_concat :
  forall p l,
    Forall (fun x => string_forall p x = true) l ->
    string_forall p (String.concat EmptyString l) = true.
Proof.
  intros p l H. induction H as [|x l Hx Hl IH]; [reflexivity|].
  cbn [String.concat]. destruct l as [|y l]; [exact Hx|].
  rewrite !string_forall_app, Hx. exact IH.
Qed.

(** The texts that the scan of [replace], [match] and [split] yields are
    made of characters of the input. *)
Lemma run_chars :
  forall p r s i skip,
    string_forall p s = true ->
    string_forall p (fst (run r i s skip)) = true /\
    Forall (fun m => string_forall p (fst m) = true /\
                     string_forall p (snd m) = true)
           (snd (run r i s skip)).
Proof.
  intros p r. induction s as [|c s IH]; intros i skip H.
  - destruct skip; cbn; [|now split].
    destruct (match_at r i EmptyString); cbn; split; auto.
  - cbn in H. apply andb_true_iff in H. destruct H as [Hc Hs].
    destruct skip as [|k]; cbn [run]; [|now apply IH].
    destruct (match_at r i (String c s)) as [[e caps]|].
    + destruct (Nat.eqb e i).
      * destruct (IH (S i) 0 Hs) as [H1 H2].
        destruct (run r (S i) s 0) as [t ms]. cbn in *.
        split; [reflexivity|]. constructor; [|exact H2].
        cbn. now rewrite Hc, H1.
      * destruct (IH (S i) (e - i - 1) Hs) as [H1 H2].
        destruct (run r (S i) s (e - i - 1)) as [t ms]. cbn [fst snd] in *.
        split; [reflexivity|]. constructor; [|exact H2].
        cbn [fst snd]. split; [|exact H1].
        apply string_forall_take. cbn. now rewrite Hc, Hs.
    + destruct (IH (S i) 0 Hs) as [H1 H2].
      destruct (run r (S i) s 0) as [t ms]. cbn in *.
      split; [now rewrite Hc, H1|exact H2].
Qed.

Lemma replace_g_chars :
  forall p r by_ s,
    string_forall p s = true -> string_forall p by_ = true ->
    string_forall p (replace_g r by_ s) = true.
Proof.
  intros p r by_ s Hs Hb. unfold replace_g.
  destruct (run_chars p r s 0 0 Hs) as [H1 H2].
  destruct (run r 0 s 0) as [t ms]. cbn [fst snd] in *.
  rewrite string_forall_app, H1. cbn [andb].
  apply string_forall_concat. apply Forall_map.
  apply Forall_impl with (2 := H2).
  intros m [_ Hm]. now rewrite string_forall_app, Hb, Hm.
Qed.

(** A one-character class replaced everywhere: what stays is outside the
    class. *)
Lemma run_class :
  forall q s i,
    string_forall (Not q) (fst (run (Chr q) i s 0)) = true /\
    Forall (fun m => string_forall (Not q) (snd m) = true)
           (snd (run (Chr q) i s 0)).
Proof.
  intros q. induction s as [|c s IH]; intros i.
  - cbn. split; auto.
  - cbn [run]. unfold match_at. cbn [rmatch].
    destruct (q c) eqn:Eq.
    + replace (Nat.eqb (S i) i) with false
        by (symmetry; apply Nat.eqb_neq; lia).
      replace (S i - i - 1) with 0 by lia.
      destruct (IH (S i)) as [H1 H2].
      destruct (run (Chr q) (S i) s 0) as [t ms]. cbn [fst snd] in *.
      split; [reflexivity|]. constructor; [exact H1|exact H2].
    + destruct (IH (S i)) as [H1 H2].
      destruct (run (Chr q) (S i) s 0) as [t ms]. cbn [fst snd] in *.
      split; [|exact H2]. cbn. unfold Not at 1. now rewrite Eq, H1.
Qed.

Lemma replace_class_chars :
  forall q by_ s p,
    (forall c, Not q c = true -> p c = true) ->
    string_forall p by_ = true ->
    string_forall p (replace_g (Chr q) by_ s) = true.
Proof.
  intros q by_ s p Hq Hb. unfold replace_g.
  assert (W : forall t, string_forall (Not q) t = true ->
                        string_forall p t = true).
  { induction t as [|c t IH]; cbn; [reflexivity|].
    intros H. apply andb_true_iff in H. destruct H as [Hc Ht].
    now rewrite (Hq c Hc), IH. }
  destruct (run_class q s 0) as [H1 H2].
  destruct (run (Chr q) 0 s 0) as [t ms]. cbn [fst snd] in *.
  rewrite string_forall_app, (W t H1). cbn [andb].
  apply string_forall_concat. apply Forall_map.
  apply Forall_impl with (2 := H2).
  intros m Hm. now rewrite string_forall_app, Hb, (W _ Hm).
Qed.

(** [[a-z0-9-]] *)
Definition is_name_char (c : ascii) : bool :=
  is_lower c || is_digit c || is_char "-" c.

Lemma lower_char_token :
  forall c, is_token c = true -> is_name_char (lower_char c) = true.
Proof.
  intros c. destruct c as [[] [] [] [] [] [] [] []]; vm_compute;
    intros H; try discriminate H; reflexivity.
Qed.

(** X14.  The cleaned value that [generateVariableName] builds from a
    value holds only lower-case letters, digits and hyphens, whatever
    the value. *)
Theorem cleanValue_characters :
  forall value_ : string, string_forall is_name_char (cleanValue value_) = true.
Proof.
  intros value_. unfold cleanValue.
  assert (H : forall s, string_forall is_token s = true ->
                        string_forall is_name_char (toLowerCase s) = true).
  { induction s as [|c s IH]; cbn; [reflexivity|].
    intros Hs. apply andb_true_iff in Hs. destruct Hs as [Hc Hs].
    now rewrite (lower_char_token c Hc), IH. }
  apply H.
  apply replace_g_chars; [|reflexivity].
  apply replace_g_chars; [|reflexivity].
  apply replace_class_chars; [|reflexivity].
  intros c Hc. unfold Not in Hc. unfold is_token.
  apply negb_true_iff in Hc. apply negb_false_iff in Hc. now rewrite Hc.
Qed.

(** *** Indenting the content of a media block *)

Lemma count_char_app :
  forall c a b, count_char c (a ++ b) = count_char c a + count_char c b.
Proof.
  intros c a b. induction a as [|x a IH]; cbn; [reflexivity|].
  rewrite IH. lia.
Qed.

Lemma split_on_piece :
  forall sep p, count_char sep p = 0 -> split_on sep p = [p].
Proof.
  intros sep p. induction p as [|c p IH]; cbn; [reflexivity|].
  destruct (Ascii.eqb c sep); cbn; [intros H; discriminate H|].
  intros H. now rewrite (IH H).
Qed.

Lemma split_on_app_sep :
  forall sep p rest,
    count_char sep p = 0 ->
    split_on sep (p ++ String sep rest) = p :: split_on sep rest.
Proof.
  intros sep p rest. induction p as [|c p IH]; cbn.
  - intros _. now rewrite Ascii.eqb_refl.
  - destruct (Ascii.eqb c sep); cbn; [intros H; discriminate H|].
    intros H. now rewrite (IH H).
Qed.

Lemma split_on_join_inv :
  forall sep l,
    l <> [] ->
    Forall (fun p => count_char sep p = 0) l ->
    split_on sep (join (String sep EmptyString) l) = l.
Proof.
  intros sep l Hne H. unfold join.
  induction H as [|p l Hp Hl IH]; [now elim Hne|].
  cbn [String.concat]. destruct l as [|q l].
  - now apply split_on_piece.
  - cbn [append]. rewrite (split_on_app_sep sep p _ Hp).
    rewrite IH by discriminate. reflexivity.
Qed.

Lemma repeat_str_count :
  forall c unit_ n,
    count_char c unit_ = 0 -> count_char c (repeat_str unit_ n) = 0.
Proof.
  intros c unit_ n H. induction n as [|n IH]; cbn; [reflexivity|].
  rewrite count_char_app. lia.
Qed.

Lemma getIndent_one_line :
  forall options depth indent,
    getIndent options depth = Ok indent -> count_char (chr 10) indent = 0.
Proof.
  intros options depth indent. unfold getIndent.
  destruct (indentType options).
  - destruct (Z.ltb (indentSize options) 0); [discriminate|].
    intros H. inversion H.
    apply repeat_str_count. now apply repeat_str_count.
  - intros H. inversion H. now apply repeat_str_count.
Qed.

(** X15.  [indentContent] works line by line: the text it returns has
    the lines of the content, in order, where every line that holds more
    than white space is prefixed by the indentation of the level and the
    other lines are left as they are. *)
Theorem indentContent_lines :
  forall (options : Options) (content : string) (level : nat)
         (text : string),
    indentContent options content level = Ok text ->
    exists indent,
      getIndent options level = Ok indent /\
      split_on (chr 10) text =
        map (fun line => if truthy (trim line) then indent ++ line else line)
            (split_on (chr 10) content).
Proof.
  intros options content level text. unfold indentContent.
  destruct (getIndent options level) as [indent| |] eqn:Eg; cbn [bind];
    try discriminate.
  intros H. inversion H. exists indent. split; [reflexivity|].
  apply split_on_join_inv.
  - pose proof (split_on_not_nil (chr 10) content) as Hne.
    match goal with
    | |- map _ ?l <> [] => destruct l eqn:E
    end; [now elim Hne|].
    cbn [map]. intros E'. discriminate E'.
  - apply Forall_map. apply Forall_forall. intros line Hl.
    pose proof (split_on_pieces _ _ _ Hl) as Hp.
    destruct (truthy (trim line)); [|exact Hp].
    rewrite count_char_app, (getIndent_one_line _ _ _ Eg). exact Hp.
Qed.

Lemma indentContent_lines_witness :
  let content := ".a {" ++ nl ++ "  color: red;" ++ nl ++ "}" ++ nl ++ nl in
  exists text,
    indentContent default_options content 1 = Ok text /\
    exists indent,
      getIndent default_options 1 = Ok indent /\
      split_on (chr 10) text =
        map (fun line => if truthy (trim line) then indent ++ line else line)
            (split_on (chr 10) content).
Proof.
  eexists. split; [vm_compute; reflexivity|].
  apply (indentContent_lines default_options
           (".a {" ++ nl ++ "  color: red;" ++ nl ++ "}" ++ nl ++ nl) 1).
  vm_compute. reflexivity.
Defined.

(** *** The nesting tree *)

(** The node reached from [n] along the child keys [path]. *)
Fixpoint node_at (path : list string) (n : NestedRule) : option NestedRule :=
  match path with
  | [] => Some n
  | k :: rest =>
      match map_get k (n_children n) with
      | Some c => node_at rest c
      | None => None
      end
  end.

(** The declarations and the children found along [path], none where
    there is no node. *)
Definition declarations_at (path : list string) (n : NestedRule)
  : list Ref :=
  match node_at path n with
  | Some node => n_declarations node
  | None => []
  end.

Definition children_at (path : list string) (n : NestedRule)
  : list (string * NestedRule) :=
  match node_at path n with
  | Some node => n_children node
  | None => []
  end.

Lemma node_at_new_node :
  forall path sel bem,
    declarations_at path (new_node sel bem) = [] /\
    children_at path (new_node sel bem) = [].
Proof.
  intros [|k rest] sel bem; split; reflexivity.
Qed.

(** X16.  [insertComplexNestedRule] followed by a lookup along the same
    selector parts finds a node, and that node holds the declarations
    that were at this place before the insertion followed by the inserted
    ones, with the children that were there. *)
Theorem insertComplexNestedRule_lookup :
  forall (selectorParts : list string) (decls : list Ref)
         (parent : NestedRule),
    exists node,
      node_at selectorParts
              (insertComplexNestedRule selectorParts decls parent) =
        Some node /\
      n_declarations node =
        (declarations_at selectorParts parent ++ decls)%list /\
      n_children node = children_at selectorParts parent.
Proof.
  induction selectorParts as [|part rest IH]; intros decls parent.
  - exists (push_declarations decls parent). repeat split.
  - cbn [insertComplexNestedRule]. unfold with_child.
    unfold declarations_at, children_at. cbn [node_at].
    destruct (map_get part (n_children parent)) as [c|] eqn:E.
    + destruct (IH decls c) as [node [H1 [H2 H3]]].
      exists node. unfold set_child. cbn [n_children].
      rewrite map_get_set_same. now repeat split.
    + destruct (IH decls (new_node part None)) as [node [H1 [H2 H3]]].
      exists node. unfold set_child. cbn [n_children].
      rewrite map_get_set_same.
      destruct (node_at_new_node rest part None) as [Hd Hc].
      rewrite Hd in H2. rewrite Hc in H3. now repeat split.
Qed.

Lemma at_rule_is_no_comment :
  forall s, startsWith s "@" = true -> String.eqb s "/* COMMENT */" = false.
Proof.
  intros [|c s]; [discriminate|]. unfold startsWith. cbn [String.prefix].
  destruct (ascii_dec "@" c) as [<-|N]; [reflexivity|discriminate].
Qed.

Lemma partition_at_rules :
  forall rules_ p,
    (forall r, In r rules_ -> startsWith (selector r) "@" = true) ->
    fold_left partition_rule rules_ p =
      {| p_root := p_root p; bemBlocks := bemBlocks p;
         nonBemRules := nonBemRules p;
         atRules := (atRules p ++ rules_)%list |}.
Proof.
  induction rules_ as [|r l IH]; intros p H; cbn [fold_left].
  - rewrite app_nil_r. now destruct p.
  - rewrite IH by (intros x Hx; apply H; now right).
    unfold partition_rule.
    rewrite (at_rule_is_no_comment _ (H r (or_introl eq_refl))).
    rewrite (H r (or_introl eq_refl)). cbn.
    now rewrite <- app_assoc.
Qed.

(** X17.  With BEM support on, at-rules with the same header overwrite
    each other in the tree.  For a group made of at-rules (font-face,
    keyframes and the like), the node of the header of the last rule holds
    the declarations of that rule and nothing else, whatever rules with
    that header came before it. *)
Theorem at_rule_node_holds_the_last_rule :
  forall (options : Options) (rules_ : list ParsedRule) (last : ParsedRule),
    enableBEM options = true ->
    (forall r, In r (rules_ ++ [last]) -> startsWith (selector r) "@" = true) ->
    map_get (selector last)
            (n_children
               (buildAdvancedNestedStructure options (rules_ ++ [last]))) =
      Some (mkNestedRule (selector last) (declarations last) [] None).
Proof.
  intros options rules_ last Hb Hat.
  unfold buildAdvancedNestedStructure. rewrite Hb.
  unfold buildAdvancedBEMStructure.
  rewrite (partition_at_rules _ _ Hat).
  cbn [p_root bemBlocks nonBemRules atRules fold_left app].
  rewrite fold_left_app. cbn [fold_left]. unfold set_child at 1.
  cbn [n_children]. apply map_get_set_same.
Qed.

(** Two [@font-face] blocks. *)
Definition two_font_faces : CssNode :=
  StyleSheet
    [Atrule "font-face" None
            (Some ("{font-family:A;src:url(a.woff)}",
                   [decl "font-family" "A"; decl "src" "url(a.woff)"]));
     Atrule "font-face" None
            (Some ("{font-family:B;src:url(b.woff)}",
                   [decl "font-family" "B"; decl "src" "url(b.woff)"]))].

Lemma at_rule_node_holds_the_last_rule_witness :
  let rules_ := fst (extractRules default_options 0 two_font_faces) in
  exists first last,
    rules_ = ([first] ++ [last])%list /\
    selector first = "@font-face" /\ declarations first = [0; 1] /\
    selector last = "@font-face" /\ declarations last = [2; 3] /\
    map_get (selector last)
            (n_children
               (buildAdvancedNestedStructure default_options
                                             ([first] ++ [last]))) =
      Some (mkNestedRule (selector last) (declarations last) [] None).
Proof.
  eexists. eexists. split; [reflexivity|].
  split; [reflexivity|]. split; [reflexivity|].
  split; [reflexivity|]. split; [reflexivity|].
  apply (at_rule_node_holds_the_last_rule default_options).
  - reflexivity.
  - intros r [<-|[<-|[]]]; reflexivity.
Defined.

(** *** The first free name *)

Lemma unique_loop_least :
  forall fuel names base current counter,
    unique_loop fuel names base current counter = current \/
    (In current names /\
     exists n,
       counter <= n /\
       unique_loop fuel names base current counter = numbered base n /\
       forall m, counter <= m < n -> In (numbered base m) names).
Proof.
  induction fuel as [|fuel IH]; intros names base current counter;
    cbn [unique_loop]; destruct (str_in current names) eqn:E; auto.
  apply str_in_In in E. right. split; [exact E|].
  destruct (IH names base (numbered base counter) (S counter))
    as [Hr|[Hin [n [Hn [Hr Hm]]]]].
  - exists counter. split; [lia|]. split; [exact Hr|]. intros m Hc. lia.
  - exists n. split; [lia|]. split; [exact Hr|].
    intros m Hc. destruct (Nat.eq_dec m counter) as [->|N]; [exact Hin|].
    apply Hm. lia.
Qed.

(** X18.  The loop of [extractVariables] that makes a variable name
    unique returns the suggested name when no extracted variable bears
    it, and otherwise the suggested name followed by [-N] for the least
    [N >= 1] such that no extracted variable bears that name. *)
Theorem uniqueName_is_the_first_free :
  forall (names : list string) (suggestedName : string),
    (~ In suggestedName names ->
     uniqueName names suggestedName = suggestedName) /\
    (In suggestedName names ->
     exists n,
       1 <= n /\
       uniqueName names suggestedName =
         suggestedName ++ "-" ++ of_nat n /\
       ~ In (suggestedName ++ "-" ++ of_nat n) names /\
       forall m, 1 <= m < n -> In (suggestedName ++ "-" ++ of_nat m) names).
Proof.
  intros names suggestedName. split.
  - intros H. unfold uniqueName.
    destruct (List.length names); cbn [unique_loop];
      destruct (str_in suggestedName names) eqn:E; try reflexivity;
      apply str_in_In in E; contradiction.
  - intros H. pose proof (uniqueName_fresh names suggestedName) as Hf.
    unfold uniqueName in *.
    destruct (unique_loop_least (List.length names) names suggestedName
                                suggestedName 1)
      as [Hr|[_ [n [Hn [Hr Hm]]]]].
    + rewrite Hr in Hf. contradiction.
    + exists n. split; [exact Hn|]. split; [exact Hr|].
      split; [|exact Hm]. rewrite Hr in Hf. exact Hf.
Qed.

(** *** The filter of keyframe steps *)

(** A greedy loop over a one-character class reaches the end of a run of
    the class when the continuation accepts there. *)
Lemma star_class_accepts :
  forall (R : Type) (p : ascii -> bool) (k : cont R) ds n rest i caps,
    string_forall p ds = true ->
    String.length ds <= n ->
    k (i + String.length ds) rest caps <> None ->
    star_loop (rmatch (Chr p)) k n i (ds ++ rest) caps <> None.
Proof.
  intros R p k. set (step := rmatch (R := R) (Chr p)).
  induction ds as [|c ds IH]; intros n rest i caps Hp Hn Hk.
  - cbn [append String.length] in *. rewrite Nat.add_0_r in Hk.
    destruct n as [|n]; cbn [star_loop]; [exact Hk|].
    destruct (step i rest caps _); [easy|exact Hk].
  - cbn [string_forall] in Hp. apply andb_true_iff in Hp.
    destruct Hp as [Hc Hp]. cbn [String.length] in *.
    destruct n as [|n]; [lia|]. cbn [star_loop append].
    unfold step at 1. cbn [rmatch]. rewrite Hc.
    replace (Nat.eqb (S i) i) with false
      by (symmetry; apply Nat.eqb_neq; lia).
    assert (Hs : star_loop step k n (S i) (ds ++ rest) caps <> None).
    { apply IH; [exact Hp|lia|].
      replace (S i + String.length ds) with (i + S (String.length ds))
        by lia.
      exact Hk. }
    destruct (star_loop step k n (S i) (ds ++ rest) caps);
      [easy|now elim Hs].
Qed.

Lemma append_length_le :
  forall a b : string, String.length a <= String.length (a ++ b).
Proof.
  intros a b. rewrite append_length. lia.
Qed.

Lemma test_match_at :
  forall r s, match_at r 0 s <> None -> test r s = true.
Proof.
  intros r s H. unfold test.
  destruct s; cbn [search]; destruct (match_at r 0 _) as [[e c]|];
    try reflexivity; now elim H.
Qed.

Lemma rmatch_alt_accepts :
  forall (R : Type) a b i s caps (k : cont R),
    rmatch a i s caps k <> None \/ rmatch b i s caps k <> None ->
    rmatch (Alt a b) i s caps k <> None.
Proof.
  intros R a b i s caps k H. cbn [rmatch].
  destruct (rmatch a i s caps k); [easy|]. destruct H as [H|H]; easy.
Qed.

Lemma keyframe_step_percentage :
  forall d ds,
    is_digit d = true -> string_forall is_digit ds = true ->
    test keyframe_step_re (String d ds ++ "%") = true.
Proof.
  intros d ds Hd Hds. apply test_match_at.
  unfold match_at, keyframe_step_re. cbn [append].
  set (s := String d (ds ++ "%")).
  set (k := fun (i' : nat) (s' : string) (c' : captures) =>
              rmatch Eol i' s' ((1, take (i' - 0) s) :: c')
                     (fun e _ c => Some (e, c))).
  change (rmatch
            (Alt (Lit "0%")
               (Alt (Lit "100%")
                  (Alt (Seq (Plus (Chr is_digit)) (Lit "%"))
                     (Alt (Lit "from") (Lit "to"))))) 0 s [] k <> None).
  apply rmatch_alt_accepts. right.
  apply rmatch_alt_accepts. right.
  apply rmatch_alt_accepts. left.
  set (k2 := fun (i' : nat) (s' : string) (c' : captures) =>
               rmatch (Lit "%") i' s' c' k).
  change (rmatch (Chr is_digit) 0 s []
            (fun i' s' c' =>
               star_loop (rmatch (Chr is_digit)) k2
                         (S (String.length s')) i' s' c') <> None).
  unfold s. cbn [rmatch]. rewrite Hd.
  apply (star_class_accepts _ is_digit k2 ds
           (S (String.length (ds ++ "%"))) "%" 1 []).
  - exact Hds.
  - apply le_S. apply append_length_le.
  - unfold k2, k. cbn [Lit rmatch]. unfold is_char.
    rewrite Ascii.eqb_refl. easy.
Qed.

(** X19.  No rule that [extractRules] returns has the selector [from],
    [to], or a whole number followed by [%]: such a rule is dropped
    wherever it stands in the stylesheet, in a keyframes block or not. *)
Theorem extractRules_drops_keyframe_steps :
  forall (options : Options) (now : Z) (ast : CssNode) (rule : ParsedRule),
    In rule (fst (extractRules options now ast)) ->
    selector rule <> "from" /\ selector rule <> "to" /\
    forall d ds,
      is_digit d = true -> string_forall is_digit ds = true ->
      selector rule <> String d ds ++ "%".
Proof.
  intros options now ast rule H. unfold extractRules in H. cbn [fst] in H.
  apply filter_In in H. destruct H as [_ Hk]. unfold keep_rule in Hk.
  split; [|split].
  - intros E. rewrite E in Hk. discriminate Hk.
  - intros E. rewrite E in Hk. discriminate Hk.
  - intros d ds Hd Hds E. rewrite E in Hk.
    rewrite (keyframe_step_percentage d ds Hd Hds) in Hk.
    destruct d as [[] [] [] [] [] [] [] []]; try discriminate Hd;
      discriminate Hk.
Qed.

(** [@supports (display:grid){to{color:red}.a{color:red}}] *)
Definition steps_outside_keyframes : CssNode :=
  StyleSheet
    [Atrule "supports" (Some "(display:grid)")
            (Some ("{to{color:red}.a{color:red}}",
                   [Rule "to" (Some [decl "color" "red"]);
                    Rule ".a" (Some [decl "color" "red"])]))].

Lemma extractRules_drops_keyframe_steps_witness :
  let rules_ :=
    fst (extractRules default_options 0 steps_outside_keyframes) in
  map selector rules_ = ["@supports (display:grid)"; ".a"] /\
  exists rule,
    nth_error rules_ 1 = Some rule /\
    selector rule <> "from" /\ selector rule <> "to" /\
    forall d ds,
      is_digit d = true -> string_forall is_digit ds = true ->
      selector rule <> String d ds ++ "%".
Proof.
  split; [reflexivity|].
  eexists. split; [reflexivity|].
  apply (extractRules_drops_keyframe_steps default_options 0
           steps_outside_keyframes).
  right. left. reflexivity.
Defined.

(** *** Color values *)

Lemma lower_char_not_upper :
  forall c, is_upper (lower_char c) = false.
Proof.
  intros c. destruct c as [[] [] [] [] [] [] [] []]; reflexivity.
Qed.

Lemma toLowerCase_not_upper :
  forall s, string_forall (fun c => negb (is_upper c)) (toLowerCase s) = true.
Proof.
  induction s as [|c s IH]; cbn; [reflexivity|].
  now rewrite lower_char_not_upper, IH.
Qed.


(** *** The declarations of an at-rule block *)

Lemma atrule_declarations_spec :
  forall children h,
    exists added,
      fst (atrule_declarations children h) = (h ++ added)%list /\
      map (slot_of (h ++ added)%list) (snd (atrule_declarations children h)) =
        block_slots children.
Proof.
  induction children as [|node rest IH]; intros h.
  - exists []. split; [cbn; now rewrite app_nil_r|reflexivity].
  - assert (Hskip : atrule_declarations (node :: rest) h =
                    atrule_declarations rest h ->
                    block_slots (node :: rest) = block_slots rest ->
                    exists added,
                      fst (atrule_declarations (node :: rest) h) =
                        (h ++ added)%list /\
                      map (slot_of (h ++ added)%list)
                          (snd (atrule_declarations (node :: rest) h)) =
                        block_slots (node :: rest)).
    { intros E1 E2. rewrite E1, E2. apply IH. }
    destruct node as [cs|name prelude block_|prelude block_|imp p v|text|text];
      try (apply Hskip; reflexivity).
    cbn [atrule_declarations block_slots]. unfold alloc.
    destruct (IH (h ++ [new_declaration imp p v])%list) as [added [E1 E2]].
    destruct (atrule_declarations rest (h ++ [new_declaration imp p v])%list)
      as [h2 rs].
    cbn [fst snd] in *. subst h2.
    exists (new_declaration imp p v :: added).
    rewrite <- app_assoc in *. cbn [app] in *.
    split; [reflexivity|]. cbn [map]. rewrite E2. f_equal.
    unfold slot_of, deref. rewrite nth_middle. now destruct imp.
Qed.

(** X21.  For the block of an at-rule other than a media query or
    keyframes ([@font-face] and the like), the extracted list holds every
    declaration of the block in source order, repeated properties
    included: the rule of the last occurrence applies to rule blocks
    only. *)
Theorem atrule_declarations_keeps_all :
  forall (children : list CssNode) (h : Heap),
    map (slot_of (fst (atrule_declarations children h)))
        (snd (atrule_declarations children h)) =
      block_slots children.
Proof.
  intros children h.
  destruct (atrule_declarations_spec children h) as [added [E1 E2]].
  rewrite E1. exact E2.
Qed.

(** *** All categories switched off *)

(** [{ ...options, enableVariableExtraction: false }] on the resolved
    options. *)
Definition without_extraction (o : Options) : Options :=
  {| indentSize := indentSize o; indentType := indentType o;
     preserveComments := preserveComments o;
     sortProperties := sortProperties o; enableBEM := enableBEM o;
     enableSmartNesting := enableSmartNesting o;
     maxNestingDepth := maxNestingDepth o;
     enableDuplicateDetection := enableDuplicateDetection o;
     enableAdvancedBEM := enableAdvancedBEM o;
     enableMediaQueryGrouping := enableMediaQueryGrouping o;
     enableVariableExtraction := false;
     variablePrefix := variablePrefix o;
     minOccurrences := minOccurrences o;
     extractColors := extractColors o; extractSizes := extractSizes o;
     extractFonts := extractFonts o; extractOthers := extractOthers o |}.

Section NoCategory.
Variable options : Options.
Hypothesis no_colors : extractColors options = false.
Hypothesis no_sizes : extractSizes options = false.
Hypothesis no_fonts : extractFonts options = false.
Hypothesis no_others : extractOthers options = false.

Lemma no_category_extracted :
  forall category, shouldExtractCategory options category = false.
Proof.
  intros []; cbn; assumption.
Qed.

Lemma analyze_declaration_skips :
  forall sel acc decl_, analyze_declaration options sel acc decl_ = acc.
Proof.
  intros sel [occurrences candidates] decl_. unfold analyze_declaration.
  destruct (type decl_); [|reflexivity].
  destruct (property decl_) as [prop|]; [|reflexivity].
  destruct (truthy prop && truthy (value decl_)); [|reflexivity].
  now rewrite no_category_extracted.
Qed.

Lemma analyzeVariableCandidates_skips :
  forall h rules_,
    analyzeVariableCandidates options h rules_ new_instance = new_instance.
Proof.
  intros h rules_. unfold analyzeVariableCandidates.
  assert (E : forall acc,
             fold_left (analyze_rule options h) rules_ acc = acc).
  { induction rules_ as [|rule rest IH]; intros acc; cbn [fold_left];
      [reflexivity|].
    rewrite IH. unfold analyze_rule.
    induction (map (deref h) (declarations rule)) as [|d ds IHd];
      cbn [fold_left]; [reflexivity|].
    now rewrite analyze_declaration_skips. }
  rewrite E. reflexivity.
Qed.
End NoCategory.

Lemma replace_declaration_nothing :
  forall options h r, replace_declaration options [] h r = h.
Proof.
  intros options h r. unfold replace_declaration.
  destruct (type (deref h r)); [|reflexivity].
  destruct (property (deref h r)) as [prop|]; [|reflexivity].
  destruct (truthy prop && truthy (value (deref h r))); [|reflexivity].
  now destruct (String.eqb prop "@keyframes-block").
Qed.

Lemma replaceValuesWithVariables_nothing :
  forall options rules_ h,
    replaceValuesWithVariables options new_instance rules_ h = h.
Proof.
  intros options rules_ h. unfold replaceValuesWithVariables.
  rewrite replaceValuesWithVariables_flat.
  change (valueToVariable_of (extractedVariables new_instance))
    with (@nil (string * string)).
  induction (flat_map declarations rules_) as [|r rs IH]; cbn [fold_left];
    [reflexivity|].
  now rewrite replace_declaration_nothing.
Qed.

(** X22.  With the four category switches off ([extractColors],
    [extractSizes], [extractFonts], [extractOthers]), a new converter
    converts every text as it would with variable extraction disabled:
    the same outcome, and the instance stays as new. *)
Theorem convert_with_no_category :
  forall (parse : string -> ParseResult)
         (localeCompare : string -> string -> Z) (now : Z)
         (options : Options) (cssContent : string),
    extractColors options = false -> extractSizes options = false ->
    extractFonts options = false -> extractOthers options = false ->
    convert parse localeCompare now options new_instance cssContent =
      convert parse localeCompare now (without_extraction options)
              new_instance cssContent.
Proof.
  intros parse localeCompare now options cssContent Hc Hs Hf Ho.
  unfold convert. destruct (parse cssContent) as [ast|e]; [|reflexivity].
  assert (E : convert_ast localeCompare now options new_instance ast =
              convert_ast localeCompare now (without_extraction options)
                          new_instance ast).
  { unfold convert_ast.
    change (extractRules (without_extraction options) now ast)
      with (extractRules options now ast).
    destruct (extractRules options now ast) as [rules_ h0].
    change (enableVariableExtraction (without_extraction options))
      with false.
    destruct (enableVariableExtraction options); [|reflexivity].
    rewrite (analyzeVariableCandidates_skips options Hc Hs Hf Ho).
    change (extractVariables options new_instance) with new_instance.
    rewrite replaceValuesWithVariables_nothing.
    reflexivity. }
  now rewrite E.
Qed.

(** The options with the four categories off. *)
Definition no_category_options : Options :=
  constructor
    {| opt_indentSize := None; opt_indentType := None;
       opt_preserveComments := None; opt_sortProperties := None;
       opt_enableBEM := None; opt_enableSmartNesting := None;
       opt_maxNestingDepth := None; opt_enableDuplicateDetection := None;
       opt_enableAdvancedBEM := None; opt_enableMediaQueryGrouping := None;
       opt_enableVariableExtraction := None; opt_variablePrefix := None;
       opt_minOccurrences := None; opt_extractColors := Some false;
       opt_extractSizes := Some false; opt_extractFonts := Some false;
       opt_extractOthers := Some false |}.

Lemma convert_with_no_category_witness :
  convert whites_parser default_cmp 0 no_category_options new_instance
          two_whites_css =
    convert whites_parser default_cmp 0
            (without_extraction no_category_options) new_instance
            two_whites_css.
Proof.
  apply (convert_with_no_category whites_parser default_cmp 0
           no_category_options two_whites_css); reflexivity.
Defined.

(* ------------------------------------------------------------------ *)
(** ** The batch command

    The loop of the [batch] command of the command line
    ([src/src/improved-converter.ts]): one converter is built before the
    loop, and every file of the directory is read, converted with it and
    written; a file that fails is reported and the loop goes on.  The
    file system is a state of an abstract type: a read may throw, and a
    write returns the state it leaves, whether it throws or not.
    [outputFile] stands for
    [join(outputDir, basename(file).replace('.css', '.scss'))]. *)

Lemma convert_without_extraction :
  forall parse localeCompare now options this cssContent,
    enableVariableExtraction options = false ->
    convert parse localeCompare now options this cssContent =
      (fst (convert parse localeCompare now options new_instance
                    cssContent), this).
Proof.
  intros parse localeCompare now options this cssContent H.
  unfold convert. destruct (parse cssContent) as [ast|e]; [|reflexivity].
  unfold convert_ast.
  destruct (extractRules options now ast) as [rules_ h0].
  rewrite H. reflexivity.
Qed.

Section Batch.
Variable parse : string -> ParseResult.
Variable localeCompare : string -> string -> Z.
Variable now : Z.
Variable FileSystem : Type.
Variable readFileSync : FileSystem -> string -> Outcome string.
Variable writeFileSync :
  FileSystem -> string -> string -> Outcome unit * FileSystem.
Variable outputFile : string -> string.
Variable conversionOptions : VariableEnhancedConversionOptions.

Record BatchState : Type := {
  b_files : FileSystem;
  b_converter : Instance;
  b_successCount : nat
}.

(** The body of the loop, with its [try] and [catch]. *)
Definition batch_file (st : BatchState) (file : string) : BatchState :=
  match readFileSync (b_files st) file with
  | Ok cssContent =>
      let (r, this1) :=
        convert parse localeCompare now (constructor conversionOptions)
                (b_converter st) cssContent in
      match r with
      | Ok scssContent =>
          let (w, files1) :=
            writeFileSync (b_files st) (outputFile file) scssContent in
          {| b_files := files1; b_converter := this1;
             b_successCount :=
               match w with
               | Ok _ => S (b_successCount st)
               | _ => b_successCount st
               end |}
      | _ => {| b_files := b_files st; b_converter := this1;
                b_successCount := b_successCount st |}
      end
  | _ => st
  end.

(** [const converter = new CSSToSCSSConverter(conversionOptions)] and the
    loop over the files. *)
Definition batch (files : list string) (fs : FileSystem) : BatchState :=
  fold_left batch_file files
            {| b_files := fs; b_converter := new_instance;
               b_successCount := 0 |}.

(** The same loop with a converter of its own for every file. *)
Definition batch_file_fresh (st : BatchState) (file : string)
  : BatchState :=
  let st1 :=
    batch_file {| b_files := b_files st; b_converter := new_instance;
                  b_successCount := b_successCount st |} file in
  {| b_files := b_files st1; b_converter := new_instance;
     b_successCount := b_successCount st1 |}.

Definition batch_fresh (files : list string) (fs : FileSystem)
  : BatchState :=
  fold_left batch_file_fresh files
            {| b_files := fs; b_converter := new_instance;
               b_successCount := 0 |}.

Lemma batch_file_without_extraction :
  forall st file,
    enableVariableExtraction (constructor conversionOptions) = false ->
    b_converter st = new_instance ->
    batch_file st file = batch_file_fresh st file.
Proof.
  intros [fs this n] file He Hi. cbn [b_converter] in Hi. subst this.
  unfold batch_file_fresh, batch_file. cbn [b_files b_converter b_successCount].
  destruct (readFileSync fs file) as [cssContent| |]; try reflexivity.
  rewrite (convert_without_extraction parse localeCompare now _ new_instance
             cssContent He).
  destruct (fst (convert parse localeCompare now
                         (constructor conversionOptions) new_instance
                         cssContent)) as [scssContent| |]; try reflexivity.
  destruct (writeFileSync fs (outputFile file) scssContent) as [w fs1].
  reflexivity.
Qed.

End Batch.

(** A directory as a map from file names to contents, for which a read
    of a missing file throws and a write always succeeds. *)
Definition read_from (fs : JsMap string) (file : string) : Outcome string :=
  match map_get file fs with
  | Some content => Ok content
  | None => Throw (JsError "ENOENT: no such file or directory")
  end.

Definition write_to (fs : JsMap string) (file content : string)
  : Outcome unit * JsMap string :=
  (Ok tt, map_set file content fs).

(** The options object [{ enableVariableExtraction: false }]. *)
Definition no_variables : VariableEnhancedConversionOptions :=
  {| opt_indentSize := None; opt_indentType := None;
     opt_preserveComments := None; opt_sortProperties := None;
     opt_enableBEM := None; opt_enableSmartNesting := None;
     opt_maxNestingDepth := None; opt_enableDuplicateDetection := None;
     opt_enableAdvancedBEM := None; opt_enableMediaQueryGrouping := None;
     opt_enableVariableExtraction := Some false;
     opt_variablePrefix := None;
     opt_minOccurrences := None; opt_extractColors := None;
     opt_extractSizes := None; opt_extractFonts := None;
     opt_extractOthers := None |}.


(* ------------------------------------------------------------------ *)
(** ** The configuration and the state of an instance *)


Lemma map_set_keeps_keys :
  forall (V : Type) (k k' : string) (v : V) (m : JsMap V),
    In k (map_keys m) -> In k (map_keys (map_set k' v m)).
Proof.
  intros V k k' v m. induction m as [|[k0 v0] m IH]; cbn; [intros []|].
  destruct (String.eqb k' k0); cbn; intros [H|H]; auto.
Qed.

Lemma analyze_declaration_keeps_keys :
  forall options sel acc decl_ k,
    In k (map_keys (snd acc)) ->
    In k (map_keys (snd (analyze_declaration options sel acc decl_))).
Proof.
  intros options sel [occurrences candidates] decl_ k H.
  unfold analyze_declaration.
  destruct (type decl_); [|exact H].
  destruct (property decl_) as [prop|]; [|exact H].
  destruct (truthy prop && truthy (value decl_)); [|exact H].
  destruct (negb (shouldExtractCategory options _)); [exact H|].
  destruct (map_get _ (if map_has _ occurrences then _ else _));
    [|exact H].
  destruct (map_get _ (if map_has _ candidates then _ else _)) eqn:E;
    [|exact H].
  cbn [snd] in *. apply map_set_keeps_keys.
  destruct (map_has _ candidates); [exact H|].
  now apply map_set_keeps_keys.
Qed.

(** X25.  A conversion never forgets what the instance has learned: a
    key of the candidate map or of the map of extracted variables before
    a call of [convert] is a key of that map after it, for every text,
    also when the call throws. *)
Theorem convert_only_adds_to_the_instance :
  forall (parse : string -> ParseResult)
         (localeCompare : string -> string -> Z) (now : Z)
         (options : Options) (this : Instance) (cssContent : string),
    let after :=
      snd (convert parse localeCompare now options this cssContent) in
    incl (map_keys (variableCandidates this))
         (map_keys (variableCandidates after)) /\
    incl (map_keys (extractedVariables this))
         (map_keys (extractedVariables after)).
Proof.
  intros parse localeCompare now options this cssContent after.
  unfold after, convert.
  destruct (parse cssContent) as [ast|e];
    [|split; apply incl_refl].
  unfold convert_ast.
  destruct (extractRules options now ast) as [rules_ h0].
  destruct (enableVariableExtraction options);
    [|split; apply incl_refl].
  cbn [snd fst].
  assert (Hc : incl (map_keys (variableCandidates this))
                    (map_keys (variableCandidates
                       (analyzeVariableCandidates options h0 rules_ this)))).
  { unfold analyzeVariableCandidates.
    assert (G : forall acc k,
               In k (map_keys (snd acc)) ->
               In k (map_keys
                       (snd (fold_left (analyze_rule options h0) rules_
                                       acc)))).
    { induction rules_ as [|rule rest IH]; intros acc k Hk;
        cbn [fold_left]; [exact Hk|].
      apply IH. unfold analyze_rule.
      generalize dependent acc.
      induction (map (deref h0) (declarations rule)) as [|d ds IHd];
        intros acc Hk; cbn [fold_left]; [exact Hk|].
      apply IHd. now apply analyze_declaration_keeps_keys. }
    intros k Hk. specialize (G ([], variableCandidates this) k Hk).
    destruct (fold_left (analyze_rule options h0) rules_
                        ([], variableCandidates this)).
    exact G. }
  split.
  - exact Hc.
  - unfold extractVariables. cbn [extractedVariables].
    generalize (valueGroups_of options
                  (variableCandidates
                     (analyzeVariableCandidates options h0 rules_ this))).
    rewrite analyzeVariableCandidates_extracted.
    generalize (extractedVariables this) as extracted.
    intros extracted groups. revert extracted.
    induction groups as [|g groups IH]; intros extracted k Hk;
      cbn [fold_left]; [exact Hk|].
    apply IH. unfold extract_group.
    destruct (sort by_occurrences (snd g)); [exact Hk|].
    now apply map_set_keeps_keys.
Qed.

(* ------------------------------------------------------------------ *)
(** ** Smart nesting *)

Lemma prefix_cons :
  forall c a b, String.prefix (String c a) (String c b) = String.prefix a b.
Proof.
  intros c a b. cbn [String.prefix].
  destruct (ascii_dec c c) as [_|N]; [reflexivity|now elim N].
Qed.

Lemma prefix_refl : forall s, String.prefix s s = true.
Proof.
  induction s as [|c s IH]; [reflexivity|]. now rewrite prefix_cons.
Qed.

Lemma prefix_trans :
  forall a b c,
    String.prefix a b = true -> String.prefix b c = true ->
    String.prefix a c = true.
Proof.
  induction a as [|x a IH]; intros [|y b] [|z c]; cbn [String.prefix];
    try discriminate; try reflexivity.
  destruct (ascii_dec x y) as [->|]; [|discriminate].
  destruct (ascii_dec y z) as [->|]; [|discriminate].
  apply IH.
Qed.

Lemma prefix_forall :
  forall p a b,
    String.prefix a b = true -> string_forall p b = true ->
    string_forall p a = true.
Proof.
  intros p. induction a as [|x a IH]; intros [|y b]; cbn [String.prefix];
    try discriminate; try reflexivity.
  destruct (ascii_dec x y) as [->|]; [|discriminate].
  cbn [string_forall]. intros H Hb. apply andb_true_iff in Hb.
  destruct Hb as [Hy Hb]. now rewrite Hy, (IH b H Hb).
Qed.

(** The first piece of a split at a one-character class is a prefix of
    the text, free of the class. *)
Lemma run_class_prefix :
  forall q s i, String.prefix (fst (run (Chr q) i s 0)) s = true.
Proof.
  intros q. induction s as [|c s IH]; intros i; [reflexivity|].
  cbn [run]. unfold match_at. cbn [rmatch].
  destruct (q c).
  - replace (Nat.eqb (S i) i) with false
      by (symmetry; apply Nat.eqb_neq; lia).
    destruct (run (Chr q) (S i) s (S i - i - 1)). reflexivity.
  - specialize (IH (S i)).
    destruct (run (Chr q) (S i) s 0) as [t ms]. cbn [fst] in *.
    now rewrite prefix_cons.
Qed.

Lemma trim_no_space :
  forall s,
    string_forall (fun c => negb (is_space c)) s = true -> trim s = s.
Proof.
  intros s H. unfold trim.
  assert (E : forall t, string_forall (fun c => negb (is_space c)) t = true ->
                        trimEnd t = t).
  { induction t as [|c t IH]; [reflexivity|]. cbn [string_forall].
    intros Ht. apply andb_true_iff in Ht. destruct Ht as [Hc Ht].
    apply negb_true_iff in Hc. rewrite (trimEnd_cons c t Hc).
    now rewrite (IH Ht). }
  destruct s as [|c s]; [reflexivity|].
  cbn [string_forall] in H. pose proof H as H'.
  apply andb_true_iff in H'. destruct H' as [Hc _].
  apply negb_true_iff in Hc. cbn [trimStart]. rewrite Hc. now apply E.
Qed.

Lemma includes_char :
  forall x s,
    includes s (String x EmptyString) = false ->
    string_forall (fun c => negb (is_char x c)) s = true.
Proof.
  intros x. induction s as [|c s IH]; [reflexivity|].
  cbn [includes String.prefix string_forall].
  destruct (ascii_dec x c) as [->|N].
  - destruct s; cbn [String.prefix orb]; intros H; discriminate H.
  - cbn [orb]. intros H. rewrite (IH H), andb_true_r.
    unfold is_char. apply negb_true_iff. now apply Ascii.eqb_neq.
Qed.

(** A greedy loop over a one-character class that nothing follows takes
    a whole run of the class. *)
Lemma star_class_all :
  forall (p : ascii -> bool) ds n i caps,
    string_forall p ds = true ->
    String.length ds <= n ->
    star_loop (rmatch (Chr p)) (fun e _ c => Some (e, c)) n i ds caps =
      Some (i + String.length ds, caps).
Proof.
  intros p. set (step := rmatch (R := nat * captures) (Chr p)).
  induction ds as [|c ds IH]; intros n i caps Hp Hn.
  - cbn [String.length]. rewrite Nat.add_0_r.
    destruct n as [|n]; cbn [star_loop]; reflexivity.
  - cbn [string_forall] in Hp. apply andb_true_iff in Hp.
    destruct Hp as [Hc Hp]. cbn [String.length] in *.
    destruct n as [|n]; [lia|]. cbn [star_loop].
    unfold step at 1. cbn [rmatch]. rewrite Hc.
    replace (Nat.eqb (S i) i) with false
      by (symmetry; apply Nat.eqb_neq; lia).
    rewrite IH by (try exact Hp; lia). f_equal. f_equal. lia.
Qed.

(** [[^,\s]] *)
Definition pseudo_char (c : ascii) : bool :=
  negb (is_char "," c || is_space c).

Lemma pseudo_match_at :
  forall i c t,
    string_forall pseudo_char (String c t) = true ->
    match_at pseudo_g_re i (String ":" (String c t)) =
      Some (i + 2 + String.length t, []).
Proof.
  intros i c t H. unfold match_at, pseudo_g_re, Plus.
  cbn [string_forall] in H. apply andb_true_iff in H.
  destruct H as [Hc Ht].
  set (step := rmatch (R := nat * captures) (Chr pseudo_char)).
  change (step (S i) (String c t) []
            (fun i' s' c' =>
               star_loop step (fun e _ c0 => Some (e, c0))
                         (S (String.length s')) i' s' c') =
          Some (i + 2 + String.length t, [])).
  unfold step at 1. cbn [rmatch]. rewrite Hc. unfold step.
  rewrite star_class_all by (try exact Ht; lia).
  f_equal. f_equal. lia.
Qed.

Lemma run_skip_all :
  forall r,
    (forall j, match_at r j EmptyString = None) ->
    forall s i, run r i s (String.length s) = (EmptyString, []).
Proof.
  intros r Hr. induction s as [|c s IH]; intros i.
  - cbn [String.length run]. now rewrite Hr.
  - cbn [String.length run]. apply IH.
Qed.

Lemma pseudo_no_match :
  forall i c t,
    is_char ":" c = false \/ t = EmptyString ->
    match_at pseudo_g_re i (String c t) = None.
Proof.
  intros i c t H. unfold match_at, pseudo_g_re, Plus. cbn [Lit rmatch].
  destruct (is_char ":" c); [|reflexivity].
  destruct H as [H| ->]; [discriminate H|reflexivity].
Qed.

Lemma run_at_match :
  forall r i c s e caps,
    match_at r i (String c s) = Some (e, caps) ->
    Nat.eqb e i = false ->
    run r i (String c s) 0 =
      (EmptyString,
       (take (e - i) (String c s), fst (run r (S i) s (e - i - 1)))
         :: snd (run r (S i) s (e - i - 1))).
Proof.
  intros r i c s e caps H E. cbn [run]. rewrite H, E.
  now destruct (run r (S i) s (e - i - 1)).
Qed.

Lemma replace_pseudo_run :
  forall t i,
    string_forall pseudo_char t = true ->
    String.prefix
      (fst (run pseudo_g_re i t 0) ++
       String.concat EmptyString
         (map (fun m => EmptyString ++ snd m) (snd (run pseudo_g_re i t 0))))
      t = true.
Proof.
  induction t as [|c t IH]; intros i H; [reflexivity|].
  cbn [string_forall] in H. apply andb_true_iff in H.
  destruct H as [_ H].
  assert (Hno : match_at pseudo_g_re i (String c t) = None ->
                String.prefix
                  (fst (run pseudo_g_re i (String c t) 0) ++
                   String.concat EmptyString
                     (map (fun m => EmptyString ++ snd m)
                          (snd (run pseudo_g_re i (String c t) 0))))
                  (String c t) = true).
  { intros E. specialize (IH (S i) H). cbn [run]. rewrite E.
    destruct (run pseudo_g_re (S i) t 0) as [u ms]. cbn [fst snd] in *.
    cbn [append]. now rewrite prefix_cons. }
  destruct (is_char ":" c) eqn:Ec.
  - destruct t as [|c2 t2].
    + apply Hno. apply pseudo_no_match. now right.
    + unfold is_char in Ec. apply Ascii.eqb_eq in Ec. subst c.
      rewrite (run_at_match _ _ _ _ _ _ (pseudo_match_at i c2 t2 H))
        by (apply Nat.eqb_neq; lia).
      replace (i + 2 + String.length t2 - i - 1)
        with (String.length (String c2 t2))
        by (cbn [String.length]; lia).
      rewrite run_skip_all by reflexivity. reflexivity.
  - apply Hno. apply pseudo_no_match. now left.
Qed.

Lemma replace_pseudo_prefix :
  forall t,
    string_forall pseudo_char t = true ->
    String.prefix (replace_g pseudo_g_re EmptyString t) t = true.
Proof.
  intros t H. unfold replace_g.
  pose proof (replace_pseudo_run t 0 H) as P.
  destruct (run pseudo_g_re 0 t 0) as [u ms]. exact P.
Qed.

Lemma extractBasePattern_prefix :
  forall selector_,
    String.prefix (extractBasePattern selector_) selector_ = true.
Proof.
  intros s. unfold extractBasePattern.
  destruct (includes s ",") eqn:E; [apply prefix_refl|].
  unfold split, combinator_re.
  set (q := fun c => is_space c || is_char ">" c || is_char "+" c
                     || is_char "~" c).
  pose proof (run_class_prefix q s 0) as Hp.
  destruct (run_class q s 0) as [Hq _].
  destruct (run (Chr q) 0 s 0) as [t ms]. cbn [fst hd] in *.
  assert (Hs : string_forall (fun c => negb (is_space c)) t = true).
  { clear Hp. induction t as [|c t IH]; [reflexivity|].
    cbn [string_forall] in *. apply andb_true_iff in Hq.
    destruct Hq as [Hc Hq]. rewrite (IH Hq), andb_true_r.
    unfold Not, q in Hc. destruct (is_space c); [discriminate Hc|].
    reflexivity. }
  rewrite (trim_no_space t Hs).
  apply prefix_trans with t; [|exact Hp].
  apply replace_pseudo_prefix.
  pose proof (prefix_forall _ _ _ Hp (includes_char "," s E)) as Hc.
  clear Hp Hq. induction t as [|c t IH]; [reflexivity|].
  cbn [string_forall] in *.
  apply andb_true_iff in Hs. destruct Hs as [Hs1 Hs2].
  apply andb_true_iff in Hc. destruct Hc as [Hc1 Hc2].
  rewrite (IH Hs2 Hc2), andb_true_r. unfold pseudo_char.
  apply negb_true_iff in Hs1, Hc1. now rewrite Hs1, Hc1.
Qed.

(** X26.  The base pattern that [extractBasePattern] computes for a
    selector is a prefix of the selector.  So when [insertSmartNestedRule]
    inserts a rule under the node of its own base pattern, as
    [buildSmartNestedGroup] does, the declarations of the rule go to
    that node when the selector is the base pattern (or a selector list),
    and otherwise to its child [&rest], where the base pattern followed
    by [rest] is the selector; the declarations that were there stay
    before them, and the fallback through [parseComplexSelector] is not
    taken. *)
Theorem smart_nesting_places_a_rule :
  forall (rule : ParsedRule) (baseNode : NestedRule),
    let base := extractBasePattern (selector rule) in
    let node := insertSmartNestedRule base baseNode rule in
    startsWith (selector rule) base = true /\
    (selector rule = base ->
     node = push_declarations (declarations rule) baseNode) /\
    (selector rule <> base ->
     exists rest child,
       selector rule = base ++ rest /\
       node_at ["&" ++ rest] node = Some child /\
       n_declarations child =
         (declarations_at [("&" ++ rest)%string] baseNode
            ++ declarations rule)%list /\
       n_children child = children_at ["&" ++ rest] baseNode /\
       n_declarations node = n_declarations baseNode).
Proof.
  intros rule baseNode base node.
  pose proof (extractBasePattern_prefix (selector rule)) as Hp.
  fold base in Hp. split; [exact Hp|]. split.
  - intros E. unfold node, insertSmartNestedRule. rewrite <- E.
    rewrite String.eqb_refl. now destruct (includes (selector rule) ",").
  - intros N. unfold node, insertSmartNestedRule.
    assert (Hc : includes (selector rule) "," = false).
    { destruct (includes (selector rule) ",") eqn:E; [|reflexivity].
      exfalso. apply N. unfold base, extractBasePattern. now rewrite E. }
    rewrite Hc.
    replace (String.eqb (selector rule) base) with false
      by (symmetry; now apply String.eqb_neq).
    unfold startsWith. rewrite Hp.
    set (rest := drop (String.length base) (selector rule)).
    unfold declarations_at, children_at. cbn [node_at].
    unfold with_child.
    destruct (map_get ("&" ++ rest) (n_children baseNode)) as [c|] eqn:E.
    + exists rest, (push_declarations (declarations rule) c).
      split; [now apply prefix_drop|].
      unfold set_child. cbn [n_children n_declarations].
      rewrite map_get_set_same, E. now repeat split.
    + exists rest,
        (push_declarations (declarations rule)
                           (new_node ("&" ++ rest) None)).
      split; [now apply prefix_drop|].
      unfold set_child. cbn [n_children n_declarations].
      rewrite map_get_set_same, E. now repeat split.
Qed.

(* ------------------------------------------------------------------ *)
(** ** Basic nesting keeps every declaration *)

(** The number of declaration entries in a tree. *)
Fixpoint tree_size (n : NestedRule) : nat :=
  match n with
  | mkNestedRule _ decls children _ =>
      List.length decls +
      (fix sizes (l : list (string * NestedRule)) : nat :=
         match l with
         | [] => 0
         | (_, c) :: l' => tree_size c + sizes l'
         end) children
  end.

Definition children_size (l : list (string * NestedRule)) : nat :=
  list_sum (map (fun entry => tree_size (snd entry)) l).

Lemma tree_size_eq :
  forall n,
    tree_size n = List.length (n_declarations n) + children_size (n_children n).
Proof.
  intros [sel decls children bem]. cbn [tree_size n_declarations n_children].
  f_equal. unfold children_size.
  induction children as [|[k c] l IH]; [reflexivity|].
  cbn [map list_sum fold_right snd] in *. now rewrite IH.
Qed.

Lemma children_size_cons :
  forall k c l, children_size ((k, c) :: l) = tree_size c + children_size l.
Proof.
  reflexivity.
Qed.

Lemma children_size_set :
  forall k c m,
    children_size (map_set k c m) +
      match map_get k m with Some old => tree_size old | None => 0 end =
    children_size m + tree_size c.
Proof.
  intros k c m.
  induction m as [|[k' c'] m IH]; cbn [map_set map_get].
  - rewrite children_size_cons. unfold children_size. cbn. lia.
  - destruct (String.eqb k k'); rewrite !children_size_cons; lia.
Qed.

Lemma tree_size_push :
  forall decls n,
    tree_size (push_declarations decls n) = tree_size n + List.length decls.
Proof.
  intros decls n. rewrite !tree_size_eq. unfold push_declarations.
  cbn [n_declarations n_children]. rewrite length_app. lia.
Qed.

Lemma tree_size_with_child :
  forall k fresh f node extra,
    tree_size fresh = 0 ->
    (forall c, tree_size (f c) = tree_size c + extra) ->
    tree_size (with_child k fresh f node) = tree_size node + extra.
Proof.
  intros k fresh f node extra Hfresh Hf. unfold with_child.
  destruct (map_get k (n_children node)) as [c|] eqn:E;
    rewrite !tree_size_eq; unfold set_child;
    cbn [n_declarations n_children];
    match goal with
    | |- context [map_set k ?x _] =>
        pose proof (children_size_set k x (n_children node)) as Hs
    end;
    rewrite E, Hf in Hs; lia.
Qed.

Lemma tree_size_insertComplexNestedRule :
  forall selectorParts decls parent,
    tree_size (insertComplexNestedRule selectorParts decls parent) =
      tree_size parent + List.length decls.
Proof.
  induction selectorParts as [|part rest IH]; intros decls parent;
    cbn [insertComplexNestedRule].
  - apply tree_size_push.
  - apply tree_size_with_child; [reflexivity|]. intros c. apply IH.
Qed.

(** X27.  [buildBasicNestedStructure] loses and repeats no declaration:
    the tree it returns holds as many declaration entries as the root it
    was given and the rules together.  (With BEM support or smart
    nesting, at-rules with one header overwrite each other instead.) *)
Theorem buildBasicNestedStructure_keeps_all :
  forall (rules_ : list ParsedRule) (root : NestedRule),
    tree_size (buildBasicNestedStructure rules_ root) =
      tree_size root + List.length (flat_map declarations rules_).
Proof.
  intros rules_. unfold buildBasicNestedStructure.
  induction rules_ as [|rule rest IH]; intros root;
    cbn [fold_left flat_map].
  - cbn. lia.
  - rewrite IH, length_app.
    destruct (String.eqb (selector rule) "/* COMMENT */").
    + rewrite tree_size_push. lia.
    + rewrite tree_size_insertComplexNestedRule. lia.
Qed.

(* ------------------------------------------------------------------ *)
(** ** Empty blocks are not printed *)

(** The test of [formatSCSS] on a child: it has a declaration or a
    child of its own. *)
Definition printed (entry : string * NestedRule) : bool :=
  negb (is_nil (n_declarations (snd entry)))
  || negb (is_nil (n_children (snd entry))).


(** [.a{}.b{color:red}] *)
Definition empty_then_red : CssNode :=
  StyleSheet [Rule ".a" (Some []); Rule ".b" (Some [decl "color" "red"])].


(* ------------------------------------------------------------------ *)
(** ** The clock

    [extractRules] reads [Date.now()] for the [hash] field of the rules
    of at-rules and comments.  Nothing reads that field afterwards: the
    rest of the conversion sees the rules up to their [hash]. *)

(** A rule without its [hash]. *)
Definition erase (r : ParsedRule) : ParsedRule :=
  {| selector := selector r; declarations := declarations r;
     specificity := specificity r; bemInfo := bemInfo r;
     mediaQuery := mediaQuery r; hash := None |}.

Definition same_walk (a b : WalkState) : Prop :=
  w_media a = w_media b /\ w_heap a = w_heap b /\
  map erase (w_rules a) = map erase (w_rules b).

Lemma push_rule_same :
  forall a b h r1 r2,
    same_walk a b -> erase r1 = erase r2 ->
    same_walk (push_rule a h r1) (push_rule b h r2).
Proof.
  intros a b h r1 r2 [Hm [Hh Hr]] E. unfold same_walk, push_rule.
  cbn [w_media w_heap w_rules]. repeat split; try assumption.
  rewrite !map_app, Hr. cbn [map]. now rewrite E.
Qed.

Lemma visit_same :
  forall options now1 now2 node a b,
    same_walk a b ->
    same_walk (visit options now1 node a) (visit options now2 node b).
Proof.
  intros options now1 now2 node a b H.
  pose proof H as [Hm [Hh Hr]].
  destruct node as [cs|name prelude block_|prelude block_|imp p v|text|text];
    cbn [visit]; try exact H.
  - destruct (String.eqb name "media"), prelude as [p|];
      try (repeat split; assumption);
      destruct (is_keyframes name); try destruct block_ as [[bt cs]|];
      try exact H; rewrite <- ?Hh, <- ?Hm;
      try (destruct (atrule_declarations cs (w_heap a)) as [h1 decls]);
      try (apply push_rule_same; [exact H|reflexivity]).
  - rewrite <- Hh, <- Hm.
    destruct (match block_ with
              | Some children => rule_declarations children [] [] (w_heap a)
              | None => (w_heap a, [])
              end) as [h1 decls].
    unfold same_walk. cbn [w_media w_heap w_rules].
    repeat split; try assumption. now rewrite !map_app, Hr.
  - destruct (preserveComments options); [|exact H].
    rewrite <- Hh, <- Hm. cbn [alloc].
    apply push_rule_same; [exact H|reflexivity].
Qed.

Lemma walk_same :
  forall options now1 now2 node a b,
    same_walk a b ->
    same_walk (walk options now1 node a) (walk options now2 node b).
Proof.
  intros options now1 now2. fix IH 1. intros node a b H.
  pose proof (visit_same options now1 now2 node a b H) as Hv.
  destruct node as [cs|name prelude block_|prelude block_|imp p v|text|text];
    cbn [walk]; try exact Hv.
  - revert Hv. generalize (visit options now1 (StyleSheet cs) a).
    generalize (visit options now2 (StyleSheet cs) b).
    induction cs as [|c cs IHcs]; intros s2 s1 Hs; [exact Hs|].
    apply IHcs. now apply IH.
  - destruct block_ as [[bt cs]|]; [|exact Hv].
    revert Hv.
    generalize (visit options now1 (Atrule name prelude (Some (bt, cs))) a).
    generalize (visit options now2 (Atrule name prelude (Some (bt, cs))) b).
    induction cs as [|c cs IHcs]; intros s2 s1 Hs; [exact Hs|].
    apply IHcs. now apply IH.
  - destruct block_ as [cs|]; [|exact Hv].
    revert Hv.
    generalize (visit options now1 (Rule prelude (Some cs)) a).
    generalize (visit options now2 (Rule prelude (Some cs)) b).
    induction cs as [|c cs IHcs]; intros s2 s1 Hs; [exact Hs|].
    apply IHcs. now apply IH.
Qed.

Lemma extractRules_clock :
  forall options now1 now2 ast,
    map erase (fst (extractRules options now1 ast)) =
      map erase (fst (extractRules options now2 ast)) /\
    snd (extractRules options now1 ast) =
      snd (extractRules options now2 ast).
Proof.
  intros options now1 now2 ast. unfold extractRules. cbn [fst snd].
  destruct (walk_same options now1 now2 ast
              {| w_rules := []; w_media := EmptyString; w_heap := [] |}
              {| w_rules := []; w_media := EmptyString; w_heap := [] |})
    as [_ [Hh Hr]]; [repeat split|].
  split; [|exact Hh].
  revert Hr. generalize (w_rules (walk options now1 ast
    {| w_rules := []; w_media := EmptyString; w_heap := [] |})).
  generalize (w_rules (walk options now2 ast
    {| w_rules := []; w_media := EmptyString; w_heap := [] |})).
  intros l2. induction l2 as [|y l2 IH]; intros [|x l1] E;
    try discriminate E; [reflexivity|].
  cbn [map] in E.
  assert (Exy : erase x = erase y) by congruence.
  assert (El : map erase l1 = map erase l2) by congruence.
  cbn [filter].
  assert (Hk : keep_rule x = keep_rule y).
  { unfold keep_rule. apply (f_equal selector) in Exy.
    cbn [erase selector] in Exy. now rewrite Exy. }
  rewrite Hk. destruct (keep_rule y); cbn [map];
    [rewrite Exy; f_equal|]; now apply IH.
Qed.

Lemma fold_left_erase :
  forall (S : Type) (f : S -> ParsedRule -> S),
    (forall s r, f s (erase r) = f s r) ->
    forall l s, fold_left f (map erase l) s = fold_left f l s.
Proof.
  intros S f Hf. induction l as [|r l IH]; intros s; cbn [map fold_left];
    [reflexivity|].
  now rewrite Hf, IH.
Qed.

(** A map with [f] applied to its values. *)
Definition map_vals (A B : Type) (f : A -> B) (m : JsMap A) : JsMap B :=
  map (fun entry => (fst entry, f (snd entry))) m.

Lemma map_get_vals :
  forall (A B : Type) (f : A -> B) k (m : JsMap A),
    map_get k (map_vals A B f m) =
      match map_get k m with Some v => Some (f v) | None => None end.
Proof.
  intros A B f k m. induction m as [|[k' v] m IH]; [reflexivity|].
  cbn [map_vals map map_get fst snd]. fold (map_vals A B f m).
  now destruct (String.eqb k k').
Qed.

Lemma map_set_vals :
  forall (A B : Type) (f : A -> B) k v (m : JsMap A),
    map_set k (f v) (map_vals A B f m) = map_vals A B f (map_set k v m).
Proof.
  intros A B f k v m. induction m as [|[k' v'] m IH]; [reflexivity|].
  cbn [map_vals map map_set fst snd]. fold (map_vals A B f m).
  destruct (String.eqb k k'); cbn [map fst snd]; [reflexivity|].
  fold (map_vals A B f (map_set k v m)). now rewrite IH.
Qed.

Lemma map_push_vals :
  forall (A B : Type) (f : A -> B) k x (m : JsMap (list A)),
    map_push k (f x) (map_vals (list A) (list B) (map f) m) =
      map_vals (list A) (list B) (map f) (map_push k x m).
Proof.
  intros A B f k x m. unfold map_push. rewrite map_get_vals.
  destruct (map_get k m) as [l|].
  - rewrite <- map_set_vals. now rewrite map_app.
  - now rewrite <- map_set_vals.
Qed.

Lemma group_by_erase :
  forall (key : ParsedRule -> string),
    (forall r, key (erase r) = key r) ->
    forall l m,
      fold_left (fun groups rule => map_push (key rule) rule groups)
                (map erase l)
                (map_vals _ _ (map erase) m) =
        map_vals _ _ (map erase)
                 (fold_left (fun groups rule => map_push (key rule) rule groups)
                            l m).
Proof.
  intros key Hk. induction l as [|r l IH]; intros m; cbn [map fold_left];
    [reflexivity|].
  now rewrite Hk, map_push_vals, IH.
Qed.

(** *** The duplicate detector up to [hash] *)

Lemma merge_bucket_erase :
  forall h mediaKey declHash l,
    map erase (merge_bucket h mediaKey declHash (map erase l)) =
      map erase (merge_bucket h mediaKey declHash l).
Proof.
  intros h mediaKey declHash l.
  assert (W : map erase (map (with_media mediaKey) (map erase l)) =
              map erase (map (with_media mediaKey) l)).
  { rewrite !map_map. apply map_ext. reflexivity. }
  destruct l as [|x [|y l]]; try exact W.
  unfold merge_bucket.
  change (map erase (x :: y :: l)) with (erase x :: erase y :: map erase l).
  cbn [selector erase declarations].
  destruct (negb (String.eqb (selector x) "/* COMMENT */")); [|exact W].
  assert (F : forallb
                (fun rule =>
                   declarationsEqual h (declarations rule) (declarations x))
                (erase x :: erase y :: map erase l) =
              forallb
                (fun rule =>
                   declarationsEqual h (declarations rule) (declarations x))
                (x :: y :: l)).
  { clear W. cbn [forallb erase declarations]. f_equal. f_equal.
    induction l as [|z l IHl]; [reflexivity|].
    cbn [map forallb erase declarations]. now rewrite IHl. }
  rewrite F. destruct (forallb _ (x :: y :: l)); [|exact W].
  cbn [map erase selector declarations specificity bemInfo mediaQuery].
  replace (map selector (map erase l)) with (map selector l);
    [reflexivity|].
  rewrite map_map. apply map_ext. reflexivity.
Qed.

Lemma mediaQueryGroups_erase :
  forall h l g,
    fold_left (add_to_groups h) (map erase l)
              (map_vals _ _ (map_vals _ _ (map erase)) g) =
      map_vals _ _ (map_vals _ _ (map erase))
               (fold_left (add_to_groups h) l g).
Proof.
  intros h. induction l as [|r l IH]; intros g; cbn [map fold_left];
    [reflexivity|].
  rewrite <- IH. f_equal. unfold add_to_groups.
  cbn [erase mediaQuery declarations]. rewrite map_get_vals.
  rewrite <- map_set_vals. f_equal.
  destruct (map_get (media_or (mediaQuery r) "default") g) as [mg|].
  - apply (map_push_vals _ _ erase).
  - apply (map_push_vals _ _ erase _ r []).
Qed.

Lemma merge_media_group_erase :
  forall h mediaKey mediaGroup,
    map erase
        (merge_media_group h
           (mediaKey, map_vals _ _ (map erase) mediaGroup)) =
      map erase (merge_media_group h (mediaKey, mediaGroup)).
Proof.
  intros h mediaKey mediaGroup. unfold merge_media_group. cbn [fst snd].
  induction mediaGroup as [|[dh bucket_] mg IH]; [reflexivity|].
  unfold map_vals in *. cbn [map flat_map fst snd].
  rewrite !map_app. f_equal; [apply merge_bucket_erase|exact IH].
Qed.

Lemma detectAndMergeDuplicates_erase :
  forall h l,
    map erase (detectAndMergeDuplicates h (map erase l)) =
      map erase (detectAndMergeDuplicates h l).
Proof.
  intros h l. unfold detectAndMergeDuplicates, mediaQueryGroups_of.
  change (@nil (string * JsMap (list ParsedRule)))
    with (map_vals _ _ (map_vals _ _ (map erase))
                   (@nil (string * JsMap (list ParsedRule)))) at 1.
  rewrite mediaQueryGroups_erase.
  induction (fold_left (add_to_groups h) l []) as [|[mk mg] g IH];
    [reflexivity|].
  unfold map_vals at 1. cbn [map flat_map fst snd].
  fold (map_vals _ _ (map_vals _ _ (map erase)) g).
  rewrite !map_app. f_equal; [apply merge_media_group_erase|exact IH].
Qed.

(** *** The tree builder up to [hash] *)

Lemma fold_left_pointwise :
  forall (S A : Type) (f g : S -> A -> S),
    (forall s x, f s x = g s x) ->
    forall l s, fold_left f l s = fold_left g l s.
Proof.
  intros S A f g H. induction l as [|x l IH]; intros s; cbn [fold_left];
    [reflexivity|].
  now rewrite H, IH.
Qed.

Lemma buildSmartNestedGroup_erase :
  forall root k l,
    buildSmartNestedGroup root (k, map erase l) =
      buildSmartNestedGroup root (k, l).
Proof.
  intros root k l. unfold buildSmartNestedGroup. cbn [fst snd].
  destruct (String.eqb k "COMMENTS").
  - now apply fold_left_erase.
  - destruct (startsWith k "@").
    + now apply fold_left_erase.
    + unfold with_child.
      destruct (map_get k (n_children root)); f_equal;
        now apply fold_left_erase.
Qed.

(** The key under which [groupRulesByPattern] files a rule. *)
Definition pattern_key (rule : ParsedRule) : string :=
  if String.eqb (selector rule) "/* COMMENT */" then "COMMENTS"
  else if startsWith (selector rule) "@" then selector rule
  else extractBasePattern (selector rule).

Lemma groupRulesByPattern_key :
  forall l,
    groupRulesByPattern l =
      fold_left (fun groups rule => map_push (pattern_key rule) rule groups)
                l [].
Proof.
  intros l. unfold groupRulesByPattern. apply fold_left_pointwise.
  intros groups rule. unfold pattern_key.
  destruct (String.eqb (selector rule) "/* COMMENT */"); [reflexivity|].
  now destruct (startsWith (selector rule) "@").
Qed.

Lemma buildSmartNestedStructure_erase :
  forall l root,
    buildSmartNestedStructure (map erase l) root =
      buildSmartNestedStructure l root.
Proof.
  intros l root. unfold buildSmartNestedStructure.
  rewrite !groupRulesByPattern_key.
  change (@nil (string * list ParsedRule))
    with (map_vals _ _ (map erase) (@nil (string * list ParsedRule))) at 1.
  rewrite (group_by_erase pattern_key) by reflexivity.
  generalize (fold_left
                (fun groups rule => map_push (pattern_key rule) rule groups)
                l []).
  intros groups. revert root.
  induction groups as [|[k rules_] groups IH]; intros root; [reflexivity|].
  unfold map_vals. cbn [map fold_left fst snd].
  rewrite buildSmartNestedGroup_erase. apply IH.
Qed.

Lemma buildAdvancedBEMBlock_erase :
  forall root k l,
    buildAdvancedBEMBlock root (k, map erase l) =
      buildAdvancedBEMBlock root (k, l).
Proof.
  intros root k l. unfold buildAdvancedBEMBlock. cbn [fst snd].
  unfold with_child.
  destruct (map_get ("." ++ k) (n_children root)); f_equal;
    now apply fold_left_erase.
Qed.

Definition erase_partition (p : Partition) : Partition :=
  {| p_root := p_root p;
     bemBlocks := map_vals _ _ (map erase) (bemBlocks p);
     nonBemRules := map erase (nonBemRules p);
     atRules := map erase (atRules p) |}.

Lemma partition_rule_erase :
  forall p r,
    partition_rule (erase_partition p) (erase r) =
      erase_partition (partition_rule p r).
Proof.
  intros p r. unfold partition_rule. cbn [erase selector bemInfo].
  destruct (String.eqb (selector r) "/* COMMENT */"); [reflexivity|].
  destruct (startsWith (selector r) "@").
  - unfold erase_partition. cbn. now rewrite map_app.
  - destruct (bemInfo r) as [bem|].
    + unfold erase_partition. cbn. f_equal.
      apply (map_push_vals _ _ erase).
    + unfold erase_partition. cbn. now rewrite map_app.
Qed.

Lemma buildAdvancedBEMStructure_erase :
  forall l root,
    buildAdvancedBEMStructure (map erase l) root =
      buildAdvancedBEMStructure l root.
Proof.
  intros l root. unfold buildAdvancedBEMStructure.
  set (p0 := {| p_root := root; bemBlocks := []; nonBemRules := [];
                atRules := [] |}).
  assert (E : fold_left partition_rule (map erase l) p0 =
              erase_partition (fold_left partition_rule l p0)).
  { change p0 with (erase_partition p0) at 1. generalize p0.
    induction l as [|r l IH]; intros p; cbn [map fold_left]; [reflexivity|].
    now rewrite partition_rule_erase, IH. }
  rewrite E. generalize (fold_left partition_rule l p0). intros p.
  cbv zeta. cbn [erase_partition p_root bemBlocks nonBemRules atRules].
  rewrite (fold_left_erase NestedRule) by reflexivity.
  generalize (fold_left
                (fun node rule =>
                   set_child (selector rule)
                     (mkNestedRule (selector rule) (declarations rule) []
                                   None) node)
                (atRules p) (p_root p)).
  intros root1.
  assert (B : forall blocks r0,
             fold_left buildAdvancedBEMBlock
                       (map_vals _ _ (map erase) blocks) r0 =
               fold_left buildAdvancedBEMBlock blocks r0).
  { induction blocks as [|[k rules_] blocks IH]; intros r0; [reflexivity|].
    unfold map_vals. cbn [map fold_left fst snd].
    rewrite buildAdvancedBEMBlock_erase. apply IH. }
  rewrite B.
  destruct (nonBemRules p) as [|r rs]; [reflexivity|].
  cbn [map].
  apply (buildSmartNestedStructure_erase (r :: rs)).
Qed.

Lemma buildAdvancedNestedStructure_erase :
  forall options l,
    buildAdvancedNestedStructure options (map erase l) =
      buildAdvancedNestedStructure options l.
Proof.
  intros options l. unfold buildAdvancedNestedStructure.
  destruct (enableBEM options); [apply buildAdvancedBEMStructure_erase|].
  destruct (enableSmartNesting options);
    [apply buildSmartNestedStructure_erase|].
  unfold buildBasicNestedStructure. now apply fold_left_erase.
Qed.

(** *** The conversion does not read the clock *)

Definition erase_group (g : MediaQueryGroup) : MediaQueryGroup :=
  {| query := query g; rules := map erase (rules g) |}.

Lemma groupByMediaQuery_erase :
  forall l,
    groupByMediaQuery (map erase l) = map erase_group (groupByMediaQuery l).
Proof.
  intros l. unfold groupByMediaQuery.
  change (@nil (string * list ParsedRule))
    with (map_vals _ _ (map erase) (@nil (string * list ParsedRule))) at 1.
  rewrite (group_by_erase
             (fun rule => media_or (mediaQuery rule) EmptyString))
    by reflexivity.
  unfold map_vals. rewrite !map_map. apply map_ext. reflexivity.
Qed.

Lemma analyzeVariableCandidates_erase :
  forall options h l this,
    analyzeVariableCandidates options h (map erase l) this =
      analyzeVariableCandidates options h l this.
Proof.
  intros options h l this. unfold analyzeVariableCandidates.
  now rewrite fold_left_erase by reflexivity.
Qed.

Lemma replaceValuesWithVariables_erase :
  forall options this l h,
    replaceValuesWithVariables options this (map erase l) h =
      replaceValuesWithVariables options this l h.
Proof.
  intros options this l h. unfold replaceValuesWithVariables.
  now rewrite fold_left_erase by reflexivity.
Qed.

Section Clock.
Variable localeCompare : string -> string -> Z.
Variable options : Options.

(** The conversion of the rules that [extractRules] returned. *)
Definition convert_rules (this : Instance) (rules_ : list ParsedRule)
           (h0 : Heap) : Outcome string * Instance :=
  let (this1, h1) :=
    if enableVariableExtraction options then
      let t1 := analyzeVariableCandidates options h0 rules_ this in
      let t2 := extractVariables options t1 in
      (t2, replaceValuesWithVariables options t2 rules_ h0)
    else (this, h0) in
  let deduplicatedRules :=
    if enableDuplicateDetection options
    then detectAndMergeDuplicates h1 rules_ else rules_ in
  let mediaGroups :=
    if enableMediaQueryGrouping options
    then groupByMediaQuery deduplicatedRules
    else [ {| query := EmptyString; rules := deduplicatedRules |} ] in
  let result0 :=
    if enableVariableExtraction options
       && negb (is_nil (extractedVariables this1))
    then formatVariables localeCompare this1 ++ nl
    else EmptyString in
  (result <- for_each
               (fun result group =>
                  let nestedStructure :=
                    buildAdvancedNestedStructure options (rules group) in
                  formattedCSS <-
                    formatSCSS options localeCompare h1
                               (tree_height nestedStructure)
                               nestedStructure 0 ;;
                  if truthy (query group) then
                    indented <- indentContent options formattedCSS 1 ;;
                    Ok (result ++ "@media " ++ query group ++ " {" ++ nl
                               ++ indented ++ "}" ++ nl ++ nl)
                  else Ok (result ++ formattedCSS))
               mediaGroups result0 ;;
   Ok (trim result ++ nl),
   this1).

Lemma convert_ast_rules :
  forall now this ast,
    convert_ast localeCompare now options this ast =
      convert_rules this (fst (extractRules options now ast))
                    (snd (extractRules options now ast)).
Proof.
  intros now this ast. unfold convert_ast, convert_rules.
  now destruct (extractRules options now ast).
Qed.

Lemma convert_rules_erase :
  forall this l h0,
    convert_rules this (map erase l) h0 = convert_rules this l h0.
Proof.
  intros this l h0. unfold convert_rules.
  rewrite analyzeVariableCandidates_erase,
          replaceValuesWithVariables_erase.
  destruct (if enableVariableExtraction options then _ else (this, h0))
    as [this1 h1].
  set (d1 := if enableDuplicateDetection options
             then detectAndMergeDuplicates h1 (map erase l)
             else map erase l).
  set (d2 := if enableDuplicateDetection options
             then detectAndMergeDuplicates h1 l else l).
  assert (Ed : map erase d1 = map erase d2).
  { unfold d1, d2. destruct (enableDuplicateDetection options).
    - apply detectAndMergeDuplicates_erase.
    - rewrite map_map. apply map_ext. reflexivity. }
  set (g1 := if enableMediaQueryGrouping options
             then groupByMediaQuery d1
             else [ {| query := EmptyString; rules := d1 |} ]).
  set (g2 := if enableMediaQueryGrouping options
             then groupByMediaQuery d2
             else [ {| query := EmptyString; rules := d2 |} ]).
  assert (Eg : map erase_group g1 = map erase_group g2).
  { unfold g1, g2. destruct (enableMediaQueryGrouping options).
    - rewrite <- !groupByMediaQuery_erase. now rewrite Ed.
    - cbn [map]. unfold erase_group. cbn [query rules]. now rewrite Ed. }
  f_equal. f_equal.
  match goal with
  | |- for_each ?b g1 ?r = _ => set (body := b); generalize r
  end.
  assert (Hb : forall l0 r,
             for_each body (map erase_group l0) r = for_each body l0 r).
  { induction l0 as [|g l0 IH]; intros r; [reflexivity|].
    cbn [map for_each].
    assert (E : body r (erase_group g) = body r g).
    { unfold body, erase_group. cbn [rules query].
      now rewrite buildAdvancedNestedStructure_erase. }
    rewrite E. destruct (body r g); cbn [bind]; try reflexivity.
    apply IH. }
  intros r. rewrite <- (Hb g1), <- (Hb g2). now rewrite Eg.
Qed.
End Clock.

(** X29.  The conversion does not depend on the reading of the clock:
    [Date.now()] reaches only the [hash] field of the rules of at-rules
    and comments, and for every text, configuration and instance the
    outcome and the state that [convert] leaves are the same whatever
    the clock reads. *)
Theorem convert_ignores_the_clock :
  forall (parse : string -> ParseResult)
         (localeCompare : string -> string -> Z) (now1 now2 : Z)
         (options : Options) (this : Instance) (cssContent : string),
    convert parse localeCompare now1 options this cssContent =
      convert parse localeCompare now2 options this cssContent.
Proof.
  intros parse localeCompare now1 now2 options this cssContent.
  unfold convert. destruct (parse cssContent) as [ast|e]; [|reflexivity].
  rewrite !convert_ast_rules.
  destruct (extractRules_clock options now1 now2 ast) as [Er Eh].
  rewrite <- Eh.
  rewrite <- (convert_rules_erase localeCompare options this
                (fst (extractRules options now1 ast))).
  rewrite <- (convert_rules_erase localeCompare options this
                (fst (extractRules options now2 ast))).
  now rewrite Er.
Qed.

(* ------------------------------------------------------------------ *)
(** ** What [calculateSpecificity] counts *)

(** The pieces of a text between the characters of a class. *)
Fixpoint split_class (q : ascii -> bool) (s : string) : list string :=
  match s with
  | EmptyString => [EmptyString]
  | String c s' =>
      if q c then EmptyString :: split_class q s'
      else match split_class q s' with
           | piece :: rest => String c piece :: rest
           | [] => [String c EmptyString]
           end
  end.

Lemma match_at_class :
  forall q i c s,
    match_at (Chr q) i (String c s) =
      if q c then Some (S i, []) else None.
Proof.
  reflexivity.
Qed.

Lemma run_class_step :
  forall q i c s,
    run (Chr q) i (String c s) 0 =
      if q c then
        (EmptyString,
         (String c EmptyString, fst (run (Chr q) (S i) s 0))
           :: snd (run (Chr q) (S i) s 0))
      else
        (String c (fst (run (Chr q) (S i) s 0)),
         snd (run (Chr q) (S i) s 0)).
Proof.
  intros q i c s. cbn [run]. rewrite match_at_class.
  destruct (q c).
  - replace (Nat.eqb (S i) i) with false
      by (symmetry; apply Nat.eqb_neq; lia).
    replace (S i - i - 1) with 0 by lia.
    replace (S i - i) with 1 by lia.
    now destruct (run (Chr q) (S i) s 0).
  - now destruct (run (Chr q) (S i) s 0).
Qed.

Lemma split_class_run :
  forall q s i,
    fst (run (Chr q) i s 0) :: map snd (snd (run (Chr q) i s 0)) =
      split_class q s.
Proof.
  intros q. induction s as [|c s IH]; intros i; [reflexivity|].
  rewrite run_class_step. cbn [split_class]. rewrite <- (IH (S i)).
  now destruct (q c).
Qed.

Lemma count_class_run :
  forall x s i,
    List.length (snd (run (Chr (is_char x)) i s 0)) = count_char x s.
Proof.
  intros x. induction s as [|c s IH]; intros i; [reflexivity|].
  rewrite run_class_step. cbn [count_char]. unfold is_char at 1.
  rewrite Ascii.eqb_sym.
  destruct (Ascii.eqb c x); cbn [snd List.length]; now rewrite IH.
Qed.

Lemma run_lit_char :
  forall x s i skip,
    run (Lit (String x EmptyString)) i s skip = run (Chr (is_char x)) i s skip.
Proof.
  intros x. induction s as [|c s IH]; intros i skip.
  - destruct skip; reflexivity.
  - destruct skip as [|k]; cbn [run]; [|apply IH].
    change (match_at (Lit (String x EmptyString)) i (String c s))
      with (match_at (Chr (is_char x)) i (String c s)).
    destruct (match_at (Chr (is_char x)) i (String c s)) as [[e caps]|];
      [destruct (Nat.eqb e i)|]; now rewrite IH.
Qed.

Lemma test_class :
  forall m s, test (Chr m) s = negb (string_forall (Not m) s).
Proof.
  intros m s. unfold test.
  assert (G : forall t i,
             match search (Chr m) i t with Some _ => true | None => false end
             = negb (string_forall (Not m) t)).
  { induction t as [|c t IH]; intros i; [reflexivity|].
    cbn [search string_forall]. rewrite match_at_class. unfold Not at 1.
    destruct (m c); [reflexivity|]. cbn [negb andb]. apply IH. }
  apply G.
Qed.

(** [calculateSpecificity] returns three numbers: the count of [#] in
    the selector, the count of [.], and the count of the pieces between
    white space, [>], [+] and [~] that are not empty and hold none of
    [#], [.] and [:]. *)
Theorem calculateSpecificity_counts :
  forall selector_ : string,
    calculateSpecificity selector_ =
      [count_char "#" selector_;
       count_char "." selector_;
       List.length
         (filter (fun piece =>
                    truthy piece &&
                    string_forall
                      (fun c => negb (is_char "#" c || is_char "." c
                                      || is_char ":" c)) piece)
                 (split_class
                    (fun c => is_space c || is_char ">" c || is_char "+" c
                              || is_char "~" c) selector_))].
Proof.
  intros s. unfold calculateSpecificity, count_matches, match_g.
  rewrite !run_lit_char.
  f_equal; [|f_equal; [|f_equal]].
  - rewrite <- (count_class_run "#" s 0).
    destruct (snd (run (Chr (is_char "#")) 0 s 0)); [reflexivity|].
    now rewrite length_map.
  - rewrite <- (count_class_run "." s 0).
    destruct (snd (run (Chr (is_char ".")) 0 s 0)); [reflexivity|].
    now rewrite length_map.
  - unfold split, combinator_re, marker_re.
    rewrite <- (split_class_run _ s 0).
    destruct (run (Chr _) 0 s 0) as [t ms]. cbn [fst snd].
    f_equal. apply filter_ext. intros piece.
    rewrite test_class, negb_involutive.
    destruct piece; [reflexivity|].
    cbn [String.eqb negb]. now rewrite andb_true_r.
Qed.

(* ------------------------------------------------------------------ *)
(** ** BEM nesting *)

Lemma node_at_app :
  forall p1 p2 n,
    node_at (p1 ++ p2) n =
      match node_at p1 n with
      | Some m => node_at p2 m
      | None => None
      end.
Proof.
  induction p1 as [|k p1 IH]; intros p2 n; [reflexivity|].
  cbn [app node_at]. destruct (map_get k (n_children n)); [apply IH|].
  reflexivity.
Qed.

(** The path below a node at which [attach] puts the declarations of a
    rule: the child [&] followed by the match of the pattern, or the
    node itself when the pattern does not match the selector. *)
Definition pseudo_path (re : regex) (rule : ParsedRule) : list string :=
  match exec re (selector rule) with
  | Some (matched, _) => ["&" ++ matched]
  | None => []
  end.

Lemma attach_lookup :
  forall re rule base,
    exists node,
      node_at (pseudo_path re rule) (attach re rule base) = Some node /\
      n_declarations node =
        (declarations_at (pseudo_path re rule) base
           ++ declarations rule)%list.
Proof.
  intros re rule base. unfold attach, pseudo_path, declarations_at.
  destruct (exec re (selector rule)) as [[matched caps]|].
  - cbn [node_at]. unfold with_child.
    destruct (map_get ("&" ++ matched) (n_children base)) as [c|] eqn:E;
      unfold set_child; cbn [n_children]; rewrite map_get_set_same;
      eexists; split; reflexivity.
  - cbn [node_at]. eexists. split; reflexivity.
Qed.

Lemma descend_elements_lookup :
  forall bem f elements index node,
    exists base,
      node_at (map (fun e => "&__" ++ e) elements)
              (descend_elements bem elements index f node) =
        Some (f base) /\
      n_declarations base =
        declarations_at (map (fun e => "&__" ++ e) elements) node /\
      n_children base =
        children_at (map (fun e => "&__" ++ e) elements) node.
Proof.
  intros bem f. induction elements as [|e rest IH]; intros index node.
  - exists node. repeat split.
  - cbn [descend_elements map]. unfold with_child.
    unfold declarations_at, children_at. cbn [node_at].
    destruct (map_get ("&__" ++ e) (n_children node)) as [c|] eqn:E.
    + destruct (IH (S index) c) as [base [H1 [H2 H3]]].
      exists base. unfold set_child. cbn [n_children].
      rewrite map_get_set_same. now repeat split.
    + match goal with
      | |- context [descend_elements bem rest (S index) f
                                     (new_node ?s ?b)] =>
          destruct (IH (S index) (new_node s b)) as [base [H1 [H2 H3]]];
          destruct (node_at_new_node
                      (map (fun e => "&__" ++ e) rest) s b) as [Hd Hc]
      end.
      exists base. unfold set_child. cbn [n_children].
      rewrite map_get_set_same.
      rewrite Hd in H2. rewrite Hc in H3.
      now repeat split.
Qed.

(** X13.  [addAdvancedBEMElement] puts the declarations of an element
    rule below the block node along its elements: at the path
    [&__e1], ..., [&__en], followed by [&] and the pseudo part of the
    selector when it has one, there is a node after the insertion, and
    it holds the declarations that were at this place before followed by
    those of the rule. *)
Theorem addAdvancedBEMElement_lookup :
  forall (rule : ParsedRule) (blockNode : NestedRule)
         (bem : AdvancedBEMInfo),
    bemInfo rule = Some bem ->
    bem_elements bem <> [] ->
    let path :=
      (map (fun e => ("&__" ++ e)%string) (bem_elements bem)
         ++ pseudo_path pseudo_re rule)%list in
    exists node,
      node_at path (addAdvancedBEMElement rule blockNode) = Some node /\
      n_declarations node =
        (declarations_at path blockNode ++ declarations rule)%list.
Proof.
  intros rule blockNode bem Hb He path. unfold path, addAdvancedBEMElement.
  rewrite Hb.
  destruct (bem_elements bem) as [|e es] eqn:Ee; [now elim He|].
  destruct (descend_elements_lookup bem (attach pseudo_re rule) (e :: es) 0
                                    blockNode) as [base [H1 [H2 H3]]].
  destruct (attach_lookup pseudo_re rule base) as [node [H4 H5]].
  exists node. rewrite node_at_app, H1. split; [exact H4|].
  rewrite H5. f_equal. unfold declarations_at. rewrite node_at_app.
  unfold declarations_at, children_at in H2, H3.
  unfold pseudo_path.
  destruct (exec pseudo_re (selector rule)) as [[matched caps]|];
    cbn [node_at].
  - rewrite H3.
    destruct (node_at (map (fun e0 => "&__" ++ e0) (e :: es)) blockNode);
      reflexivity.
  - rewrite H2.
    destruct (node_at (map (fun e0 => "&__" ++ e0) (e :: es)) blockNode);
      reflexivity.
Qed.

Lemma addAdvancedBEMElement_lookup_witness :
  exists node,
    node_at ["&__header"; "&__title"; "&:hover"]
            (addAdvancedBEMElement
               (rule_for default_options [] [0; 1] EmptyString
                         ".card__header__title:hover")
               (new_node ".card" None)) = Some node /\
    n_declarations node = [0; 1].
Proof.
  apply (addAdvancedBEMElement_lookup
           (rule_for default_options [] [0; 1] EmptyString
                     ".card__header__title:hover")
           (new_node ".card" None)
           {| bem_block := "card"; bem_elements := ["header"; "title"];
              bem_modifier := None; bem_type := element; bem_level := 2 |});
    [reflexivity | discriminate].
Defined.

(** *** The pseudo-class of a block rule *)

(** The class [[^,\\s]] of the pattern in [addBEMBlockRule]: every
    character but the comma, the backslash and the letter s. *)
Definition escaped_class (c : ascii) : bool :=
  negb (is_char "," c || is_char "\" c || is_char "s" c).

(** A text is empty or begins outside the class [p]. *)
Definition stops (p : ascii -> bool) (rest : string) : bool :=
  match rest with
  | EmptyString => true
  | String c _ => negb (p c)
  end.

Lemma star_class_exact :
  forall (R : Type) (p : ascii -> bool) (k : cont R) (x : R)
         ds n rest i caps,
    string_forall p ds = true ->
    stops p rest = true ->
    String.length ds <= n ->
    k (i + String.length ds) rest caps = Some x ->
    star_loop (rmatch (Chr p)) k n i (ds ++ rest) caps = Some x.
Proof.
  intros R p k x. set (step := rmatch (R := R) (Chr p)).
  induction ds as [|c ds IH]; intros n rest i caps Hp Hr Hn Hk.
  - cbn [append String.length] in *. rewrite Nat.add_0_r in Hk.
    destruct n as [|n]; cbn [star_loop]; [exact Hk|].
    unfold step. destruct rest as [|c r]; cbn [rmatch]; [exact Hk|].
    cbn [stops] in Hr. apply negb_true_iff in Hr. now rewrite Hr.
  - cbn [string_forall] in Hp. apply andb_true_iff in Hp.
    destruct Hp as [Hc Hp]. cbn [String.length] in *.
    destruct n as [|n]; [lia|]. cbn [star_loop append].
    unfold step at 1. cbn [rmatch]. rewrite Hc.
    replace (Nat.eqb (S i) i) with false
      by (symmetry; apply Nat.eqb_neq; lia).
    rewrite (IH n rest (S i) caps Hp Hr); [reflexivity|lia|].
    replace (S i + String.length ds) with (i + S (String.length ds))
      by lia.
    exact Hk.
Qed.

Lemma take_app_length :
  forall x y, take (String.length x) (x ++ y) = x.
Proof.
  induction x as [|c x IH]; intros y; cbn; [now destruct y|].
  now rewrite IH.
Qed.

Lemma drop_app_length :
  forall x y, drop (String.length x) (x ++ y) = y.
Proof.
  induction x as [|c x IH]; intros y; cbn; [now destruct y|apply IH].
Qed.

Lemma pseudo_escaped_no_match :
  forall i c t,
    is_char ":" c = false ->
    match_at pseudo_escaped_re i (String c t) = None.
Proof.
  intros i c t H. unfold match_at, pseudo_escaped_re, Plus.
  cbn [Lit rmatch]. now rewrite H.
Qed.

Lemma pseudo_escaped_match_at :
  forall j a0 a rest,
    is_char ":" a0 = false ->
    string_forall escaped_class (String a0 a) = true ->
    stops escaped_class rest = true ->
    match_at pseudo_escaped_re j (String ":" (String a0 a ++ rest)) =
      Some (j + 2 + String.length a,
            [(1, String ":" (String a0 a))]).
Proof.
  intros j a0 a rest Hc Ha Hr.
  cbn [string_forall] in Ha. apply andb_true_iff in Ha.
  destruct Ha as [Ha0 Ha].
  unfold match_at, pseudo_escaped_re, Plus. cbn [append].
  set (s := String ":" (String a0 (a ++ rest))).
  set (k := fun (i' : nat) (_ : string) (c' : captures) =>
              Some (i', (1, take (i' - j) s) :: c')).
  set (k2 := fun (i2 : nat) (s2 : string) (c2 : captures) =>
               rmatch (Seq (Chr escaped_class) (Star (Chr escaped_class)))
                      i2 s2 c2 k).
  change (star_loop (rmatch (Lit ":")) k2
                    (S (String.length (String a0 (a ++ rest)))) (S j)
                    (String a0 (a ++ rest)) [] =
          Some (j + 2 + String.length a, [(1, String ":" (String a0 a))])).
  cbn [star_loop Lit rmatch]. rewrite Hc.
  unfold k2. cbn [rmatch]. rewrite Ha0.
  apply star_class_exact; try assumption.
  - pose proof (append_length_le a rest). lia.
  - unfold k. f_equal. f_equal; [lia|]. f_equal. f_equal.
    replace (S (S j) + String.length a - j)
      with (String.length (String ":" (String a0 a)))
      by (cbn [String.length]; lia).
    unfold s.
    change (String ":" (String a0 (a ++ rest)))
      with (String ":" (String a0 a) ++ rest).
    apply take_app_length.
Qed.

Lemma pseudo_escaped_exec :
  forall pre a0 a rest,
    string_forall (fun c => negb (is_char ":" c)) pre = true ->
    is_char ":" a0 = false ->
    string_forall escaped_class (String a0 a) = true ->
    stops escaped_class rest = true ->
    exec pseudo_escaped_re (pre ++ String ":" (String a0 a ++ rest)) =
      Some (String ":" (String a0 a), [(1, String ":" (String a0 a))]).
Proof.
  intros pre a0 a rest Hp Hc Ha Hr. unfold exec.
  assert (G : forall t i,
             string_forall (fun c => negb (is_char ":" c)) t = true ->
             search pseudo_escaped_re i
                    (t ++ String ":" (String a0 a ++ rest)) =
               Some (i + String.length t,
                     i + String.length t + 2 + String.length a,
                     [(1, String ":" (String a0 a))])).
  { pose proof (fun i => pseudo_escaped_match_at i a0 a rest Hc Ha Hr)
      as Hm.
    remember (String a0 a ++ rest) as tail_ eqn:Et.
    induction t as [|c t IH]; intros i Ht.
    - cbn [append String.length search]. rewrite Nat.add_0_r.
      now rewrite Hm.
    - cbn [string_forall] in Ht. apply andb_true_iff in Ht.
      destruct Ht as [Hc0 Ht]. apply negb_true_iff in Hc0.
      cbn [append search]. rewrite (pseudo_escaped_no_match i c _ Hc0).
      rewrite (IH (S i) Ht). cbn [String.length]. f_equal. f_equal.
      f_equal; lia. }
  rewrite (G pre 0 Hp). cbn [Nat.add]. f_equal. f_equal.
  rewrite drop_app_length.
  replace (String.length pre + 2 + String.length a - String.length pre)
    with (String.length (String ":" (String a0 a)))
    by (cbn [String.length]; lia).
  change (String ":" (String a0 a ++ rest))
    with (String ":" (String a0 a) ++ rest).
  apply take_app_length.
Qed.

(** X30.  The pattern with which [addBEMBlockRule] reads the pseudo
    part of a block rule excludes the comma, the backslash and the letter
    s, not white space.  For a selector [pre:name] followed by nothing or
    by one of these three characters, where [pre] has no colon and
    [name] none of the three and no colon at its head, the declarations
    go to the child [&:name] of the block node: a pseudo-class is cut
    before its first letter s, as [:focus] to [&:focu]. *)
Theorem block_pseudo_class_is_cut :
  forall (rule : ParsedRule) (blockNode : NestedRule)
         (pre : string) (a0 : ascii) (a rest : string),
    selector rule = pre ++ String ":" (String a0 a ++ rest) ->
    string_forall (fun c => negb (is_char ":" c)) pre = true ->
    is_char ":" a0 = false ->
    string_forall escaped_class (String a0 a) = true ->
    stops escaped_class rest = true ->
    exists node,
      node_at [String "&" (String ":" (String a0 a))]
              (addBEMBlockRule rule blockNode) = Some node /\
      n_declarations node =
        (declarations_at [String "&" (String ":" (String a0 a))] blockNode
           ++ declarations rule)%list.
Proof.
  intros rule blockNode pre a0 a rest Hs Hp Hc Ha Hr.
  pose proof (pseudo_escaped_exec pre a0 a rest Hp Hc Ha Hr) as He.
  rewrite <- Hs in He.
  destruct (attach_lookup pseudo_escaped_re rule blockNode)
    as [node [H1 H2]].
  unfold pseudo_path in H1, H2. rewrite He in H1, H2.
  exists node. split; [exact H1|exact H2].
Qed.

Lemma block_pseudo_class_is_cut_witness :
  let rule := rule_for default_options [] [] EmptyString ".btn:focus" in
  bemInfo rule =
    Some {| bem_block := "btn"; bem_elements := []; bem_modifier := None;
            bem_type := block; bem_level := 0 |} /\
  exists node,
    node_at ["&:focu"]
            (addBEMBlockRule rule (new_node ".btn" None)) = Some node /\
    n_declarations node =
      (declarations_at ["&:focu"] (new_node ".btn" None)
         ++ declarations rule)%list.
Proof.
  split; [reflexivity|].
  apply (block_pseudo_class_is_cut
           (rule_for default_options [] [] EmptyString ".btn:focus")
           (new_node ".btn" None) ".btn" "f" "ocu" "s");
    reflexivity.
Defined.

End Converter.
